(** * Cumulative quizzes of the Tobira AI service

    A shallow embedding of [src/services/cumulative-quiz.service.ts]: the
    SQL statements the service sends to PostgreSQL are given their meaning
    over in-memory tables, the TypeScript around them is written as functions
    of an error monad (exceptions) and of a state monad (fast cache and
    durable store), and the statements of the specification about ordering,
    eligibility, combination and cache validation are proved of them.  The
    routes of [src/index.ts] that call the service, and further properties
    of the service as a whole, follow. *)

From stdpp Require Import base decidable option list list_monad sorting strings gmap pretty.
From Stdlib Require Import ZArith Lia Ascii DecimalString DecimalPos DecimalZ.

Set Warnings "-register-all".

Local Open Scope string_scope.
Local Open Scope list_scope.
Local Open Scope Z_scope.

(** ** Exceptions

    A rejected promise or a thrown [Error] carries its message; the service
    only ever reads [error.message]. *)

Inductive result (A : Type) : Type :=
| Ok (a : A)
| Throw (message : string).
Arguments Ok {A} a.
Arguments Throw {A} message.

#[global] Instance result_ret : MRet result := λ A a, Ok a.
#[global] Instance result_bind : MBind result :=
  λ A B f r, match r with Ok a => f a | Throw m => Throw m end.
#[global] Instance result_fmap : FMap result :=
  λ A B f r, match r with Ok a => Ok (f a) | Throw m => Throw m end.

(** ** JavaScript values

    Quiz questions are untyped JSON ([any] in the source).  Numbers are IEEE
    doubles in JavaScript; the service never computes with them, it only
    tests them for truthiness and converts them from and to strings, so the
    number type and these conversions are an interface. *)

Class JsNumber := {
  number : Type;
  num_of_Z : Z → number;
  num_NaN : number;
  (** [+0], [-0] and [NaN] are the falsy numbers *)
  num_falsy : number → bool;
  (** [Number::toString] *)
  num_to_string : number → string;
  (** [StringToNumber] *)
  num_of_string : string → number;
  num_falsy_zero : num_falsy (num_of_Z 0) = true;
}.

(** ** Keys

    The ids of events and series are [BIGINT] columns.  The service holds
    them as strings: the server writes a key as its decimal text, which the
    driver hands to JavaScript as it is, and a string that the service binds
    to a parameter compared with such a column is read by the server's input
    function of the type, which accepts more than one spelling of a key
    (blanks around it, a sign, leading zeros) and rejects what is no integer
    or is out of range.  The keys, their text and the input function are an
    interface: reading the text of a key gives the key. *)

Inductive Int8Input (key : Type) : Type :=
| Int8 (k : key)
| Int8Syntax
| Int8Range.
Arguments Int8 {key} k.
Arguments Int8Syntax {key}.
Arguments Int8Range {key}.

#[global] Instance Int8Input_eq_dec `{EqDecision key} :
  EqDecision (Int8Input key).
Proof. solve_decision. Defined.

Class SqlBigint := {
  bigint : Type;
  #[global] bigint_eq_dec :: EqDecision bigint;
  #[global] bigint_countable :: Countable bigint;
  (** the text of a key, as a row carries it to JavaScript *)
  int8out : bigint → string;
  (** the key a parameter text is read as *)
  int8in : string → Int8Input bigint;
  int8in_out k : int8in (int8out k) = Int8 k;
}.

Section Service.
Context `{JsNumber} `{SqlBigint}.

Inductive jsval : Type :=
| JUndefined
| JNull
| JBool (b : bool)
| JNum (n : number)
| JStr (s : string)
| JArr (items : list jsval)
| JObj (fields : list (string * jsval)).

(** [ToBoolean]: the truthiness test of [?:], [||] and [!]. *)
Definition ToBoolean (v : jsval) : bool :=
  match v with
  | JUndefined | JNull => false
  | JBool b => b
  | JNum n => negb (num_falsy n)
  | JStr s => negb (String.eqb s "")
  | JArr _ | JObj _ => true
  end.

Fixpoint join_with (sep : string) (parts : list string) : string :=
  match parts with
  | [] => ""
  | [p] => p
  | p :: rest => p +:+ sep +:+ join_with sep rest
  end.

Fixpoint assoc (k : string) (fields : list (string * jsval)) : option jsval :=
  match fields with
  | [] => None
  | (k', v) :: rest => if String.eqb k k' then Some v else assoc k rest
  end.

(** The [TypeError] of [OrdinaryToPrimitive]. *)
Definition not_primitive : string := "Cannot convert object to primitive value".

(** [String(v)].  An array prints its elements joined by commas, with
    [null] and [undefined] elements printed as nothing.  An object is
    converted through its [toString] and [valueOf]: a value that was parsed
    from JSON inherits both from [Object.prototype] unless it has a property
    of that name of its own, which then is no function.  Without an own
    [toString] the object prints as [[object Object]]; with one, neither
    method answers with a primitive (the inherited [valueOf] returns the
    object itself) and the conversion throws. *)
Fixpoint ToString (v : jsval) : result string :=
  match v with
  | JUndefined => Ok "undefined"
  | JNull => Ok "null"
  | JBool true => Ok "true"
  | JBool false => Ok "false"
  | JNum n => Ok (num_to_string n)
  | JStr s => Ok s
  | JArr items =>
      join_with "," <$>
        mapM (λ x, match x with
                   | JUndefined | JNull => Ok ""
                   | _ => ToString x
                   end) items
  | JObj fields =>
      match assoc "toString" fields with
      | Some _ => Throw not_primitive
      | None => Ok "[object Object]"
      end
  end.

(** [Number(v)]: arrays and objects go through their string form. *)
Definition ToNumber (v : jsval) : result number :=
  match v with
  | JUndefined => Ok num_NaN
  | JNull => Ok (num_of_Z 0)
  | JBool true => Ok (num_of_Z 1)
  | JBool false => Ok (num_of_Z 0)
  | JNum n => Ok n
  | JStr s => Ok (num_of_string s)
  | JArr _ | JObj _ => num_of_string <$> ToString v
  end.

(** [v.name] for the field names the service reads ([questions],
    [correctAnswer], [correct_answer], [questionType], [type], [question],
    [options], [explanation], [difficulty], [timestamp]): none of them is a
    property of a primitive or of an array, so only an object can answer
    with something else than [undefined]; reading a property of [null] or
    [undefined] is a [TypeError]. *)
Definition get_prop (v : jsval) (name : string) : result jsval :=
  match v with
  | JUndefined =>
      Throw ("Cannot read properties of undefined (reading '" +:+ name +:+ "')")
  | JNull =>
      Throw ("Cannot read properties of null (reading '" +:+ name +:+ "')")
  | JObj fields => Ok (default JUndefined (assoc name fields))
  | _ => Ok JUndefined
  end.

(** [a ?? b] *)
Definition nullish_coalesce (a b : jsval) : jsval :=
  match a with
  | JUndefined | JNull => b
  | _ => a
  end.

(** [a || b] *)
Definition js_or (a b : jsval) : jsval :=
  if ToBoolean a then a else b.

(** ** Stable sorting

    [Array.prototype.sort] is stable, and so is the enumeration the model
    fixes for an SQL [ORDER BY] among rows that agree on every sort key. *)

Section Sorting.
Context {A : Type} (le : A → A → bool).

Fixpoint insert_by (x : A) (l : list A) : list A :=
  match l with
  | [] => [x]
  | y :: rest => if le x y then x :: y :: rest else y :: insert_by x rest
  end.

Fixpoint sort_by (l : list A) : list A :=
  match l with
  | [] => []
  | x :: rest => insert_by x (sort_by rest)
  end.
End Sorting.

(** The default comparator of [sort()] compares the elements as strings,
    code unit by code unit; the elements sorted here are ids, texts of
    decimal digits. *)
Definition js_sort (ids : list string) : list string :=
  sort_by String.leb ids.

(** ** The durable store

    A key column holds a [bigint]; what JavaScript reads from a row is the
    text of the key.  [created] is a timestamp, kept as a count of
    microseconds. *)

Inductive EventState : Type := Ready | Waiting.

#[global] Instance EventState_eq_dec : EqDecision EventState.
Proof. solve_decision. Defined.

(** The text under [metadata->'http://ethz.ch/video/metadata'->>'order']:
    either the spelling of an integer or some other text. *)
Inductive OrderText : Type :=
| OrderInt (z : Z)
| OrderOther (s : string).

Record Event : Type := {
  ev_key : bigint;
  ev_series_key : option bigint;
  ev_title : string;
  ev_state : EventState;
  ev_order : option OrderText;
  ev_created : Z;
}.

(** [row.id] and [row.series] of a row of [all_events]. *)
Definition ev_id (e : Event) : string := int8out (ev_key e).
Definition ev_series (e : Event) : option string :=
  int8out <$> ev_series_key e.

Record Series : Type := {
  series_key : bigint;
  series_title : string;
}.

Record QuizRow : Type := {
  quiz_event_key : bigint;
  quiz_language : string;
  quiz_data : jsval;
}.

Definition quiz_event_id (r : QuizRow) : string := int8out (quiz_event_key r).

Record VideoContext : Type := {
  vc_eventId : string;
  videoTitle : string;
  videoNumber : number;
  timestamp : option number;
}.

Record CumulativeQuizQuestion : Type := {
  question : jsval;
  questionType : jsval;
  options : jsval;
  correctAnswer : string;
  explanation : jsval;
  difficulty : jsval;
  videoContext : VideoContext;
}.

(** The object of the interface [CumulativeQuiz]: its ids are strings, the
    request's own text in [eventId]. *)
Record CumulativeQuiz : Type := {
  cq_eventId : string;
  cq_seriesId : string;
  cq_language : string;
  cq_model : string;
  cq_questions : list CumulativeQuizQuestion;
  cq_includedEventIds : list string;
  cq_videoCount : nat;
  cq_processingTimeMs : Z;
}.

(** A row of the ordering query: [id] is a key, of which JavaScript reads
    the text. *)
Record SeriesEvent : Type := {
  se_key : bigint;
  se_title : string;
  se_position : nat;
}.

Definition se_id (e : SeriesEvent) : string := int8out (se_key e).

(** What a row of [ai_cumulative_quizzes] holds besides [event_id] and
    [language]. *)
Record CumulativeRow : Type := {
  row_series_id : bigint;
  row_model : string;
  row_processing_time_ms : Z;
  row_questions : list CumulativeQuizQuestion;
  row_included_event_ids : list bigint;
  row_video_count : nat;
}.

(** [ai_cumulative_quizzes] has [UNIQUE(event_id, language)]: a map from
    these two columns to the rest of the row. *)
Record Db : Type := {
  all_events : list Event;
  all_series : list Series;
  ai_quizzes : list QuizRow;
  ai_cumulative_quizzes : gmap (bigint * string) CumulativeRow;
}.

(** The statements the service sends, with their parameters. *)
Inductive Stmt : Type :=
| SelectSeriesEvent (eventId : string)
| SelectSeriesEventsUpTo (seriesId upToEventId : string)
| SelectQuizData (eventId language : string)
| UpsertCumulativeQuiz (eventId language : string)
| SelectCumulativeQuiz (eventId language : string)
| SelectEvent (eventId : string)
| SelectQuizId (eventId language : string)
| SelectPositions (seriesId : string)
| SelectPreviousQuizzes (previousIds : list string) (language : string).

(** The connection pool: the tables, and the infrastructure failures
    (connection lost, timeout, ...) that make [pool.query] reject a
    statement with a message. *)
Record Pool : Type := {
  tables : Db;
  fault : Stmt → option string;
}.

Definition pool_query {A} (p : Pool) (stmt : Stmt) (run : Db → result A)
  : result A :=
  match fault p stmt with
  | Some message => Throw message
  | None => run (tables p)
  end.

(** ** Parameters compared with a key column *)

(** The character that a JavaScript literal writes between single quotes. *)
Definition double_quote : string :=
  String (Ascii.Ascii false true false false false true false false)
         EmptyString.

(** A parameter of a statement where the statement expects a [BIGINT]: the
    server reads the text when the statement is bound, before any row is
    looked at, and rejects the statement when the text is no key. *)
Definition bigint_param (text : string) : result bigint :=
  match int8in text with
  | Int8 k => Ok k
  | Int8Syntax =>
      Throw ("invalid input syntax for type bigint: "
             +:+ double_quote +:+ text +:+ double_quote)
  | Int8Range =>
      Throw ("value " +:+ double_quote +:+ text +:+ double_quote
             +:+ " is out of range for type bigint")
  end.

(** [column = $n] for a key column and a parameter text: the comparison is
    one of keys, not of texts. *)
Definition denotes (text : string) (k : bigint) : Prop :=
  int8in text = Int8 k.

#[global] Instance denotes_dec text k : Decision (denotes text k).
Proof. unfold denotes. apply _. Defined.

(** ** Series Position Resolver *)

(** [(text)::int] *)
Definition cast_int (t : OrderText) : result Z :=
  match t with
  | OrderInt z =>
      if bool_decide (-2147483648 ≤ z ≤ 2147483647) then Ok z
      else Throw ("value " +:+ double_quote +:+ pretty z +:+ double_quote
                  +:+ " is out of range for type integer")
  | OrderOther s =>
      Throw ("invalid input syntax for type integer: "
             +:+ double_quote +:+ s +:+ double_quote)
  end.

(** [CASE WHEN order IS NOT NULL THEN order::int ELSE 999999 END] *)
Definition order_key (e : Event) : result Z :=
  match ev_order e with
  | Some t => cast_int t
  | None => Ok 999999
  end.

(** [ORDER BY <order key>, created] *)
Definition sort_key_leb (a b : Z * Event) : bool :=
  (a.1 <? b.1) || ((a.1 =? b.1) && (ev_created a.2 <=? ev_created b.2)).

(** [WHERE series = $1 AND state = 'ready'] *)
Definition series_member (seriesId : string) (e : Event) : Prop :=
  match ev_series_key e with
  | Some series => denotes seriesId series
  | None => False
  end
  ∧ ev_state e = Ready.

#[global] Instance series_member_dec seriesId e :
  Decision (series_member seriesId e).
Proof. unfold series_member. destruct (ev_series_key e); apply _. Defined.

(** A row with its order key; the cast may fail. *)
Definition keyed (e : Event) : result (Z * Event) :=
  k ← order_key e; mret (k, e).

(** The rows of a series in [ROW_NUMBER()] order. *)
Definition ordered_rows (db : Db) (seriesId : string)
  : result (list (Z * Event)) :=
  rows ← mapM keyed (filter (series_member seriesId) (all_events db));
  mret (sort_by sort_key_leb rows).

(** [SELECT id, title, ROW_NUMBER() OVER (...) as position]: the row at
    index [i] of the order is numbered [i + 1]. *)
Definition numbered (i : nat) (r : Z * Event) : SeriesEvent :=
  {| se_key := ev_key r.2; se_title := ev_title r.2; se_position := S i |}.

(** The common table expression [ordered_events]. *)
Definition ordered_events (db : Db) (seriesId : string)
  : result (list SeriesEvent) :=
  rows ← ordered_rows db seriesId;
  mret (imap numbered rows).

Definition position_leb (a b : SeriesEvent) : bool :=
  Nat.leb (se_position a) (se_position b).

(** [FROM ordered_events e, target_position t WHERE e.position <= t.position],
    where [target_position] holds the rows of [ordered_events] with
    [id = $2]. *)
Definition up_to (upToEventId : string) (ordered : list SeriesEvent)
  : list SeriesEvent :=
  let target_position :=
    filter (λ t, denotes upToEventId (se_key t)) ordered in
  e ← ordered;
  t ← target_position;
  if Nat.leb (se_position e) (se_position t) then [e] else [].

Definition getSeriesEventsUpTo (p : Pool) (seriesId upToEventId : string)
  : result (list SeriesEvent) :=
  pool_query p (SelectSeriesEventsUpTo seriesId upToEventId) (λ db,
    _ ← bigint_param seriesId;
    _ ← bigint_param upToEventId;
    ordered ← ordered_events db seriesId;
    mret (sort_by position_leb (up_to upToEventId ordered))).

(** ** Per-video quizzes *)

Record IndividualQuiz : Type := {
  iq_eventId : string;
  iq_questions : jsval;
}.

(** [SELECT quiz_data FROM ai_quizzes WHERE event_id = $1 AND language = $2] *)
Definition select_quiz_data (eventId language : string) (db : Db)
  : list QuizRow :=
  filter (λ r, denotes eventId (quiz_event_key r) ∧ quiz_language r = language)
         (ai_quizzes db).

Definition getOrGenerateIndividualQuiz (p : Pool) (eventId language : string)
  : result IndividualQuiz :=
  rows ← pool_query p (SelectQuizData eventId language) (λ db,
    _ ← bigint_param eventId;
    mret (select_quiz_data eventId language db));
  match rows with
  | row :: _ =>
      stored ← get_prop (quiz_data row) "questions";
      mret {| iq_eventId := eventId;
              iq_questions := js_or stored (JArr []) |}
  | [] =>
      mret {| iq_eventId := eventId; iq_questions := JArr [] |}
  end.

(** ** Quiz Combiner *)

(** [array.forEach((x, index) => ...)] around a body that updates a local
    variable and may throw. *)
Fixpoint forEach {A St} (body : A → nat → St → result St)
    (index : nat) (l : list A) (s : St) : result St :=
  match l with
  | [] => Ok s
  | x :: rest => s' ← body x index s; forEach body (S index) rest s'
  end.

(** The properties of the object literal are evaluated in the order they
    are written: [String(correctAnswer)] before [event.id], and
    [Number(q.timestamp)] last. *)
Definition combine_question (event : option SeriesEvent) (q : jsval)
    (combined : list CumulativeQuizQuestion)
  : result (list CumulativeQuizQuestion) :=
  camel ← get_prop q "correctAnswer";
  snake ← get_prop q "correct_answer";
  let correctAnswer := nullish_coalesce camel snake in
  qt ← get_prop q "questionType";
  ty ← get_prop q "type";
  let questionType := nullish_coalesce qt ty in
  match correctAnswer with
  | JUndefined => Ok combined
  | _ =>
      text ← get_prop q "question";
      opts ← get_prop q "options";
      answer ← ToString correctAnswer;
      expl ← get_prop q "explanation";
      diff ← get_prop q "difficulty";
      ev ← match event with
           | Some ev => Ok ev
           | None => Throw "Cannot read properties of undefined (reading 'id')"
           end;
      ts ← get_prop q "timestamp";
      stamp ← (if ToBoolean ts then Some <$> ToNumber ts else Ok None);
      Ok (combined ++
          [ {| question := text;
               questionType := questionType;
               options := opts;
               correctAnswer := answer;
               explanation := expl;
               difficulty := diff;
               videoContext :=
                 {| vc_eventId := se_id ev;
                    videoTitle := se_title ev;
                    videoNumber := num_of_Z (Z.of_nat (se_position ev));
                    timestamp := stamp |} |} ])
  end.

Definition combineQuizzes (quizzes : list IndividualQuiz)
    (events : list SeriesEvent) : result (list CumulativeQuizQuestion) :=
  forEach (λ quiz index combined,
             let event := events !! index in
             match iq_questions quiz with
             | JArr questions =>
                 forEach (λ q _ combined, combine_question event q combined)
                         0%nat questions combined
             | _ => Ok combined
             end)
          0%nat quizzes [].

(** ** Fast cache, environment and the state of a request *)

Record World : Type := {
  pool : Pool;
  cache : gmap string CumulativeQuiz;
  DEFAULT_MODEL : option string;
}.

Definition io (A : Type) : Type := World → result A * World.

#[global] Instance io_ret : MRet io := λ A a w, (Ok a, w).
#[global] Instance io_bind : MBind io :=
  λ A B f m w, match m w with
               | (Ok a, w') => f a w'
               | (Throw e, w') => (Throw e, w')
               end.

(** A read of the store, or a pure computation that may throw. *)
Definition query {A} (run : Pool → result A) : io A :=
  λ w, (run (pool w), w).

Definition throw {A} (message : string) : io A :=
  λ w, (Throw message, w).

Definition cache_set (key : string) (quiz : CumulativeQuiz) : io unit :=
  λ w, (Ok (), {| pool := pool w;
                  cache := <[key := quiz]> (cache w);
                  DEFAULT_MODEL := DEFAULT_MODEL w |}).

Definition cache_get (key : string) : io (option CumulativeQuiz) :=
  λ w, (Ok (cache w !! key), w).

Definition cacheKey (eventId language : string) : string :=
  "cumulative_quiz:" +:+ eventId +:+ ":" +:+ language.

Fixpoint only_spaces (s : string) : bool :=
  match s with
  | EmptyString => true
  | String c rest => Ascii.eqb c " " && only_spaces rest
  end.

(** A string is the UTF-8 text the server receives.  The bytes [10xxxxxx]
    continue a character, every other byte starts one. *)
Definition continues (c : ascii) : bool :=
  match c with
  | Ascii.Ascii _ _ _ _ _ _ false true => true
  | _ => false
  end.

(** [char_length(s)] *)
Fixpoint char_length (s : string) : nat :=
  match s with
  | EmptyString => 0%nat
  | String c rest =>
      if continues c then char_length rest else S (char_length rest)
  end.

(** The first [n] characters of a string, and the rest. *)
Fixpoint take_chars (n : nat) (s : string) : string :=
  match s with
  | EmptyString => EmptyString
  | String c rest =>
      if continues c then String c (take_chars n rest)
      else match n with
           | O => EmptyString
           | S n' => String c (take_chars n' rest)
           end
  end.

Fixpoint drop_chars (n : nat) (s : string) : string :=
  match s with
  | EmptyString => EmptyString
  | String c rest =>
      if continues c then drop_chars n rest
      else match n with
           | O => s
           | S n' => drop_chars n' rest
           end
  end.

(** A value stored in a [VARCHAR(n)] column: a value of more than [n]
    characters is an error, unless what exceeds [n] characters is spaces,
    which are cut off. *)
Definition varchar (n : nat) (s : string) : result string :=
  if Nat.leb (char_length s) n then Ok s
  else if only_spaces (drop_chars n s) then Ok (take_chars n s)
       else Throw ("value too long for type character varying("
                   +:+ pretty n +:+ ")").

(** A value stored in an [INTEGER] column. *)
Definition int4 (z : Z) : result Z :=
  if bool_decide (-2147483648 ≤ z ≤ 2147483647) then Ok z
  else Throw "integer out of range".

(** [INSERT INTO ai_cumulative_quizzes ... ON CONFLICT (event_id, language)
    DO UPDATE SET questions, included_event_ids, video_count,
    processing_time_ms].  The parameters of the key and integer columns
    ([event_id], [series_id], [processing_time_ms], [included_event_ids
    BIGINT[]], [video_count]) are read when the statement is bound; the
    lengths of [language VARCHAR(10)] and [model VARCHAR(50)] and
    [CHECK (video_count > 0)] are tested when the row is written.  The
    conflict is one of the key [event_id] and the stored language; on a
    conflict the row keeps its [series_id] and [model]. *)
Definition upsert (quiz : CumulativeQuiz) (db : Db) : result Db :=
  event_id ← bigint_param (cq_eventId quiz);
  series_id ← bigint_param (cq_seriesId quiz);
  processing_time_ms ← int4 (cq_processingTimeMs quiz);
  included_event_ids ← mapM bigint_param (cq_includedEventIds quiz);
  video_count ← int4 (Z.of_nat (cq_videoCount quiz));
  language ← varchar 10 (cq_language quiz);
  model ← varchar 50 (cq_model quiz);
  if bool_decide (video_count > 0) then
    let key := (event_id, language) in
    let row :=
      match ai_cumulative_quizzes db !! key with
      | Some old =>
          {| row_series_id := row_series_id old;
             row_model := row_model old;
             row_processing_time_ms := processing_time_ms;
             row_questions := cq_questions quiz;
             row_included_event_ids := included_event_ids;
             row_video_count := cq_videoCount quiz |}
      | None =>
          {| row_series_id := series_id;
             row_model := model;
             row_processing_time_ms := processing_time_ms;
             row_questions := cq_questions quiz;
             row_included_event_ids := included_event_ids;
             row_video_count := cq_videoCount quiz |}
      end in
    Ok {| all_events := all_events db;
          all_series := all_series db;
          ai_quizzes := ai_quizzes db;
          ai_cumulative_quizzes := <[key := row]> (ai_cumulative_quizzes db) |}
  else Throw "new row violates check constraint on video_count".

Definition saveCumulativeQuiz (quiz : CumulativeQuiz) : io unit :=
  λ w,
    match pool_query (pool w)
            (UpsertCumulativeQuiz (cq_eventId quiz) (cq_language quiz))
            (upsert quiz) with
    | Throw message => (Throw message, w)
    | Ok db =>
        cache_set (cacheKey (cq_eventId quiz) (cq_language quiz)) quiz
          {| pool := {| tables := db; fault := fault (pool w) |};
             cache := cache w;
             DEFAULT_MODEL := DEFAULT_MODEL w |}
    end.

(** The object [getCachedQuiz] makes of a row: every id is the text of a
    key. *)
Definition quiz_of_row (event_id : bigint) (language : string)
    (row : CumulativeRow) : CumulativeQuiz :=
  {| cq_eventId := int8out event_id;
     cq_seriesId := int8out (row_series_id row);
     cq_language := language;
     cq_model := row_model row;
     cq_questions := row_questions row;
     cq_includedEventIds := int8out <$> row_included_event_ids row;
     cq_videoCount := row_video_count row;
     cq_processingTimeMs := row_processing_time_ms row |}.

(** [SELECT ... FROM ai_cumulative_quizzes
     WHERE event_id = $1 AND language = $2] *)
Definition select_cumulative_quiz (eventId language : string) (db : Db)
  : result (option CumulativeQuiz) :=
  event_id ← bigint_param eventId;
  mret (quiz_of_row event_id language
          <$> ai_cumulative_quizzes db !! (event_id, language)).

Definition getCachedQuiz (eventId language : string)
  : io (option CumulativeQuiz) :=
  cached ← cache_get (cacheKey eventId language);
  match cached with
  | Some quiz => mret (Some quiz)
  | None =>
      row ← query (λ p, pool_query p (SelectCumulativeQuiz eventId language)
                     (select_cumulative_quiz eventId language));
      match row with
      | Some quiz =>
          _ ← cache_set (cacheKey eventId language) quiz;
          mret (Some quiz)
      | None => mret None
      end
  end.

(** ** Cache Consistency Guard *)

(** [try { ... } catch (error) { ... }] *)
Definition try_catch {A} (body : result A) (handler : string → result A)
  : result A :=
  match body with
  | Ok a => Ok a
  | Throw message => handler message
  end.

(** [JSON.stringify] is injective on arrays of strings, so the comparison of
    the two serialisations is the comparison of the two sorted arrays. *)
Definition isCacheValid (p : Pool) (quiz : CumulativeQuiz) : result bool :=
  try_catch
    (currentEvents ← getSeriesEventsUpTo p (cq_seriesId quiz) (cq_eventId quiz);
     let currentEventIds := js_sort (se_id <$> currentEvents) in
     let cachedEventIds := js_sort (cq_includedEventIds quiz) in
     let isValid := bool_decide (currentEventIds = cachedEventIds) in
     mret isValid)
    (λ _, mret false).

(** ** Aggregation Orchestrator *)

Record AnchorRow : Type := {
  anchor_key : bigint;
  anchor_series_key : bigint;
  anchor_title : string;
}.

(** [event.id] and [event.series] *)
Definition anchor_id (event : AnchorRow) : string :=
  int8out (anchor_key event).
Definition anchor_series (event : AnchorRow) : string :=
  int8out (anchor_series_key event).

(** [SELECT id, series, title FROM all_events
     WHERE id = $1 AND series IS NOT NULL AND state = 'ready'] *)
Definition select_series_event (eventId : string) (db : Db)
  : list AnchorRow :=
  omap (λ e,
          match ev_series_key e with
          | Some series =>
              if bool_decide (denotes eventId (ev_key e) ∧ ev_state e = Ready)
              then Some {| anchor_key := ev_key e;
                           anchor_series_key := series;
                           anchor_title := ev_title e |}
              else None
          | None => None
          end)
       (all_events db).

Definition query_series_event (p : Pool) (eventId : string)
  : result (list AnchorRow) :=
  pool_query p (SelectSeriesEvent eventId) (λ db,
    _ ← bigint_param eventId;
    mret (select_series_event eventId db)).

(** [process.env.DEFAULT_MODEL || 'gpt-4'] *)
Definition model_name (env : option string) : string :=
  match env with
  | Some m => if String.eqb m "" then "gpt-4" else m
  | None => "gpt-4"
  end.

(** [startTime] and [now] are the two readings of [Date.now()]. The
    per-member fetches run under [Promise.all]; the array it resolves to is
    in member order whatever the order of completion. *)
Definition generateCumulativeQuiz (eventId language : string)
    (forceRegenerate : bool) (startTime now : Z) : io CumulativeQuiz :=
  served ← (if forceRegenerate then mret None
            else
              cached ← getCachedQuiz eventId language;
              match cached with
              | Some quiz =>
                  valid ← query (λ p, isCacheValid p quiz);
                  mret (if valid : bool then Some quiz else None)
              | None => mret None
              end);
  match served with
  | Some quiz => mret quiz
  | None =>
      eventResult ← query (λ p, query_series_event p eventId);
      match eventResult with
      | [] => throw "Event not found or not part of a series"
      | event :: _ =>
          let seriesId := anchor_series event in
          seriesEvents ← query (λ p, getSeriesEventsUpTo p seriesId eventId);
          if bool_decide (length seriesEvents = 0%nat)
          then throw "No events found in series"
          else
            individualQuizzes ← query (λ p,
              mapM (λ e, getOrGenerateIndividualQuiz p (se_id e) language)
                   seriesEvents);
            questions ← query (λ _,
              combineQuizzes individualQuizzes seriesEvents);
            env ← (λ w, (Ok (DEFAULT_MODEL w), w));
            let quiz :=
              {| cq_eventId := eventId;
                 cq_seriesId := seriesId;
                 cq_language := language;
                 cq_model := model_name env;
                 cq_questions := questions;
                 cq_includedEventIds := se_id <$> seriesEvents;
                 cq_videoCount := length seriesEvents;
                 cq_processingTimeMs := now - startTime |} in
            _ ← saveCumulativeQuiz quiz;
            mret quiz
      end
  end.

(** ** Eligibility Evaluator *)

Record EligibilityDetails : Type := {
  d_seriesId : string;
  d_seriesTitle : option string;
  d_position : option nat;
  d_totalInSeries : option nat;
  d_previousVideosWithQuizzes : option nat;
  d_hasQuiz : bool;
}.

Record Eligibility : Type := {
  eligible : bool;
  reason : string;
  details : option EligibilityDetails;
}.

Record EventJoinRow : Type := {
  ej_key : bigint;
  ej_series_key : option bigint;
  ej_title : string;
  ej_series_title : option string;
}.

(** [event.id] and [event.series]; a series that is [NULL] comes as [null]. *)
Definition ej_id (event : EventJoinRow) : string := int8out (ej_key event).
Definition ej_series (event : EventJoinRow) : option string :=
  int8out <$> ej_series_key event.

(** [SELECT e.id, e.series, e.title, s.title as series_title
     FROM all_events e LEFT JOIN all_series s ON s.id = e.series
     WHERE e.id = $1 AND e.state = 'ready'] *)
Definition select_event (eventId : string) (db : Db) : list EventJoinRow :=
  e ← filter (λ e, denotes eventId (ev_key e) ∧ ev_state e = Ready)
             (all_events db);
  let row series_title :=
    {| ej_key := ev_key e; ej_series_key := ev_series_key e;
       ej_title := ev_title e; ej_series_title := series_title |} in
  match filter (λ s, Some (series_key s) = ev_series_key e) (all_series db) with
  | [] => [row None]
  | matches => (λ s, row (Some (series_title s))) <$> matches
  end.

(** [SELECT id FROM ai_quizzes WHERE event_id = $1 AND language = $2] *)
Definition select_quiz_id (eventId language : string) (db : Db)
  : list QuizRow :=
  filter (λ r, denotes eventId (quiz_event_key r) ∧ quiz_language r = language)
         (ai_quizzes db).

(** [SELECT id, title, position FROM ordered_events ORDER BY position] *)
Definition select_positions (seriesId : string) (db : Db)
  : result (list SeriesEvent) :=
  ordered ← ordered_events db seriesId;
  mret (sort_by position_leb ordered).

(** [SELECT DISTINCT event_id FROM ai_quizzes
     WHERE event_id = ANY($1::bigint[]) AND language = $2] *)
Definition select_previous_quizzes (previousIds : list string)
    (language : string) (db : Db) : list bigint :=
  remove_dups
    (quiz_event_key <$>
       filter (λ r, Exists (λ id, denotes id (quiz_event_key r)) previousIds
                    ∧ quiz_language r = language)
              (ai_quizzes db)).

(** [(v) => v.id.toString() === eventId.toString()]: a comparison of
    texts. *)
Definition is_anchor (eventId : string) (v : SeriesEvent) : bool :=
  String.eqb (se_id v) eventId.

(** [array.findIndex(f)], with [None] for [-1]. *)
Fixpoint findIndex {A} (f : A → bool) (l : list A) : option nat :=
  match l with
  | [] => None
  | x :: rest => if f x then Some 0%nat else S <$> findIndex f rest
  end.

Definition reason_not_found : string := "Event not found or not ready".
Definition reason_no_series : string :=
  "This video is not part of a series. Cumulative quizzes require a video series.".
Definition reason_no_quiz : string :=
  "Generate a regular quiz for this video first before creating a cumulative quiz.".
Definition reason_no_position : string :=
  "Video position could not be determined in the series".
Definition reason_first_video : string :=
  "This is the first video in the series. Cumulative quizzes require at least one previous video with a quiz.".
Definition reason_no_previous_quiz : string :=
  "No previous videos in this series have quizzes yet. Generate quizzes for earlier videos first.".
Definition reason_eligible (currentPosition totalInSeries previous : nat)
  : string :=
  "Cumulative quiz can be generated. This video is #" +:+ pretty currentPosition
  +:+ " of " +:+ pretty totalInSeries
  +:+ " in the series, with " +:+ pretty previous
  +:+ " previous video(s) having quizzes.".
Definition reason_error (message : string) : string :=
  "Error checking eligibility: " +:+ message.

(** The four statements of [checkEligibility], as sent to the pool. *)
Definition query_event (p : Pool) (eventId : string)
  : result (list EventJoinRow) :=
  pool_query p (SelectEvent eventId) (λ db,
    _ ← bigint_param eventId;
    mret (select_event eventId db)).

Definition query_quiz_id (p : Pool) (eventId language : string)
  : result (list QuizRow) :=
  pool_query p (SelectQuizId eventId language) (λ db,
    _ ← bigint_param eventId;
    mret (select_quiz_id eventId language db)).

Definition query_positions (p : Pool) (seriesId : string)
  : result (list SeriesEvent) :=
  pool_query p (SelectPositions seriesId) (λ db,
    _ ← bigint_param seriesId;
    select_positions seriesId db).

Definition query_previous_quizzes (p : Pool) (previousIds : list string)
    (language : string) : result (list bigint) :=
  pool_query p (SelectPreviousQuizzes previousIds language) (λ db,
    _ ← mapM bigint_param previousIds;
    mret (select_previous_quizzes previousIds language db)).

(** The body of the [try] block. *)
Definition checkEligibility_try (p : Pool) (eventId language : string)
  : result Eligibility :=
  eventResult ← query_event p eventId;
  match eventResult with
  | [] => Ok {| eligible := false; reason := reason_not_found;
                  details := None |}
  | event :: _ =>
    match ej_series event with
    | None => Ok {| eligible := false; reason := reason_no_series;
                      details := None |}
    | Some seriesId =>
      quizResult ← query_quiz_id p eventId language;
      let hasQuiz := Nat.ltb 0 (length quizResult) in
      let info position total previous has :=
        Some {| d_seriesId := seriesId;
                d_seriesTitle := ej_series_title event;
                d_position := position;
                d_totalInSeries := total;
                d_previousVideosWithQuizzes := previous;
                d_hasQuiz := has |} in
      if negb hasQuiz
      then Ok {| eligible := false; reason := reason_no_quiz;
                   details := info None None None false |}
      else
        allSeriesVideos ← query_positions p seriesId;
        match findIndex (is_anchor eventId) allSeriesVideos with
        | None => Ok {| eligible := false; reason := reason_no_position;
                          details := info None None None true |}
        | Some currentVideoIndex =>
          let currentPosition := (currentVideoIndex + 1)%nat in
          let totalInSeries := length allSeriesVideos in
          let videosBeforeThis := take currentVideoIndex allSeriesVideos in
          if bool_decide (length videosBeforeThis = 0%nat)
          then Ok {| eligible := false; reason := reason_first_video;
                       details := info (Some currentPosition)
                                       (Some totalInSeries) (Some 0%nat) true |}
          else
            let previousIds := se_id <$> videosBeforeThis in
            previousQuizzesResult ←
              query_previous_quizzes p previousIds language;
            let previousVideosWithQuizzes := length previousQuizzesResult in
            if bool_decide (previousVideosWithQuizzes = 0%nat)
            then Ok {| eligible := false; reason := reason_no_previous_quiz;
                         details := info (Some currentPosition)
                                         (Some totalInSeries) (Some 0%nat)
                                         true |}
            else Ok {| eligible := true;
                         reason := reason_eligible currentPosition
                                     totalInSeries previousVideosWithQuizzes;
                         details := info (Some currentPosition)
                                         (Some totalInSeries)
                                         (Some previousVideosWithQuizzes)
                                         true |}
        end
    end
  end.

Definition checkEligibility (p : Pool) (eventId language : string)
  : result Eligibility :=
  try_catch (checkEligibility_try p eventId language)
    (λ message, Ok {| eligible := false; reason := reason_error message;
                        details := None |}).

(** ** Vocabulary of the statements below *)

(** The order of [ORDER BY <order key>, created], as a relation. *)
Definition sort_key_le (a b : Z * Event) : Prop :=
  a.1 < b.1 ∨ (a.1 = b.1 ∧ ev_created a.2 ≤ ev_created b.2).

(** Row numbers count up from [n + 1]. *)
Definition numbered_from (n : nat) (l : list SeriesEvent) : Prop :=
  ∀ j e, l !! j = Some e → se_position e = S (n + j).

(** Step 1 of [generateCumulativeQuiz]: the stored quiz to serve, if any. *)
Definition cache_step (eventId language : string) (forceRegenerate : bool)
  : io (option CumulativeQuiz) :=
  if forceRegenerate then mret None
  else
    cached ← getCachedQuiz eventId language;
    match cached with
    | Some quiz =>
        valid ← query (λ p, isCacheValid p quiz);
        mret (if valid : bool then Some quiz else None)
    | None => mret None
    end.

(** Steps 2 to 6 of [generateCumulativeQuiz]: a quiz is produced. *)
Definition produce (eventId language : string) (startTime now : Z)
  : io CumulativeQuiz :=
  eventResult ← query (λ p, query_series_event p eventId);
  match eventResult with
  | [] => throw "Event not found or not part of a series"
  | event :: _ =>
      let seriesId := anchor_series event in
      seriesEvents ← query (λ p, getSeriesEventsUpTo p seriesId eventId);
      if bool_decide (length seriesEvents = 0%nat)
      then throw "No events found in series"
      else
        individualQuizzes ← query (λ p,
          mapM (λ e, getOrGenerateIndividualQuiz p (se_id e) language)
               seriesEvents);
        questions ← query (λ _,
          combineQuizzes individualQuizzes seriesEvents);
        env ← (λ w, (Ok (DEFAULT_MODEL w), w));
        let quiz :=
          {| cq_eventId := eventId;
             cq_seriesId := seriesId;
             cq_language := language;
             cq_model := model_name env;
             cq_questions := questions;
             cq_includedEventIds := se_id <$> seriesEvents;
             cq_videoCount := length seriesEvents;
             cq_processingTimeMs := now - startTime |} in
        _ ← saveCumulativeQuiz quiz;
        mret quiz
  end.

(** [q.name] for a question [q] that is neither [null] nor [undefined]. *)
Definition field (q : jsval) (name : string) : jsval :=
  match q with
  | JObj fields => default JUndefined (assoc name fields)
  | _ => JUndefined
  end.

Definition is_nullish (v : jsval) : bool :=
  match v with
  | JUndefined | JNull => true
  | _ => false
  end.

(** [q.correctAnswer ?? q.correct_answer] *)
Definition answer_of (q : jsval) : jsval :=
  nullish_coalesce (field q "correctAnswer") (field q "correct_answer").

(** [q.correctAnswer ?? q.correct_answer] is not [undefined]. *)
Definition has_answer (q : jsval) : bool :=
  match answer_of q with
  | JUndefined => false
  | _ => true
  end.

(** A value that [String] and [Number] convert: no object with a
    [toString] of its own, and no array with such an object among its
    elements, however deep. *)
Fixpoint plain (v : jsval) : bool :=
  match v with
  | JArr items => forallb plain items
  | JObj fields =>
      match assoc "toString" fields with
      | Some _ => false
      | None => true
      end
  | _ => true
  end.

(** A question whose answer, and whose timestamp if it is truthy, are
    values that convert. *)
Definition convertible (q : jsval) : Prop :=
  plain (answer_of q) = true
  ∧ (ToBoolean (field q "timestamp") = true →
     plain (field q "timestamp") = true).

(** The combined question made of question [q] of the video [ev], when
    the answer and the timestamp of [q] convert. *)
Definition combined_question (ev : SeriesEvent) (q : jsval)
  : result CumulativeQuizQuestion :=
  answer ← ToString (answer_of q);
  stamp ← (if ToBoolean (field q "timestamp")
           then Some <$> ToNumber (field q "timestamp")
           else Ok None);
  Ok {| question := field q "question";
        questionType :=
          nullish_coalesce (field q "questionType") (field q "type");
        options := field q "options";
        correctAnswer := answer;
        explanation := field q "explanation";
        difficulty := field q "difficulty";
        videoContext :=
          {| vc_eventId := se_id ev;
             videoTitle := se_title ev;
             videoNumber := num_of_Z (Z.of_nat (se_position ev));
             timestamp := stamp |} |}.

Definition questions_of (quiz : IndividualQuiz) : list jsval :=
  match iq_questions quiz with
  | JArr questions => questions
  | _ => []
  end.

(** Every stored question next to the video of its quiz: in the order of
    the videos first, in the order of the questions of a quiz second. *)
Definition listing (quizzes : list IndividualQuiz) (events : list SeriesEvent)
  : list (SeriesEvent * jsval) :=
  qe ← zip quizzes events;
  (λ q, (qe.2, q)) <$> questions_of qe.1.

Definition answered (item : SeriesEvent * jsval) : Prop :=
  has_answer item.2 = true.

#[global] Instance answered_dec item : Decision (answered item).
Proof. unfold answered. apply _. Defined.

(** The loop over the questions of one quiz, [event] being [events[index]]. *)
Definition inner_loop (event : option SeriesEvent) (questions : list jsval)
    (combined : list CumulativeQuizQuestion)
  : result (list CumulativeQuizQuestion) :=
  forEach (λ q _ combined, combine_question event q combined)
          0%nat questions combined.

(** The body of the loop over the quizzes. *)
Definition outer_body (events : list SeriesEvent) (quiz : IndividualQuiz)
    (index : nat) (combined : list CumulativeQuizQuestion)
  : result (list CumulativeQuizQuestion) :=
  inner_loop (events !! index) (questions_of quiz) combined.

(** The combined question of an item of the listing. *)
Definition combined_of (item : SeriesEvent * jsval)
  : result CumulativeQuizQuestion :=
  combined_question item.1 item.2.

(** Every question of every quiz is an object or a primitive, not [null]. *)
Definition questions_present (quizzes : list IndividualQuiz) : Prop :=
  Forall (λ quiz, Forall (λ q, is_nullish q = false) (questions_of quiz))
         quizzes.

(** Every question of every quiz that has an answer converts. *)
Definition questions_convert (quizzes : list IndividualQuiz) : Prop :=
  Forall (λ quiz,
            Forall (λ q, has_answer q = true → convertible q)
                   (questions_of quiz))
         quizzes.

(** The [quiz_data] stored for a video and a language, if any; the video
    is given by a text of its key. *)
Definition stored_quiz (db : Db) (eventId language : string) : option jsval :=
  head (quiz_data <$>
        filter (λ r, denotes eventId (quiz_event_key r)
                     ∧ quiz_language r = language)
               (ai_quizzes db)).

(** The questions a stored [quiz_data] contributes: [questions || []]. *)
Definition stored_questions (data : jsval) : list jsval :=
  match js_or (field data "questions") (JArr []) with
  | JArr questions => questions
  | _ => []
  end.

(** A stored [quiz_data] the combiner can read: it is not [null], no entry
    of its question list is, and every question with an answer converts. *)
Definition quiz_usable (data : jsval) : Prop :=
  is_nullish data = false
  ∧ Forall (λ q, is_nullish q = false
                 ∧ (has_answer q = true → convertible q))
           (stored_questions data).

(** What [getOrGenerateIndividualQuiz] answers for a member of a store that
    responds: the stored questions, or none. *)
Definition fetched (db : Db) (language : string) (m : SeriesEvent)
  : IndividualQuiz :=
  {| iq_eventId := se_id m;
     iq_questions :=
       match stored_quiz db (se_id m) language with
       | Some data => js_or (field data "questions") (JArr [])
       | None => JArr []
       end |}.

(** The diagnostics attached to an outcome. *)
Definition gate_details (event : EventJoinRow) (seriesId : string)
    (position total previous : option nat) (has : bool)
  : option EligibilityDetails :=
  Some {| d_seriesId := seriesId;
          d_seriesTitle := ej_series_title event;
          d_position := position;
          d_totalInSeries := total;
          d_previousVideosWithQuizzes := previous;
          d_hasQuiz := has |}.

(** The reasons of the business outcomes that are not eligible. *)
Definition ineligible_reasons : list string :=
  [ reason_not_found; reason_no_series; reason_no_quiz; reason_no_position;
    reason_first_video; reason_no_previous_quiz ].

(** The record that reports a caught exception. *)
Definition error_record (message : string) : Eligibility :=
  {| eligible := false; reason := reason_error message; details := None |}.

(** The table has a per-video quiz of the video [k] in the language. *)
Definition has_quiz (db : Db) (k : bigint) (language : string) : Prop :=
  Exists (λ row, quiz_event_key row = k ∧ quiz_language row = language)
         (ai_quizzes db).

#[global] Instance has_quiz_dec db k language :
  Decision (has_quiz db k language).
Proof. unfold has_quiz. apply _. Defined.

(** The title the table of the series has for the series [s]: the title
    of a row with that key, or none when there is no such row. *)
Definition series_title_is (db : Db) (s : bigint) (title : option string)
  : Prop :=
  match title with
  | Some t => ∃ x, x ∈ all_series db ∧ series_key x = s ∧ series_title x = t
  | None => ∀ x, x ∈ all_series db → series_key x ≠ s
  end.

(** The diagnostics of an outcome, from the tables. *)
Definition diagnostics (s : bigint) (title : option string)
    (position total previous : option nat) (has : bool)
  : option EligibilityDetails :=
  Some {| d_seriesId := int8out s;
          d_seriesTitle := title;
          d_position := position;
          d_totalInSeries := total;
          d_previousVideosWithQuizzes := previous;
          d_hasQuiz := has |}.

(** The videos before index [i] of the series order that have a per-video
    quiz in the language. *)
Definition predecessors_with_quiz (db : Db) (language : string)
    (vids : list SeriesEvent) (i : nat) : list SeriesEvent :=
  filter (λ v, has_quiz db (se_key v) language) (take i vids).

(** The statements [checkEligibility] sends for a request: the first two
    always, the third for the series of the requested video, the fourth for
    the texts of the keys of a beginning of that series' order. *)
Inductive sent (p : Pool) (eventId language : string) : Stmt → Prop :=
| sent_event : sent p eventId language (SelectEvent eventId)
| sent_quiz_id : sent p eventId language (SelectQuizId eventId language)
| sent_positions e s :
    e ∈ all_events (tables p) → denotes eventId (ev_key e) →
    ev_state e = Ready → ev_series_key e = Some s →
    sent p eventId language (SelectPositions (int8out s))
| sent_previous e s vids n :
    e ∈ all_events (tables p) → denotes eventId (ev_key e) →
    ev_state e = Ready → ev_series_key e = Some s →
    ordered_events (tables p) (int8out s) = Ok vids →
    sent p eventId language
      (SelectPreviousQuizzes (se_id <$> take n vids) language).

(** What makes [checkEligibility] answer with the record of an error: the
    store rejects one of the statements of the request (an infrastructure
    failure), the id of the request is no key, or a ready video of the
    series of the requested video has an order text that is no integer. *)
Inductive error_cause (p : Pool) (eventId language message : string) : Prop :=
| statement_rejected stmt :
    sent p eventId language stmt → fault p stmt = Some message →
    error_cause p eventId language message
| id_is_no_key :
    bigint_param eventId = Throw message →
    error_cause p eventId language message
| order_is_no_integer e s c :
    e ∈ all_events (tables p) → denotes eventId (ev_key e) →
    ev_state e = Ready → ev_series_key e = Some s →
    c ∈ all_events (tables p) → series_member (int8out s) c →
    order_key c = Throw message →
    error_cause p eventId language message.

(** [sorted] is the sorted list of [ids]: the same ids, each as often, in
    ascending order of their texts. *)
Definition sorted_list_of (ids sorted : list string) : Prop :=
  sorted ≡ₚ ids ∧ Sorted (λ a b, String.leb a b = true) sorted.

(** The key a row is sorted under: its hint, or 999999 without one. *)
Definition key_of_hint (r : Z * Event) : Prop :=
  match ev_order r.2 with
  | None => r.1 = 999999
  | Some (OrderInt z) => r.1 = z
  | Some (OrderOther _) => False
  end.

(** Strictly earlier in the order of [ORDER BY <order key>, created]. *)
Definition sort_key_lt (a b : Z * Event) : Prop :=
  a.1 < b.1 ∨ (a.1 = b.1 ∧ ev_created a.2 < ev_created b.2).

(** Two pools that agree on everything but the cumulative quizzes stored for
    the video that [eventId] denotes. *)
Definition differ_at_most_at (eventId : string) (p p' : Pool) : Prop :=
  all_events (tables p') = all_events (tables p)
  ∧ all_series (tables p') = all_series (tables p)
  ∧ ai_quizzes (tables p') = ai_quizzes (tables p)
  ∧ fault p' = fault p
  ∧ ∀ key, ¬ denotes eventId key.1 →
      ai_cumulative_quizzes (tables p') !! key
      = ai_cumulative_quizzes (tables p) !! key.

(** Steps 2 to 5 of [generateCumulativeQuiz] and the record step 6 builds,
    before it is saved: reads of the store only. *)
Definition assemble (p : Pool) (env : option string)
    (eventId language : string) (startTime now : Z) : result CumulativeQuiz :=
  eventResult ← query_series_event p eventId;
  match eventResult with
  | [] => Throw "Event not found or not part of a series"
  | event :: _ =>
      let seriesId := anchor_series event in
      seriesEvents ← getSeriesEventsUpTo p seriesId eventId;
      if bool_decide (length seriesEvents = 0%nat)
      then Throw "No events found in series"
      else
        individualQuizzes ←
          mapM (λ e, getOrGenerateIndividualQuiz p (se_id e) language)
               seriesEvents;
        questions ← combineQuizzes individualQuizzes seriesEvents;
        mret {| cq_eventId := eventId;
                cq_seriesId := seriesId;
                cq_language := language;
                cq_model := model_name env;
                cq_questions := questions;
                cq_includedEventIds := se_id <$> seriesEvents;
                cq_videoCount := length seriesEvents;
                cq_processingTimeMs := now - startTime |}
  end.

(** The message of the guard after step 3 of [generateCumulativeQuiz]. *)
Definition error_no_events : string := "No events found in series".

(** An identifier without a colon, as the decimal text of a key is. *)
Fixpoint colon_free (s : string) : bool :=
  match s with
  | EmptyString => true
  | String c rest => negb (Ascii.eqb c ":") && colon_free rest
  end.

End Service.

(** ** The routes of the cumulative quizzes

    The three handlers of [src/index.ts] that call the service.  Each runs
    inside [try { ... } catch (error) { ... }] and answers with a status and
    a JSON body; [res.json] without [res.status] answers 200.
    [normalizeLanguageCode] belongs to [utils/language], a module that is
    not embedded here: it is a parameter, a function that returns a
    language code or throws. *)

Section Routes.
Context `{JsNumber} `{SqlBigint}.
Variable normalizeLanguageCode : jsval → result string.

Inductive Body : Type :=
| ErrorBody (error message : string)
| NotFoundBody (error message eventId language : string)
| GeneratedBody (eventId seriesId language : string)
    (videoCount questionCount : nat) (processingTimeMs : Z) (model : string)
    (quiz : CumulativeQuiz)
| EligibilityBody (eventId language : string) (result : Eligibility)
| QuizBody (eventId seriesId language : string)
    (videoCount questionCount : nat) (quiz : CumulativeQuiz).

(** [cache_hit] is the header [X-Cache-Hit: true]. *)
Record Response : Type := {
  status : nat;
  cache_hit : bool;
  body : Body;
}.

Definition respond (code : nat) (b : Body) : Response :=
  {| status := code; cache_hit := false; body := b |}.

(** [v === true] *)
Definition is_true (v : jsval) : bool :=
  match v with
  | JBool true => true
  | _ => false
  end.

Definition language_required_in_body : Body :=
  ErrorBody "Language is required"
    ("Please specify a language code in request body (e.g., "
     +:+ double_quote +:+ "en" +:+ double_quote +:+ ", "
     +:+ double_quote +:+ "de" +:+ double_quote +:+ ")").

(** [try { ... } catch (error) { res.status(500).json({error, message}) }]
    around a handler body. *)
Definition handle (error : string) (attempt : io Response)
  : World → Response * World :=
  λ w, match attempt w with
       | (Ok response, w') => (response, w')
       | (Throw message, w') => (respond 500 (ErrorBody error message), w')
       end.

(** [app.post('/api/cumulative-quizzes/generate/:eventId', ...)];
    [requestBody] is [req.body]. *)
Definition post_generate (eventId : string) (requestBody : jsval)
    (startTime now : Z) : World → Response * World :=
  handle "Failed to generate cumulative quiz"
    (given ← query (λ _, get_prop requestBody "language");
     if negb (ToBoolean given)
     then mret (respond 400 language_required_in_body)
     else
       language ← query (λ _, normalizeLanguageCode given);
       force ← query (λ _, get_prop requestBody "forceRegenerate");
       let forceRegenerate := is_true force in
       quiz ← generateCumulativeQuiz eventId language forceRegenerate
                startTime now;
       mret (respond 200
               (GeneratedBody (cq_eventId quiz) (cq_seriesId quiz)
                  (cq_language quiz) (cq_videoCount quiz)
                  (length (cq_questions quiz)) (cq_processingTimeMs quiz)
                  (cq_model quiz) quiz))).

(** [app.get('/api/cumulative-quizzes/eligibility/:eventId', ...)];
    [given] is [req.query.language]. *)
Definition get_eligibility (eventId : string) (given : jsval)
  : World → Response * World :=
  handle "Failed to check cumulative quiz eligibility"
    (if negb (ToBoolean given)
     then mret (respond 400
                  (ErrorBody "Language parameter is required"
                     "Add ?language=<code> to the URL (e.g., ?language=en)"))
     else
       language ← query (λ _, normalizeLanguageCode given);
       result ← query (λ p, checkEligibility p eventId language);
       mret (respond 200 (EligibilityBody eventId language result))).

(** [app.get('/api/cumulative-quizzes/:eventId', ...)] *)
Definition get_quiz (eventId : string) (given : jsval)
  : World → Response * World :=
  handle "Failed to retrieve cumulative quiz"
    (if negb (ToBoolean given)
     then mret (respond 400
                  (ErrorBody "Language is required"
                     "Please specify a language parameter"))
     else
       language ← query (λ _, normalizeLanguageCode given);
       found ← getCachedQuiz eventId language;
       match found with
       | None =>
           mret (respond 404
                   (NotFoundBody "Cumulative quiz not found"
                      "Generate a cumulative quiz first" eventId language))
       | Some quiz =>
           mret {| status := 200; cache_hit := true;
                   body := QuizBody (cq_eventId quiz) (cq_seriesId quiz)
                             (cq_language quiz) (cq_videoCount quiz)
                             (length (cq_questions quiz)) quiz |}
       end).

End Routes.

(** ** Statistics

    [getStats] sends one statement without parameters.  [COUNT] is a
    [BIGINT], which the driver hands over as decimal text; the model keeps
    the count.  [AVG] of integers is a [NUMERIC], the quotient of the sum
    by the count as PostgreSQL rounds and writes it: that is an interface,
    as the numbers of JavaScript are. *)

Class SqlNumeric := {
  numeric : Type;
  (** [avg_of sum count], for a [count] that is not 0 *)
  avg_of : Z → nat → numeric;
}.

Section Statistics.
Context `{JsNumber} `{SqlBigint} `{SqlNumeric}.

Record StatsRow : Type := {
  total_quizzes : nat;
  total_series : nat;
  avg_videos_per_quiz : option numeric;
  avg_questions_per_quiz : option numeric;
}.

(** [AVG(x)]: [NULL] over no row. *)
Definition avg (values : list Z) : option numeric :=
  match values with
  | [] => None
  | _ => Some (avg_of (foldr Z.add 0 values) (length values))
  end.

(** [SELECT COUNT( * ), COUNT(DISTINCT series_id), AVG(video_count),
     AVG(jsonb_array_length(questions)) FROM ai_cumulative_quizzes]:
    one row, whatever the table holds. *)
Definition select_stats (db : Db) : StatsRow :=
  let rows := (map_to_list (ai_cumulative_quizzes db)).*2 in
  {| total_quizzes := length rows;
     total_series := length (remove_dups (row_series_id <$> rows));
     avg_videos_per_quiz :=
       avg ((λ row, Z.of_nat (row_video_count row)) <$> rows);
     avg_questions_per_quiz :=
       avg ((λ row, Z.of_nat (length (row_questions row))) <$> rows) |}.

(** [rejected] is the message the pool rejects the statement with, when it
    does. *)
Definition getStats (p : Pool) (rejected : option string) : result StatsRow :=
  match rejected with
  | Some message => Throw message
  | None => Ok (select_stats (tables p))
  end.

End Statistics.

(** ** Integer-valued numbers

    The doubles that are integers, with [None] for [NaN]: enough to run the
    service on concrete quizzes. *)

Fixpoint digits_value (s : string) (acc : Z) : option Z :=
  match s with
  | EmptyString => Some acc
  | String c rest =>
      let n := Z.of_N (Ascii.N_of_ascii c) in
      if (48 <=? n) && (n <=? 57)
      then digits_value rest (10 * acc + (n - 48))
      else None
  end.

Definition int_of_string (s : string) : option Z :=
  match s with
  | EmptyString => Some 0
  | String "-"%char EmptyString => None
  | String "-"%char rest => Z.opp <$> digits_value rest 0
  | _ => digits_value s 0
  end.

Definition int_numbers : JsNumber := {|
  number := option Z;
  num_of_Z := Some;
  num_NaN := None;
  num_falsy n := match n with Some 0 | None => true | Some _ => false end;
  num_to_string n :=
    match n with
    | Some z => NilZero.string_of_int (Z.to_int z)
    | None => "NaN"
    end;
  num_of_string := int_of_string;
  num_falsy_zero := eq_refl;
|}.

(** ** Keys of 64 bits

    The integers of the range of [BIGINT], written in decimal, and read
    the way the server reads a decimal integer: blanks around it are
    skipped, a sign may come first, and leading zeros do not count.  (The
    prefixes [0x], [0o] and [0b] and the underscores that later versions of
    the server read as well are no part of this instance.) *)

Definition int8_range (z : Z) : Prop :=
  -9223372036854775808 ≤ z ≤ 9223372036854775807.

Definition int64 : Type := dsig int8_range.

Definition int64_zero : int64.
Proof. refine (dexist 0 _). split; discriminate. Defined.

(** The integer [z] as a key; an integer out of range has none, and gets
    the key 0. *)
Definition key (z : Z) : int64 :=
  match decide (int8_range z) with
  | left Hr => dexist z Hr
  | right _ => int64_zero
  end.

(** [isspace] *)
Definition is_blank (c : ascii) : bool :=
  let n := Ascii.N_of_ascii c in
  (n =? 32)%N || ((9 <=? n)%N && (n <=? 13)%N).

Fixpoint skip_blanks (s : string) : string :=
  match s with
  | String c rest => if is_blank c then skip_blanks rest else s
  | EmptyString => EmptyString
  end.

(** A plus sign before the digits is skipped. *)
Definition skip_plus (s : string) : string :=
  match s with
  | String "+"%char rest =>
      match rest with
      | String "-"%char _ => s
      | _ => rest
      end
  | _ => s
  end.

(** The text up to the first blank, and the text from there. *)
Fixpoint until_blank (s : string) : string * string :=
  match s with
  | EmptyString => (EmptyString, EmptyString)
  | String c rest =>
      if is_blank c then (EmptyString, s)
      else let '(word, tail) := until_blank rest in (String c word, tail)
  end.

Definition int64_in (s : string) : Int8Input int64 :=
  let '(word, tail) := until_blank (skip_plus (skip_blanks s)) in
  match NilZero.int_of_string word with
  | Some d =>
      if negb (String.eqb (skip_blanks tail) "") then Int8Syntax
      else match decide (int8_range (Z.of_int d)) with
           | left Hr => Int8 (dexist (Z.of_int d) Hr)
           | right _ => Int8Range
           end
  | None => Int8Syntax
  end.

Definition int64_out (k : int64) : string :=
  NilZero.string_of_int (Z.to_int (`k)).

Fixpoint no_blank (s : string) : bool :=
  match s with
  | EmptyString => true
  | String c rest => negb (is_blank c) && no_blank rest
  end.

Lemma until_blank_none s : no_blank s = true → until_blank s = (s, "").
Proof.
  induction s as [|c s IH]; simpl; [done|].
  intros [Hc Hs]%andb_true_iff. apply negb_true_iff in Hc.
  by rewrite Hc, IH.
Qed.

Lemma uint_no_blank d : no_blank (NilEmpty.string_of_uint d) = true.
Proof. induction d; simpl; done. Qed.

Lemma int_no_blank d : no_blank (NilZero.string_of_int d) = true.
Proof.
  destruct d as [d|d]; simpl.
  - destruct d; try apply (uint_no_blank (_ _)). done.
  - destruct d; try apply (uint_no_blank (_ _)). done.
Qed.

(** The text of an integer begins with a digit or with the minus sign. *)
Lemma int_head d c s :
  NilZero.string_of_int d = String c s → is_blank c = false ∧ c ≠ "+"%char.
Proof.
  destruct d as [d|d]; simpl; [|by intros [= <- _]].
  destruct d; simpl; by intros [= <- _].
Qed.

Lemma to_int_proper z :
  Z.to_int z ≠ Decimal.Pos Decimal.Nil ∧ Z.to_int z ≠ Decimal.Neg Decimal.Nil.
Proof.
  destruct z as [|p|p]; simpl; split; try done; intros [= Hp];
    by apply (Unsigned.to_uint_nonnil p).
Qed.

(** Reading the text of a key gives the key. *)
Lemma int64_in_out k : int64_in (int64_out k) = Int8 k.
Proof.
  unfold int64_in, int64_out.
  pose proof (int_no_blank (Z.to_int (`k))) as Hnb.
  destruct (NilZero.string_of_int (Z.to_int (`k))) as [|c s] eqn:Hs.
  { by destruct (Z.to_int (`k)) as [[]|[]]. }
  destruct (int_head _ _ _ Hs) as [Hc Hplus].
  assert (skip_plus (skip_blanks (String c s)) = String c s) as ->.
  { simpl. rewrite Hc. unfold skip_plus.
    destruct c as [[] [] [] [] [] [] [] []]; try done. }
  rewrite (until_blank_none _ Hnb), <- Hs.
  destruct (to_int_proper (`k)) as [H1 H2].
  rewrite (NilZero.isi _ H1 H2). simpl. rewrite DecimalZ.of_to.
  destruct (decide (int8_range (`k))) as [Hr|Hr].
  - f_equal. by apply dsig_eq.
  - destruct Hr. apply (proj2_dsig k).
Qed.

Definition int64_keys : SqlBigint := {|
  bigint := int64;
  int8out := int64_out;
  int8in := int64_in;
  int8in_out := int64_in_out;
|}.

Module Examples.
#[local] Existing Instance int_numbers.
#[local] Existing Instance int64_keys.

(** A ready video of the series 7. *)
Definition video (id : Z) (order : option OrderText) (created : Z)
  : Event :=
  {| ev_key := key id; ev_series_key := Some (key 7);
     ev_title := "Lecture " +:+ int64_out (key id);
     ev_state := Ready; ev_order := order; ev_created := created |}.

Definition store (events : list Event) (quizzes : list QuizRow) : Pool :=
  {| tables := {| all_events := events;
                  all_series := [ {| series_key := key 7;
                                     series_title := "Algebra" |} ];
                  ai_quizzes := quizzes;
                  ai_cumulative_quizzes := ∅ |};
     fault := λ _, None |}.

Definition world (p : Pool) : World :=
  {| pool := p; cache := ∅; DEFAULT_MODEL := None |}.

(** Order hints 2, 1 and none. *)
Definition hints_2_1_none : list Event :=
  [ video 10 (Some (OrderInt 2)) 5;
    video 11 (Some (OrderInt 1)) 6;
    video 12 None 1 ].

(** A hint above the stand-in for a missing hint. *)
Definition large_hint : list Event :=
  [ video 10 (Some (OrderInt 1000000)) 5; video 12 None 1 ].

Definition mcq (text : string) (answer seconds : Z) : jsval :=
  JObj [ ("question", JStr text); ("type", JStr "multiple_choice");
         ("correct_answer", JNum (Some answer));
         ("timestamp", JNum (Some seconds)) ].

Definition quiz_row (id : Z) (questions : list jsval) : QuizRow :=
  {| quiz_event_key := key id; quiz_language := "en";
     quiz_data := JObj [ ("questions", JArr questions) ] |}.

(** Three lectures: the first without a quiz, the second with two questions,
    the third with three. *)
Definition lectures : list Event :=
  [ video 1 (Some (OrderInt 1)) 10;
    video 2 (Some (OrderInt 2)) 20;
    video 3 (Some (OrderInt 3)) 30 ].

Definition lecture_quizzes : list QuizRow :=
  [ quiz_row 2 [ mcq "2a" 0 0; mcq "2b" 1 120 ];
    quiz_row 3 [ mcq "3a" 2 15; mcq "3b" 0 40; mcq "3c" 1 300 ] ].

(** The row of the ordering query for a lecture. *)
Definition lecture (n : nat) (id : Z) : SeriesEvent :=
  {| se_key := key id; se_title := "Lecture " +:+ int64_out (key id);
     se_position := n |}.

(** The combined question of a question that converts, as a list. *)
Definition combined (ev : SeriesEvent) (q : jsval)
  : list CumulativeQuizQuestion :=
  match combined_question ev q with
  | Ok cq => [cq]
  | Throw _ => []
  end.

(** The row of the anchor query for lecture 3. *)
Definition anchor_3 : AnchorRow :=
  {| anchor_key := key 3; anchor_series_key := key 7;
     anchor_title := "Lecture 3" |}.

(** A quiz stored over the lectures 1 and 3, anchored at lecture 3. *)
Definition stored_1_3 : CumulativeQuiz :=
  {| cq_eventId := "3"; cq_seriesId := "7"; cq_language := "en";
     cq_model := "gpt-4"; cq_questions := [];
     cq_includedEventIds := ["1"; "3"]; cq_videoCount := 2;
     cq_processingTimeMs := 5 |}.

(** The quiz produced for lecture 3, regeneration forced. *)
Definition produced : result CumulativeQuiz * World :=
  generateCumulativeQuiz "3" "en" true 0 5
    (world (store lectures lecture_quizzes)).

Definition produced_quiz : CumulativeQuiz :=
  match produced.1 with
  | Ok quiz => quiz
  | Throw _ => stored_1_3
  end.

(** The quiz produced for lecture 2, regeneration forced. *)
Definition produced_2 : result CumulativeQuiz * World :=
  generateCumulativeQuiz "2" "en" true 0 5
    (world (store lectures lecture_quizzes)).

Definition produced_quiz_2 : CumulativeQuiz :=
  match produced_2.1 with
  | Ok quiz => quiz
  | Throw _ => stored_1_3
  end.

(** The same, asked under another spelling of the key 3. *)
Definition produced_03 : result CumulativeQuiz * World :=
  generateCumulativeQuiz "03" "en" true 0 5
    (world (store lectures lecture_quizzes)).

(** The stored quiz [stored_1_3], saved into an empty store. *)
Definition saved : result unit * World :=
  saveCumulativeQuiz stored_1_3 (world (store lectures lecture_quizzes)).

(** A fourth lecture: with an order text that is no integer, and with the
    order hint 4. *)
Definition lecture_4_malformed : Event :=
  video 4 (Some (OrderOther "last")) 40.
Definition lecture_4 : Event := video 4 (Some (OrderInt 4)) 40.

(** A stand-in for [normalizeLanguageCode]: a text that is not empty is
    accepted as it is. *)
Definition accept_text (v : jsval) : result string :=
  match v with
  | JStr s => if String.eqb s "" then Throw "Language code is required"
              else Ok s
  | _ => Throw "Language code is required"
  end.

(** A request to generate the quiz of lecture 3 in English, regeneration
    forced. *)
Definition posted : Response * World :=
  post_generate accept_text "3"
    (JObj [ ("language", JStr "en"); ("forceRegenerate", JBool true) ]) 0 5
    (world (store lectures lecture_quizzes)).

(** Questions whose answer is [null] under one of the two names. *)
Definition null_camel : jsval :=
  JObj [ ("question", JStr "camel"); ("correctAnswer", JNull) ].
Definition null_snake : jsval :=
  JObj [ ("question", JStr "snake"); ("correct_answer", JNull) ].
Definition no_answer : jsval :=
  JObj [ ("question", JStr "none"); ("type", JStr "true_false") ].

(** A question whose answer is an object with a [toString] of its own. *)
Definition odd_answer : jsval :=
  JObj [ ("question", JStr "odd");
         ("correct_answer", JObj [ ("toString", JNum (Some 1)) ]) ].

End Examples.

(** * Properties *)
(** ** The error monad *)

Lemma bind_Ok {A B} (f : A → result B) (r : result A) (b : B) :
  r ≫= f = Ok b → ∃ a, r = Ok a ∧ f a = Ok b.
Proof. destruct r as [a|m]; simpl; [eauto | discriminate]. Qed.

Lemma mapM_Ok_Forall2 {A B} (f : A → result B) (l : list A) (k : list B) :
  mapM f l = Ok k → Forall2 (λ x y, f x = Ok y) l k.
Proof.
  revert k. induction l as [|x l IH]; intros k; simpl.
  - intros [= <-]. constructor.
  - intros Hb. apply bind_Ok in Hb as (y & Hy & Hb).
    apply bind_Ok in Hb as (k' & Hk' & [= <-]). constructor; auto.
Qed.

Lemma Forall2_mapM_Ok {A B} (f : A → result B) (l : list A) (k : list B) :
  Forall2 (λ x y, f x = Ok y) l k → mapM f l = Ok k.
Proof.
  induction 1 as [|x y l k Hxy _ IH]; simpl; [done|].
  rewrite Hxy. simpl. rewrite IH. done.
Qed.

(** ** Insertion sort *)

Section SortingFacts.
Context {A : Type} (le : A → A → bool).

Lemma insert_by_Permutation (x : A) (l : list A) :
  insert_by le x l ≡ₚ x :: l.
Proof.
  induction l as [|y l IH]; simpl; [done|].
  destruct (le x y); [done|]. rewrite IH. apply perm_swap.
Qed.

Lemma sort_by_Permutation (l : list A) : sort_by le l ≡ₚ l.
Proof.
  induction l as [|x l IH]; simpl; [done|].
  rewrite insert_by_Permutation. by rewrite IH.
Qed.

Lemma sort_by_length (l : list A) : length (sort_by le l) = length l.
Proof. apply Permutation_length, sort_by_Permutation. Qed.

Lemma elem_of_sort_by (x : A) (l : list A) : x ∈ sort_by le l ↔ x ∈ l.
Proof. by rewrite sort_by_Permutation. Qed.

Hypothesis le_total : ∀ x y, le x y = true ∨ le y x = true.

Lemma insert_by_Sorted (x : A) (l : list A) :
  Sorted (λ a b, le a b = true) l →
  Sorted (λ a b, le a b = true) (insert_by le x l).
Proof.
  induction 1 as [|y l Hs IH Hhd]; simpl.
  - repeat constructor.
  - destruct (le x y) eqn:Hxy.
    + constructor; [by constructor | by constructor].
    + constructor; [done|].
      destruct (le_total x y) as [?|Hyx]; [congruence|].
      destruct Hhd as [|z l Hyz]; simpl; [by constructor|].
      destruct (le x z); by constructor.
Qed.

Lemma sort_by_Sorted (l : list A) :
  Sorted (λ a b, le a b = true) (sort_by le l).
Proof.
  induction l as [|x l IH]; simpl; [constructor|].
  by apply insert_by_Sorted.
Qed.

Lemma sort_by_StronglySorted (l : list A) :
  Transitive (λ a b, le a b = true) →
  StronglySorted (λ a b, le a b = true) (sort_by le l).
Proof. intros ?. apply Sorted_StronglySorted; [done | apply sort_by_Sorted]. Qed.

(** Sorting a sorted list changes nothing. *)
Lemma sort_by_sorted_id (l : list A) :
  Sorted (λ a b, le a b = true) l → sort_by le l = l.
Proof.
  induction 1 as [|x l Hs IH Hhd]; simpl; [done|].
  rewrite IH. destruct Hhd as [|y l Hxy]; simpl; [done|]. by rewrite Hxy.
Qed.
End SortingFacts.

Lemma StronglySorted_weaken {A} (R1 R2 : relation A) (l : list A) :
  (∀ a b, R1 a b → R2 a b) → StronglySorted R1 l → StronglySorted R2 l.
Proof.
  intros Himp. induction 1 as [|x l _ IH Hall]; constructor; [done|].
  eapply Forall_impl; [exact Hall | auto].
Qed.

Lemma StronglySorted_lookup_lt {A} (R : relation A) (l : list A) i j a b :
  StronglySorted R l → (i < j)%nat →
  l !! i = Some a → l !! j = Some b → R a b.
Proof.
  intros Hs. revert i j. induction Hs as [|x l _ IH Hall]; intros i j Hij Hi Hj.
  - done.
  - destruct j as [|j]; [lia|]. simpl in Hj. destruct i as [|i]; simpl in Hi.
    + injection Hi as ->. eapply Forall_forall in Hall; [exact Hall|].
      by eapply list_elem_of_lookup_2.
    + eapply (IH i j); [lia | done | done].
Qed.


(** ** Failures in the error monad *)

Lemma bind_Throw {A B} (f : A → result B) (r : result A) message :
  r ≫= f = Throw message →
  r = Throw message ∨ ∃ a, r = Ok a ∧ f a = Throw message.
Proof. destruct r as [a|m]; simpl; [eauto | by intros [= ->]; left]. Qed.

Lemma mapM_Throw {A B} (f : A → result B) (l : list A) message :
  mapM f l = Throw message → ∃ x, x ∈ l ∧ f x = Throw message.
Proof.
  induction l as [|x l IH]; simpl; [done|]. intros Hb.
  apply bind_Throw in Hb as [Hx|(y & _ & Hb)].
  - exists x. split; [apply list_elem_of_here | done].
  - apply bind_Throw in Hb as [Hl|(k & _ & Hk)]; [|done].
    destruct (IH Hl) as (x' & Hin & Hx'). exists x'.
    split; [by apply list_elem_of_further | done].
Qed.

Lemma mapM_is_Ok {A B} (f : A → result B) (l : list A) :
  (∃ k, mapM f l = Ok k) ↔ Forall (λ x, ∃ y, f x = Ok y) l.
Proof.
  split.
  - intros [k Hk]. apply mapM_Ok_Forall2 in Hk.
    induction Hk; constructor; eauto.
  - induction 1 as [|x l [y Hy] _ [k IH]]; simpl; [by eexists|].
    rewrite Hy, IH. simpl. by eexists.
Qed.

Lemma forEach_Throw {A St} (body : A → nat → St → result St) n l s message :
  forEach body n l s = Throw message →
  ∃ x i s', body x i s' = Throw message.
Proof.
  revert n s. induction l as [|x l IH]; intros n s; simpl; [done|].
  intros Hb. apply bind_Throw in Hb as [Hx|(s' & _ & Hb)]; [eauto|].
  by eapply IH.
Qed.
(** ** Keys and their texts *)

Section KeyFacts.
Context `{JsNumber} `{SqlBigint}.

Lemma denotes_out k k' : denotes (int8out k) k' ↔ k' = k.
Proof.
  unfold denotes. rewrite int8in_out. split; [by intros [= ->] | by intros ->].
Qed.

Lemma denotes_functional text k1 k2 :
  denotes text k1 → denotes text k2 → k1 = k2.
Proof. unfold denotes. congruence. Qed.

#[global] Instance int8out_inj : Inj (=) (=) int8out.
Proof.
  intros k1 k2 Heq. symmetry. apply denotes_out. rewrite Heq.
  by apply denotes_out.
Qed.

Lemma bigint_param_Ok text k : bigint_param text = Ok k ↔ denotes text k.
Proof.
  unfold bigint_param, denotes. destruct (int8in text); split; congruence.
Qed.

Lemma bigint_param_out k : bigint_param (int8out k) = Ok k.
Proof. by apply bigint_param_Ok, denotes_out. Qed.

Lemma bigint_param_denoted text k :
  denotes text k → bigint_param text = Ok k.
Proof. apply bigint_param_Ok. Qed.

(** A text that denotes no key is rejected. *)
Lemma bigint_param_Throw text :
  (∀ k, ¬ denotes text k) ↔ ∃ message, bigint_param text = Throw message.
Proof.
  unfold bigint_param, denotes. destruct (int8in text) as [k| |].
  - split; [intros Hno; by destruct (Hno k) | by intros [? ?]].
  - split; [eauto | done].
  - split; [eauto | done].
Qed.

Lemma series_member_denotes seriesId e :
  series_member seriesId e
  ↔ ∃ s, denotes seriesId s ∧ ev_series_key e = Some s ∧ ev_state e = Ready.
Proof.
  unfold series_member. destruct (ev_series_key e) as [s|]; split.
  - intros [? ?]. eauto.
  - by intros (s' & ? & [= <-] & ?).
  - by intros [[] _].
  - by intros (s' & _ & ? & _).
Qed.

Lemma series_member_out s e :
  series_member (int8out s) e ↔ ev_series_key e = Some s ∧ ev_state e = Ready.
Proof.
  rewrite series_member_denotes. split.
  - intros (s' & ->%denotes_out & ? & ?). done.
  - intros [? ?]. exists s. by rewrite denotes_out.
Qed.

(** Two texts of one key name the same series. *)
Lemma series_member_same seriesId1 seriesId2 s :
  denotes seriesId1 s → denotes seriesId2 s →
  ∀ e, series_member seriesId1 e ↔ series_member seriesId2 e.
Proof.
  intros H1 H2 e. rewrite !series_member_denotes.
  split; intros (s' & Hs' & ? & ?); exists s; split_and!; try done.
  - by rewrite <- (denotes_functional _ _ _ Hs' H1).
  - by rewrite <- (denotes_functional _ _ _ Hs' H2).
Qed.

End KeyFacts.

(** ** Series Position Resolver *)

Section ResolverFacts.
Context `{JsNumber} `{SqlBigint}.

Lemma sort_key_leb_le a b : sort_key_leb a b = true ↔ sort_key_le a b.
Proof. unfold sort_key_leb, sort_key_le. lia. Qed.

Lemma sort_key_leb_total a b :
  sort_key_leb a b = true ∨ sort_key_leb b a = true.
Proof. rewrite !sort_key_leb_le. unfold sort_key_le. lia. Qed.

Lemma sort_key_leb_trans : Transitive (λ a b, sort_key_leb a b = true).
Proof.
  intros a b c. rewrite !sort_key_leb_le. unfold sort_key_le. lia.
Qed.

Lemma keyed_Ok e r : keyed e = Ok r ↔ order_key e = Ok r.1 ∧ r.2 = e.
Proof.
  unfold keyed. destruct r as [k e']. simpl.
  destruct (order_key e) as [k'|m]; simpl; split.
  - by intros [= -> ->].
  - by intros [[= ->] ->].
  - done.
  - by intros [? _].
Qed.

(** What [ORDER BY <order key>, created] delivers: every ready member of
    the series once, each with its order key, in ascending order. *)
Lemma ordered_rows_spec db seriesId rows :
  ordered_rows db seriesId = Ok rows →
  rows.*2 ≡ₚ filter (series_member seriesId) (all_events db)
  ∧ Forall (λ r, order_key r.2 = Ok r.1) rows
  ∧ StronglySorted sort_key_le rows.
Proof.
  unfold ordered_rows. intros Hb.
  apply bind_Ok in Hb as (ks & Hks & [= <-]).
  apply mapM_Ok_Forall2 in Hks.
  assert (Hall : Forall (λ r, order_key r.2 = Ok r.1) ks).
  { clear -Hks. induction Hks as [|e r ? ? Hr]; constructor; [|done].
    by apply (keyed_Ok e r) in Hr as [? <-]. }
  assert (Hsnd : ks.*2 = filter (series_member seriesId) (all_events db)).
  { clear -Hks. induction Hks as [|e r ? ? Hr ? IH]; simpl; [done|].
    apply (keyed_Ok e r) in Hr as [_ ->]. f_equal. exact IH. }
  split_and!.
  - rewrite <- Hsnd. apply fmap_Permutation, sort_by_Permutation.
  - eapply Forall_forall. intros r Hr.
    apply elem_of_sort_by in Hr. by eapply Forall_forall in Hall.
  - eapply StronglySorted_weaken;
      [| apply sort_by_StronglySorted;
         [apply sort_key_leb_total | apply sort_key_leb_trans]].
    intros a b. apply sort_key_leb_le.
Qed.

Lemma ordered_events_rows db seriesId :
  ordered_events db seriesId = imap numbered <$> ordered_rows db seriesId.
Proof. unfold ordered_events. by destruct (ordered_rows db seriesId). Qed.

(** The ordering reads the series through its key: two texts of one key
    give the same order. *)
Lemma ordered_events_same db seriesId1 seriesId2 s :
  denotes seriesId1 s → denotes seriesId2 s →
  ordered_events db seriesId1 = ordered_events db seriesId2.
Proof.
  intros H1 H2. unfold ordered_events, ordered_rows.
  assert (filter (series_member seriesId1) (all_events db)
          = filter (series_member seriesId2) (all_events db)) as ->; [|done].
  apply list_filter_iff. by apply (series_member_same _ _ s).
Qed.

(** [ROW_NUMBER()]: the row at index [i] is numbered [i + 1]. *)
Lemma ordered_events_position db seriesId evs i e :
  ordered_events db seriesId = Ok evs →
  evs !! i = Some e → se_position e = S i.
Proof.
  rewrite ordered_events_rows.
  destruct (ordered_rows db seriesId) as [rows|]; simpl; [|done].
  intros [= <-]. rewrite list_lookup_imap.
  destruct (rows !! i); simpl; [|done]. by intros [= <-].
Qed.

Lemma getSeriesEventsUpTo_unfold p seriesId upToEventId :
  getSeriesEventsUpTo p seriesId upToEventId =
  match fault p (SelectSeriesEventsUpTo seriesId upToEventId) with
  | Some message => Throw message
  | None =>
      _ ← bigint_param seriesId;
      _ ← bigint_param upToEventId;
      (λ ordered, sort_by position_leb (up_to upToEventId ordered))
        <$> ordered_events (tables p) seriesId
  end.
Proof.
  unfold getSeriesEventsUpTo, pool_query.
  destruct (fault p _); [done|].
  destruct (bigint_param seriesId); simpl; [|done].
  destruct (bigint_param upToEventId); simpl; [|done].
  by destruct (ordered_events (tables p) seriesId).
Qed.

(** The resolver for parameters that are keys. *)
Lemma getSeriesEventsUpTo_keys p seriesId upToEventId s a :
  denotes seriesId s → denotes upToEventId a →
  getSeriesEventsUpTo p seriesId upToEventId =
  match fault p (SelectSeriesEventsUpTo seriesId upToEventId) with
  | Some message => Throw message
  | None =>
      (λ ordered, sort_by position_leb (up_to upToEventId ordered))
        <$> ordered_events (tables p) seriesId
  end.
Proof.
  intros Hs Ha. rewrite getSeriesEventsUpTo_unfold.
  by rewrite (bigint_param_denoted _ _ Hs), (bigint_param_denoted _ _ Ha).
Qed.

Lemma getSeriesEventsUpTo_Ok p seriesId upToEventId out :
  getSeriesEventsUpTo p seriesId upToEventId = Ok out →
  fault p (SelectSeriesEventsUpTo seriesId upToEventId) = None
  ∧ (∃ s, denotes seriesId s) ∧ (∃ a, denotes upToEventId a)
  ∧ ∃ ordered, ordered_events (tables p) seriesId = Ok ordered
               ∧ out = sort_by position_leb (up_to upToEventId ordered).
Proof.
  rewrite getSeriesEventsUpTo_unfold.
  destruct (fault p _); [done|].
  destruct (bigint_param seriesId) as [s|] eqn:Hs; simpl; [|done].
  destruct (bigint_param upToEventId) as [a|] eqn:Ha; simpl; [|done].
  apply bigint_param_Ok in Hs, Ha.
  destruct (ordered_events (tables p) seriesId) as [ordered|]; [|done].
  intros [= <-]. eauto 10.
Qed.

Lemma elem_of_up_to upToEventId ordered e :
  e ∈ up_to upToEventId ordered ↔
  e ∈ ordered ∧ ∃ t, t ∈ ordered ∧ denotes upToEventId (se_key t)
                     ∧ (se_position e ≤ se_position t)%nat.
Proof.
  unfold up_to. rewrite list_elem_of_bind. split.
  - intros (e' & He & He'). apply list_elem_of_bind in He as (t & He & Ht).
    apply list_elem_of_filter in Ht as [Hid Ht].
    destruct (Nat.leb_spec (se_position e') (se_position t)) as [Hle|];
      [|by apply elem_of_nil in He].
    apply list_elem_of_singleton in He as ->. eauto.
  - intros (He & t & Ht & Hid & Hle). exists e. split; [|done].
    apply list_elem_of_bind. exists t. split.
    + apply Nat.leb_le in Hle. rewrite Hle. by apply list_elem_of_singleton.
    + by apply list_elem_of_filter.
Qed.

(** No row has the key of the anchor: the join is empty. *)
Lemma up_to_absent upToEventId ordered :
  (∀ t, t ∈ ordered → ¬ denotes upToEventId (se_key t)) →
  up_to upToEventId ordered = [].
Proof.
  intros Hnot. unfold up_to.
  apply elem_of_nil_inv. intros e He.
  apply elem_of_up_to in He as (_ & t & Ht & Hid & _).
  by apply (Hnot t).
Qed.

Lemma numbered_from_cons n e l :
  numbered_from n (e :: l) → se_position e = S n ∧ numbered_from (S n) l.
Proof.
  intros Hn. split.
  - rewrite (Hn 0%nat e); [lia | done].
  - intros j e' Hj. rewrite (Hn (S j) e'); [lia | done].
Qed.

Lemma bind_position_take n k l :
  numbered_from n l →
  (e ← l; if Nat.leb (se_position e) k then [e] else []) = take (k - n) l.
Proof.
  revert n. induction l as [|e l IH]; intros n Hn.
  - by rewrite take_nil.
  - apply numbered_from_cons in Hn as [He Hn].
    rewrite bind_cons, (IH _ Hn), He.
    destruct (Nat.leb_spec (S n) k) as [Hle|Hgt].
    + replace (k - n)%nat with (S (k - S n)) by lia. done.
    + replace (k - n)%nat with 0%nat by lia.
      replace (k - S n)%nat with 0%nat by lia. done.
Qed.

Lemma numbered_from_Sorted n l :
  numbered_from n l → Sorted (λ a b, position_leb a b = true) l.
Proof.
  revert n. induction l as [|e l IH]; intros n Hn; [constructor|].
  apply numbered_from_cons in Hn as [He Hn]. constructor; [by eapply IH|].
  destruct l as [|e' l]; constructor.
  apply numbered_from_cons in Hn as [He' _].
  unfold position_leb. apply Nat.leb_le. lia.
Qed.

Lemma numbered_from_take n k l :
  numbered_from n l → numbered_from n (take k l).
Proof.
  intros Hn j e Hj. apply Hn.
  apply lookup_take_Some in Hj as [? _]. done.
Qed.

Lemma filter_unique_key upToEventId (l : list SeriesEvent) i t :
  NoDup (se_key <$> l) → l !! i = Some t → denotes upToEventId (se_key t) →
  filter (λ x, denotes upToEventId (se_key x)) l = [t].
Proof.
  intros Hnd Hi Ht. revert i Hnd Hi.
  induction l as [|e l IH]; intros i Hnd Hi; [done|].
  rewrite fmap_cons in Hnd. apply NoDup_cons in Hnd as [Hnotin Hnd].
  destruct i as [|i]; simpl in Hi.
  - injection Hi as ->. rewrite filter_cons_True by done. f_equal.
    apply elem_of_nil_inv. intros x Hx.
    apply list_elem_of_filter in Hx as [Hid Hx].
    apply Hnotin. rewrite (denotes_functional _ _ _ Ht Hid).
    by apply list_elem_of_fmap_2.
  - rewrite filter_cons_False; [by eapply IH|].
    intros Hid. apply Hnotin. rewrite (denotes_functional _ _ _ Hid Ht).
    apply list_elem_of_fmap_2. by eapply list_elem_of_lookup_2.
Qed.

(** With unique keys the resolver returns the prefix of the series that
    ends at, and includes, the anchor. *)
Lemma up_to_prefix upToEventId ordered i t :
  numbered_from 0 ordered → NoDup (se_key <$> ordered) →
  ordered !! i = Some t → denotes upToEventId (se_key t) →
  sort_by position_leb (up_to upToEventId ordered) = take (S i) ordered.
Proof.
  intros Hn Hnd Hi Ht. unfold up_to.
  rewrite (filter_unique_key _ _ i t Hnd Hi Ht).
  assert (Hpos : se_position t = S i) by (by rewrite (Hn i t Hi)).
  erewrite list_bind_ext;
    [| intros e; rewrite bind_singleton; reflexivity | reflexivity].
  rewrite (bind_position_take 0 (se_position t) ordered Hn), Hpos.
  replace (S i - 0)%nat with (S i) by lia.
  apply sort_by_sorted_id.
  eapply numbered_from_Sorted, numbered_from_take, Hn.
Qed.

Lemma ordered_events_numbered db seriesId ordered :
  ordered_events db seriesId = Ok ordered → numbered_from 0 ordered.
Proof. intros Ho j e Hj. by eapply ordered_events_position. Qed.

Lemma ordered_events_keys db seriesId ordered :
  ordered_events db seriesId = Ok ordered →
  se_key <$> ordered ≡ₚ
  ev_key <$> filter (series_member seriesId) (all_events db).
Proof.
  rewrite ordered_events_rows.
  destruct (ordered_rows db seriesId) as [rows|] eqn:Hrows; [|done].
  intros [= <-]. apply ordered_rows_spec in Hrows as (Hperm & _ & _).
  rewrite <- Hperm.
  assert (se_key <$> imap numbered rows = ev_key <$> rows.*2) as ->; [|done].
  apply list_eq. intros j.
  rewrite !list_lookup_fmap, list_lookup_imap.
  by destruct (rows !! j).
Qed.

Lemma ordered_events_ids db seriesId ordered :
  ordered_events db seriesId = Ok ordered →
  se_id <$> ordered ≡ₚ
  ev_id <$> filter (series_member seriesId) (all_events db).
Proof.
  intros Ho. apply ordered_events_keys in Ho.
  change se_id with (int8out ∘ se_key). change ev_id with (int8out ∘ ev_key).
  by rewrite !list_fmap_compose, Ho.
Qed.

Lemma NoDup_ids_keys (events : list Event) :
  NoDup (ev_id <$> events) ↔ NoDup (ev_key <$> events).
Proof.
  change ev_id with (int8out ∘ ev_key). rewrite list_fmap_compose. split.
  - apply NoDup_fmap_1.
  - apply NoDup_fmap_2, _.
Qed.

Lemma ordered_events_NoDup_keys db seriesId ordered :
  NoDup (ev_id <$> all_events db) →
  ordered_events db seriesId = Ok ordered → NoDup (se_key <$> ordered).
Proof.
  intros Hnd Ho. rewrite (ordered_events_keys _ _ _ Ho).
  apply NoDup_ids_keys in Hnd.
  apply (sublist_NoDup _ (ev_key <$> all_events db)); [exact Hnd|].
  apply fmap_sublist, sublist_filter.
Qed.

Lemma ordered_events_NoDup db seriesId ordered :
  NoDup (ev_id <$> all_events db) →
  ordered_events db seriesId = Ok ordered → NoDup (se_id <$> ordered).
Proof.
  intros Hnd Ho. change se_id with (int8out ∘ se_key).
  rewrite list_fmap_compose. apply NoDup_fmap_2; [apply _|].
  by eapply ordered_events_NoDup_keys.
Qed.

Lemma order_key_hint r : order_key r.2 = Ok r.1 → key_of_hint r.
Proof.
  unfold order_key, key_of_hint, cast_int.
  destruct (ev_order r.2) as [[z|t]|]; [|done|congruence].
  case_bool_decide; congruence.
Qed.

(** C1 (amended). For every snapshot of a series the resolver numbers the
    ready videos in ascending order of their order hint, where a video
    without a hint is ordered as if its hint were 999999 (so it comes after
    every video whose hint is below 999999), and among equal hints in
    ascending order of creation; three videos with hints 2, 1 and none
    come out as hint 1, hint 2, hint-less. *)
Theorem resolver_ordering (db : Db) (seriesId : string) :
  (∀ rows, ordered_rows db seriesId = Ok rows →
     rows.*2 ≡ₚ filter (series_member seriesId) (all_events db)
     ∧ Forall key_of_hint rows
     ∧ StronglySorted sort_key_le rows
     ∧ ordered_events db seriesId = Ok (imap numbered rows)
     ∧ ∀ i j a b z,
         rows !! i = Some a → rows !! j = Some b →
         ev_order a.2 = None → ev_order b.2 = Some (OrderInt z) →
         z < 999999 → (j < i)%nat)
  ∧ (∀ a b c,
       filter (series_member seriesId) (all_events db) = [a; b; c] →
       ev_order a = Some (OrderInt 2) → ev_order b = Some (OrderInt 1) →
       ev_order c = None →
       ordered_events db seriesId =
         Ok [numbered 0 (1, b); numbered 1 (2, a); numbered 2 (999999, c)]).
Proof.
  split.
  - intros rows Hrows.
    destruct (ordered_rows_spec _ _ _ Hrows) as (Hperm & Hkeys & Hsorted).
    assert (Hhints : Forall key_of_hint rows).
    { eapply Forall_impl; [exact Hkeys|]. intros r. apply order_key_hint. }
    split_and!; [done | done | done | |].
    + by rewrite ordered_events_rows, Hrows.
    + intros i j a b z Hi Hj Ha Hb Hz.
      assert (Hka : key_of_hint a).
      { eapply Forall_forall in Hhints; [exact Hhints|].
        by eapply list_elem_of_lookup_2. }
      assert (Hkb : key_of_hint b).
      { eapply Forall_forall in Hhints; [exact Hhints|].
        by eapply list_elem_of_lookup_2. }
      unfold key_of_hint in Hka, Hkb. rewrite Ha in Hka. rewrite Hb in Hkb.
      destruct (Nat.lt_trichotomy i j) as [Hlt|[->|Hgt]]; [| |done].
      * pose proof (StronglySorted_lookup_lt _ _ _ _ _ _ Hsorted Hlt Hi Hj)
          as Hle.
        unfold sort_key_le in Hle. lia.
      * rewrite Hi in Hj. injection Hj as <-. congruence.
  - intros a b c Hmembers Ha Hb Hc.
    unfold ordered_events, ordered_rows. rewrite Hmembers. simpl.
    unfold keyed, order_key. rewrite Ha, Hb, Hc. reflexivity.
Qed.
End ResolverFacts.

(** ** Sorted lists of ids *)

Lemma string_compare_trans (s1 s2 s3 : string) :
  String.compare s1 s2 ≠ Gt → String.compare s2 s3 ≠ Gt →
  String.compare s1 s3 ≠ Gt.
Proof.
  revert s2 s3.
  induction s1 as [|c1 s1 IH]; intros [|c2 s2] [|c3 s3]; simpl; try done.
  unfold Ascii.compare.
  destruct (N.compare_spec (N_of_ascii c1) (N_of_ascii c2));
    destruct (N.compare_spec (N_of_ascii c2) (N_of_ascii c3));
    destruct (N.compare_spec (N_of_ascii c1) (N_of_ascii c3));
    try done; try lia.
  apply IH.
Qed.

Lemma string_leb_trans : Transitive (λ a b, String.leb a b = true).
Proof.
  intros s1 s2 s3. unfold String.leb.
  pose proof (string_compare_trans s1 s2 s3) as Htrans.
  destruct (String.compare s1 s2), (String.compare s2 s3),
    (String.compare s1 s3); try done; intros _ _; by exfalso; apply Htrans.
Qed.

Lemma string_leb_antisymm : AntiSymm (=) (λ a b, String.leb a b = true).
Proof. intros s1 s2. apply String.leb_antisym. Qed.

(** A list has one sorted list. *)
Lemma sorted_list_of_unique ids sorted1 sorted2 :
  sorted_list_of ids sorted1 → sorted_list_of ids sorted2 →
  sorted1 = sorted2.
Proof.
  intros [Hp1 Hs1] [Hp2 Hs2].
  apply (@Sorted_unique _ _ string_leb_trans string_leb_antisymm);
    [done | done |]. by rewrite Hp1, Hp2.
Qed.

(** [sort()] returns the sorted list of its input. *)
Lemma js_sort_sorted_list ids : sorted_list_of ids (js_sort ids).
Proof.
  split.
  - apply sort_by_Permutation.
  - apply sort_by_Sorted, String.leb_total.
Qed.

(** [sort()] forgets the order its input came in, and nothing else. *)
Lemma js_sort_Permutation ids1 ids2 :
  js_sort ids1 = js_sort ids2 ↔ ids1 ≡ₚ ids2.
Proof.
  split.
  - intros Heq.
    destruct (js_sort_sorted_list ids1) as [Hp1 _].
    destruct (js_sort_sorted_list ids2) as [Hp2 _].
    by rewrite <- Hp1, Heq.
  - intros Hperm. apply (sorted_list_of_unique ids2).
    + destruct (js_sort_sorted_list ids1) as [Hp Hs]. split; [|done].
      by rewrite Hp.
    + apply js_sort_sorted_list.
Qed.

(** ** Cache Consistency Guard *)

Section GuardFacts.
Context `{JsNumber} `{SqlBigint}.

Lemma isCacheValid_unfold p quiz :
  isCacheValid p quiz =
  match getSeriesEventsUpTo p (cq_seriesId quiz) (cq_eventId quiz) with
  | Ok currentEvents =>
      Ok (bool_decide (js_sort (se_id <$> currentEvents)
                       = js_sort (cq_includedEventIds quiz)))
  | Throw _ => Ok false
  end.
Proof.
  unfold isCacheValid, try_catch.
  by destruct (getSeriesEventsUpTo p (cq_seriesId quiz) (cq_eventId quiz)).
Qed.

Lemma js_sort_nil_inv ids : js_sort ids = [] → ids = [].
Proof.
  intros Hs. apply length_zero_iff_nil.
  unfold js_sort in Hs. by rewrite <- (sort_by_length String.leb), Hs.
Qed.

(** A ready member whose sort key is strictly below the anchor's is numbered
    before the anchor. *)
Lemma member_before_anchor db seriesId rows c anchor kc ka :
  ordered_rows db seriesId = Ok rows →
  c ∈ all_events db → series_member seriesId c →
  anchor ∈ all_events db → series_member seriesId anchor →
  order_key c = Ok kc → order_key anchor = Ok ka →
  kc < ka ∨ (kc = ka ∧ ev_created c < ev_created anchor) →
  ∃ i j, (i < j)%nat ∧ rows !! i = Some (kc, c) ∧ rows !! j = Some (ka, anchor).
Proof.
  intros Hrows Hc Hcm Ha Ham Hkc Hka Hlt.
  destruct (ordered_rows_spec _ _ _ Hrows) as (Hperm & Hkeys & Hsorted).
  assert (Hin : ∀ e k, e ∈ all_events db → series_member seriesId e →
                       order_key e = Ok k → (k, e) ∈ rows).
  { intros e k He Hm Hk.
    assert (He' : e ∈ rows.*2).
    { rewrite Hperm. by apply list_elem_of_filter. }
    apply list_elem_of_fmap in He' as ([k' e'] & -> & Hr).
    eapply Forall_forall in Hkeys; [|exact Hr]. simpl in *.
    rewrite Hk in Hkeys. by injection Hkeys as ->. }
  apply (Hin _ _ Hc Hcm) in Hkc. apply (Hin _ _ Ha Ham) in Hka.
  apply list_elem_of_lookup in Hkc as [i Hi].
  apply list_elem_of_lookup in Hka as [j Hj].
  exists i, j. split; [|done].
  destruct (Nat.lt_trichotomy i j) as [?|[->|Hgt]]; [done| |].
  - rewrite Hi in Hj. injection Hj as -> ->. lia.
  - pose proof (StronglySorted_lookup_lt _ _ _ _ _ _ Hsorted Hgt Hj Hi) as Hle.
    unfold sort_key_le in Hle. simpl in Hle. lia.
Qed.

Lemma member_before_anchor_resolved p seriesId upToEventId out c anchor kc ka :
  getSeriesEventsUpTo p seriesId upToEventId = Ok out →
  denotes upToEventId (ev_key anchor) →
  c ∈ all_events (tables p) → series_member seriesId c →
  anchor ∈ all_events (tables p) → series_member seriesId anchor →
  order_key c = Ok kc → order_key anchor = Ok ka →
  kc < ka ∨ (kc = ka ∧ ev_created c < ev_created anchor) →
  ev_id c ∈ se_id <$> out.
Proof.
  intros Hout Hanchor Hc Hcm Ha Ham Hkc Hka Hlt.
  apply getSeriesEventsUpTo_Ok in Hout as (_ & _ & _ & ordered & Hordered & ->).
  rewrite ordered_events_rows in Hordered.
  destruct (ordered_rows (tables p) seriesId) as [rows|] eqn:Hrows; [|done].
  injection Hordered as <-.
  destruct (member_before_anchor _ _ _ _ _ _ _ Hrows Hc Hcm Ha Ham Hkc Hka Hlt)
    as (i & j & Hij & Hi & Hj).
  apply (list_elem_of_fmap_2' se_id _ (numbered i (kc, c))); [|done].
  apply elem_of_sort_by, elem_of_up_to. split.
  - apply list_elem_of_lookup. exists i. by rewrite list_lookup_imap, Hi.
  - exists (numbered j (ka, anchor)). split_and!.
    + apply list_elem_of_lookup. exists j. by rewrite list_lookup_imap, Hj.
    + done.
    + simpl. lia.
Qed.

(** C2. The guard never throws; it answers true exactly when re-running the
    resolver for the stored series and anchor succeeds and the sorted list
    of the fresh ids (the same ids in ascending order) equals the sorted
    list of the stored ids, and false on any error of the recomputation.
    Hence a new ready video of the series that is ordered strictly before
    the anchor, and is not among the stored members, makes the guard answer
    false. *)
Theorem isCacheValid_spec p quiz :
  (∃ b, isCacheValid p quiz = Ok b
        ∧ (b = true ↔
           ∃ currentEvents fresh stored,
             getSeriesEventsUpTo p (cq_seriesId quiz) (cq_eventId quiz)
               = Ok currentEvents
             ∧ sorted_list_of (se_id <$> currentEvents) fresh
             ∧ sorted_list_of (cq_includedEventIds quiz) stored
             ∧ fresh = stored)
        ∧ (∀ message,
             getSeriesEventsUpTo p (cq_seriesId quiz) (cq_eventId quiz)
               = Throw message → b = false))
  ∧ (∀ c anchor kc ka,
       c ∈ all_events (tables p) → series_member (cq_seriesId quiz) c →
       anchor ∈ all_events (tables p) →
       series_member (cq_seriesId quiz) anchor →
       denotes (cq_eventId quiz) (ev_key anchor) →
       order_key c = Ok kc → order_key anchor = Ok ka →
       kc < ka ∨ (kc = ka ∧ ev_created c < ev_created anchor) →
       ev_id c ∉ cq_includedEventIds quiz →
       isCacheValid p quiz = Ok false).
Proof.
  split.
  - rewrite isCacheValid_unfold.
    destruct (getSeriesEventsUpTo p (cq_seriesId quiz) (cq_eventId quiz))
      as [currentEvents|message].
    + eexists. split; [done|]. split; [|done]. split.
      * intros Hb. apply bool_decide_eq_true in Hb.
        exists currentEvents, (js_sort (se_id <$> currentEvents)),
          (js_sort (cq_includedEventIds quiz)).
        split_and!; [done | apply js_sort_sorted_list
                     | apply js_sort_sorted_list | done].
      * intros (evs & fresh & stored & [= <-] & Hfresh & Hstored & Heq).
        apply bool_decide_eq_true.
        rewrite (sorted_list_of_unique _ _ _ (js_sort_sorted_list _) Hfresh).
        rewrite (sorted_list_of_unique _ _ _ (js_sort_sorted_list _) Hstored).
        done.
    + exists false. split; [done|]. split; [|done]. split; [done|].
      by intros (? & ? & ? & ? & _).
  - intros c anchor kc ka Hc Hcm Ha Ham Hid Hkc Hka Hlt Hnew.
    rewrite isCacheValid_unfold.
    destruct (getSeriesEventsUpTo p (cq_seriesId quiz) (cq_eventId quiz))
      as [currentEvents|message] eqn:Hout; [|done].
    f_equal. apply bool_decide_eq_false. intros Heq. apply Hnew.
    pose proof (member_before_anchor_resolved _ _ _ _ _ _ _ _
                  Hout Hid Hc Hcm Ha Ham Hkc Hka Hlt) as Hin.
    apply js_sort_Permutation in Heq. by rewrite <- Heq.
Qed.

(** C9. Two runs of the guard over stores with the same events (and the same
    availability of the resolver's statement), on stored quizzes with the
    same series, anchor and member list, give the same answer, whatever the
    per-video quizzes, the series table, the stored questions and the other
    fields hold. *)
Theorem isCacheValid_ignores_quiz_content p1 p2 quiz1 quiz2 :
  all_events (tables p1) = all_events (tables p2) →
  fault p1 (SelectSeriesEventsUpTo (cq_seriesId quiz1) (cq_eventId quiz1))
  = fault p2 (SelectSeriesEventsUpTo (cq_seriesId quiz1) (cq_eventId quiz1)) →
  cq_seriesId quiz1 = cq_seriesId quiz2 →
  cq_eventId quiz1 = cq_eventId quiz2 →
  cq_includedEventIds quiz1 = cq_includedEventIds quiz2 →
  isCacheValid p1 quiz1 = isCacheValid p2 quiz2.
Proof.
  intros Hev Hfault Hs He Hi.
  rewrite !isCacheValid_unfold, <- Hs, <- He, <- Hi.
  rewrite !getSeriesEventsUpTo_unfold, <- Hfault.
  unfold ordered_events, ordered_rows. by rewrite Hev.
Qed.

End GuardFacts.

(** ** Conversions of JavaScript values *)

Section ConversionFacts.
Context `{JsNumber} `{SqlBigint}.

(** Induction over a value and over the elements of its arrays. *)
Lemma jsval_elements_ind (P : jsval → Prop) :
  P JUndefined → P JNull → (∀ b, P (JBool b)) → (∀ n, P (JNum n)) →
  (∀ s, P (JStr s)) →
  (∀ items, Forall P items → P (JArr items)) →
  (∀ fields, P (JObj fields)) →
  ∀ v, P v.
Proof.
  intros Hu Hn Hb Hnum Hs Harr Hobj. fix IH 1.
  intros [| |b|n|s|items|fields]; [done | done | apply Hb | apply Hnum
                                   | apply Hs | | apply Hobj].
  apply Harr. induction items as [|x items IHitems]; constructor;
    [apply IH | exact IHitems].
Qed.

(** The element of an array as [join] prints it. *)
Definition element_text (x : jsval) : result string :=
  match x with
  | JUndefined | JNull => Ok ""
  | _ => ToString x
  end.

Lemma ToString_array items :
  ToString (JArr items) = join_with "," <$> mapM element_text items.
Proof. reflexivity. Qed.

Lemma element_text_plain x :
  ((∃ s, ToString x = Ok s) ↔ plain x = true) →
  ((∃ s, element_text x = Ok s) ↔ plain x = true).
Proof. destruct x; simpl; try done; intros _; split; eauto. Qed.

(** [String(v)] returns exactly for the values that convert. *)
Lemma ToString_is_Ok v : (∃ s, ToString v = Ok s) ↔ plain v = true.
Proof.
  induction v as [| |b|n|s|items IH|fields] using jsval_elements_ind;
    try (simpl; split; by eauto).
  - destruct b; simpl; split; by eauto.
  - rewrite ToString_array. simpl plain.
    induction IH as [|x items Hx _ IHitems]; simpl; [split; by eauto|].
    apply element_text_plain in Hx.
    rewrite andb_true_iff, <- Hx, <- IHitems.
    destruct (element_text x) as [s|m]; simpl.
    + destruct (mapM element_text items) as [k|m]; simpl.
      * split; by eauto.
      * split; [by intros [? ?] | by intros [_ [? ?]]].
    + split; [by intros [? ?] | by intros [[? ?] _]].
  - simpl. destruct (assoc "toString" fields).
    + split; [by intros [? ?] | done].
    + split; by eauto.
Qed.

(** When it throws, it throws the [TypeError] of the conversion. *)
Lemma ToString_Throw v message :
  ToString v = Throw message → message = not_primitive.
Proof.
  revert message.
  induction v as [| |b|n|s|items IH|fields] using jsval_elements_ind;
    intros message; try done.
  - by destruct b.
  - rewrite ToString_array.
    induction IH as [|x items Hx _ IHitems]; simpl; [done|].
    destruct (element_text x) as [s|m] eqn:Hs; simpl.
    + destruct (mapM element_text items) as [k|m]; simpl; [done|].
      intros [= <-]. by apply IHitems.
    + intros [= <-]. apply Hx. by destruct x.
  - simpl. destruct (assoc "toString" fields); [by intros [= <-] | done].
Qed.

Lemma ToNumber_is_Ok v : (∃ n, ToNumber v = Ok n) ↔ plain v = true.
Proof.
  destruct v as [| |b|n|s|items|fields];
    try (simpl; split; by eauto).
  - destruct b; simpl; split; by eauto.
  - rewrite <- ToString_is_Ok. unfold ToNumber.
    destruct (ToString (JArr items)); simpl; split; intros [? ?]; by eauto.
  - rewrite <- ToString_is_Ok. unfold ToNumber.
    destruct (ToString (JObj fields)); simpl; split; intros [? ?]; by eauto.
Qed.

Lemma ToNumber_Throw v message :
  ToNumber v = Throw message → message = not_primitive.
Proof.
  destruct v as [| |b|n|s|items|fields]; try done.
  - by destruct b.
  - unfold ToNumber. destruct (ToString (JArr items)) eqn:Hs; [done|].
    intros [= <-]. by eapply ToString_Throw.
  - unfold ToNumber. destruct (ToString (JObj fields)) eqn:Hs; [done|].
    intros [= <-]. by eapply ToString_Throw.
Qed.

(** The timestamp of a video context: [q.timestamp ? Number(q.timestamp)
    : undefined]. *)
Definition stamp_of (ts : jsval) : result (option number) :=
  if ToBoolean ts then Some <$> ToNumber ts else Ok None.

Lemma stamp_of_is_Ok ts :
  (∃ stamp, stamp_of ts = Ok stamp)
  ↔ (ToBoolean ts = true → plain ts = true).
Proof.
  unfold stamp_of. destruct (ToBoolean ts).
  - rewrite <- ToNumber_is_Ok. destruct (ToNumber ts); simpl; split.
    + by eauto.
    + by eauto.
    + by intros [? ?].
    + intros Hn. by destruct (Hn eq_refl).
  - split; by eauto.
Qed.

Lemma combined_question_is_Ok ev q :
  (∃ cq, combined_question ev q = Ok cq) ↔ convertible q.
Proof.
  unfold combined_question, convertible.
  rewrite <- ToString_is_Ok, <- stamp_of_is_Ok. unfold stamp_of.
  destruct (ToString (answer_of q)) as [answer|m]; simpl.
  - destruct (if ToBoolean (field q "timestamp") then _ else _) as [stamp|m];
      simpl; split.
    + by eauto.
    + by eauto.
    + by intros [? ?].
    + by intros [_ [? ?]].
  - split; [by intros [? ?] | by intros [[? ?] _]].
Qed.

Lemma combined_question_Throw ev q message :
  combined_question ev q = Throw message → message = not_primitive.
Proof.
  unfold combined_question.
  destruct (ToString (answer_of q)) as [answer|m] eqn:Ha; simpl.
  - destruct (ToBoolean (field q "timestamp")); [|done].
    destruct (ToNumber (field q "timestamp")) as [n|m] eqn:Hn; [done|].
    simpl. intros [= <-]. by eapply ToNumber_Throw.
  - intros [= <-]. by eapply ToString_Throw.
Qed.

End ConversionFacts.

(** ** Quiz Combiner *)

Lemma mapM_app_Ok {A B} (f : A → result B) (l1 l2 : list A) :
  mapM f (l1 ++ l2) = (k1 ← mapM f l1; k2 ← mapM f l2; mret (k1 ++ k2)).
Proof.
  induction l1 as [|x l1 IH]; simpl.
  - by destruct (mapM f l2).
  - destruct (f x) as [y|m]; simpl; [|done]. rewrite IH.
    destruct (mapM f l1) as [k1|m]; simpl; [|done].
    by destruct (mapM f l2).
Qed.

Lemma mapM_fmap_Ok {A B C} (f : B → result C) (g : A → B) (l : list A) :
  mapM f (g <$> l) = mapM (f ∘ g) l.
Proof.
  induction l as [|x l IH]; simpl; [done|].
  change (list_fmap A B g l) with (g <$> l). by rewrite IH.
Qed.

Section CombinerFacts.
Context `{JsNumber} `{SqlBigint}.

Lemma get_prop_field q name :
  is_nullish q = false → get_prop q name = Ok (field q name).
Proof. by destruct q. Qed.

Lemma get_prop_nullish q name :
  is_nullish q = true → ∃ message, get_prop q name = Throw message.
Proof. destruct q; try done; simpl; eauto. Qed.

(** One round of the inner loop. *)
Lemma combine_question_present event q combined :
  is_nullish q = false →
  combine_question event q combined =
  if has_answer q then
    match event with
    | Some ev => cq ← combined_question ev q; Ok (combined ++ [cq])
    | None =>
        _ ← ToString (answer_of q);
        Throw "Cannot read properties of undefined (reading 'id')"
    end
  else Ok combined.
Proof.
  intros Hq. unfold combine_question, has_answer, combined_question.
  rewrite !(get_prop_field q _ Hq). simpl. fold (answer_of q).
  assert (Hrest :
    (answer ← ToString (answer_of q);
     ev ← match event with
          | Some ev => Ok ev
          | None => Throw "Cannot read properties of undefined (reading 'id')"
          end;
     stamp ← (if ToBoolean (field q "timestamp")
              then Some <$> ToNumber (field q "timestamp") else Ok None);
     Ok (combined ++
         [ {| question := field q "question";
              questionType :=
                nullish_coalesce (field q "questionType") (field q "type");
              options := field q "options";
              correctAnswer := answer;
              explanation := field q "explanation";
              difficulty := field q "difficulty";
              videoContext :=
                {| vc_eventId := se_id ev;
                   videoTitle := se_title ev;
                   videoNumber := num_of_Z (Z.of_nat (se_position ev));
                   timestamp := stamp |} |} ]))
    = match event with
      | Some ev =>
          cq ← (answer ← ToString (answer_of q);
                stamp ← (if ToBoolean (field q "timestamp")
                         then Some <$> ToNumber (field q "timestamp")
                         else Ok None);
                Ok {| question := field q "question";
                      questionType :=
                        nullish_coalesce (field q "questionType")
                                         (field q "type");
                      options := field q "options";
                      correctAnswer := answer;
                      explanation := field q "explanation";
                      difficulty := field q "difficulty";
                      videoContext :=
                        {| vc_eventId := se_id ev;
                           videoTitle := se_title ev;
                           videoNumber := num_of_Z (Z.of_nat (se_position ev));
                           timestamp := stamp |} |});
          Ok (combined ++ [cq])
      | None =>
          _ ← ToString (answer_of q);
          Throw "Cannot read properties of undefined (reading 'id')"
      end).
  { destruct (ToString (answer_of q)) as [answer|m]; simpl;
      [|by destruct event].
    destruct event as [ev|]; simpl; [|done].
    by destruct (if ToBoolean (field q "timestamp") then _ else _). }
  by destruct (answer_of q).
Qed.

Lemma combine_question_nullish event q combined :
  is_nullish q = true → ∃ message, combine_question event q combined = Throw message.
Proof.
  intros Hq. destruct (get_prop_nullish q "correctAnswer" Hq) as [m Hm].
  exists m. unfold combine_question. by rewrite Hm.
Qed.

(** Skipping a question that has no answer raises no error, with or
    without a video. *)
Lemma combine_question_skip event q combined :
  is_nullish q = false → has_answer q = false →
  combine_question event q combined = Ok combined.
Proof. intros Hq Hans. by rewrite combine_question_present, Hans. Qed.

Lemma forEach_index_irrelevant {A St} (body : A → St → result St) n m l s :
  forEach (λ x _ s, body x s) n l s = forEach (λ x _ s, body x s) m l s.
Proof.
  revert n m s. induction l as [|x l IH]; intros n m s; simpl; [done|].
  destruct (body x s); simpl; [apply IH | done].
Qed.

Lemma forEach_ext {A St} (body1 body2 : A → nat → St → result St) n l s :
  (∀ x i s, body1 x i s = body2 x i s) →
  forEach body1 n l s = forEach body2 n l s.
Proof.
  intros Hbody. revert n s. induction l as [|x l IH]; intros n s; simpl; [done|].
  rewrite Hbody. destruct (body2 x n s); simpl; [apply IH | done].
Qed.

Lemma inner_loop_cons event q questions combined :
  inner_loop event (q :: questions) combined =
  combine_question event q combined ≫= inner_loop event questions.
Proof.
  unfold inner_loop. simpl.
  destruct (combine_question event q combined); simpl; [|done].
  apply (forEach_index_irrelevant (combine_question event)).
Qed.

(** The inner loop over the questions of a video that is there. *)
Lemma inner_loop_present ev questions combined :
  Forall (λ q, is_nullish q = false) questions →
  inner_loop (Some ev) questions combined =
  (more ← mapM (combined_question ev)
                (filter (λ q, has_answer q = true) questions);
   Ok (combined ++ more)).
Proof.
  intros Hall. revert combined.
  induction Hall as [|q questions Hq _ IH]; intros combined.
  - simpl. by rewrite app_nil_r.
  - rewrite inner_loop_cons, (combine_question_present _ _ _ Hq).
    destruct (has_answer q) eqn:Hans; simpl.
    + rewrite filter_cons_True by done. simpl.
      destruct (combined_question ev q) as [cq|m]; simpl; [|done].
      rewrite IH.
      destruct (mapM _ (filter _ questions)) as [more|m]; simpl; [|done].
      by rewrite <- app_assoc.
    + rewrite IH, filter_cons_False by congruence. done.
Qed.

(** A run of the inner loop that returns has met no [null]. *)
Lemma inner_loop_nonnull event questions combined out :
  inner_loop event questions combined = Ok out →
  Forall (λ q, is_nullish q = false) questions.
Proof.
  revert combined. induction questions as [|q questions IH]; intros combined.
  - constructor.
  - rewrite inner_loop_cons. intros Hb.
    apply bind_Ok in Hb as (c1 & Hq & Hrest).
    destruct (is_nullish q) eqn:Hnull.
    { destruct (combine_question_nullish event q combined Hnull) as [m Hm].
      congruence. }
    constructor; [done | by eapply IH].
Qed.

(** The inner loop for a quiz without a video: it may only skip. *)
Lemma inner_loop_absent_Ok questions combined out :
  inner_loop None questions combined = Ok out →
  out = combined ∧ filter (λ q, has_answer q = true) questions = [].
Proof.
  revert combined. induction questions as [|q questions IH]; intros combined.
  - by intros [= <-].
  - intros Hrun. pose proof (inner_loop_nonnull _ _ _ _ Hrun) as Hall.
    apply Forall_cons in Hall as [Hq _].
    rewrite inner_loop_cons, (combine_question_present _ _ _ Hq) in Hrun.
    destruct (has_answer q) eqn:Hans.
    + by destruct (ToString (answer_of q)).
    + simpl in Hrun. rewrite filter_cons_False by congruence. by apply IH.
Qed.

Lemma combineQuizzes_outer quizzes events :
  combineQuizzes quizzes events = forEach (outer_body events) 0%nat quizzes [].
Proof.
  unfold combineQuizzes.
  assert (Hbody : ∀ quiz index combined,
            match iq_questions quiz with
            | JArr questions =>
                forEach (λ q _ combined,
                           combine_question (events !! index) q combined)
                        0%nat questions combined
            | _ => Ok combined
            end = outer_body events quiz index combined).
  { intros quiz index combined. unfold outer_body, inner_loop, questions_of.
    by destruct (iq_questions quiz). }
  apply forEach_ext, Hbody.
Qed.

Lemma filter_answered_fmap (ev : SeriesEvent) (questions : list jsval) :
  filter answered ((λ q, (ev, q)) <$> questions) =
  (λ q, (ev, q)) <$> filter (λ q, has_answer q = true) questions.
Proof.
  induction questions as [|q questions IH]; [done|].
  rewrite fmap_cons. destruct (has_answer q) eqn:Hans.
  - rewrite !filter_cons_True by done. by rewrite fmap_cons, IH.
  - rewrite !filter_cons_False; [done | congruence |].
    unfold answered. simpl. congruence.
Qed.

Lemma listing_cons quiz quizzes ev events :
  listing (quiz :: quizzes) (ev :: events) =
  ((λ q, (ev, q)) <$> questions_of quiz) ++ listing quizzes events.
Proof. done. Qed.

Lemma listing_nil_r quizzes : listing quizzes [] = [].
Proof. by destruct quizzes. Qed.

(** The combined questions of the answered questions of one video. *)
Lemma combined_of_video ev questions :
  mapM combined_of (filter answered ((λ q, (ev, q)) <$> questions))
  = mapM (combined_question ev) (filter (λ q, has_answer q = true) questions).
Proof. by rewrite filter_answered_fmap, mapM_fmap_Ok. Qed.

(** What a successful run of the outer loop, started at video [n], has
    done. *)
Lemma outer_loop_Ok events quizzes n combined out :
  forEach (outer_body events) n quizzes combined = Ok out →
  questions_present quizzes
  ∧ ∃ more,
      mapM combined_of (filter answered (listing quizzes (drop n events)))
      = Ok more
      ∧ out = combined ++ more.
Proof.
  revert n combined.
  induction quizzes as [|quiz quizzes IH]; intros n combined; simpl.
  - intros [= <-]. split; [constructor|]. exists []. by rewrite app_nil_r.
  - intros Hb. apply bind_Ok in Hb as (c1 & Hquiz & Hrest).
    destruct (IH _ _ Hrest) as (Hpresent & more & Hmore & ->).
    unfold outer_body in Hquiz.
    pose proof (inner_loop_nonnull _ _ _ _ Hquiz) as Hall.
    split; [by constructor|].
    destruct (events !! n) as [ev|] eqn:Hev.
    + rewrite (inner_loop_present _ _ _ Hall) in Hquiz.
      apply bind_Ok in Hquiz as (first & Hfirst & [= <-]).
      rewrite (drop_S _ _ _ Hev), listing_cons, filter_app, mapM_app_Ok.
      rewrite combined_of_video, Hfirst, Hmore. simpl.
      exists (first ++ more). by rewrite <- app_assoc.
    + apply inner_loop_absent_Ok in Hquiz as [-> _].
      apply lookup_ge_None in Hev. exists more. split; [|done].
      rewrite <- Hmore. rewrite !drop_ge by lia. by rewrite !listing_nil_r.
Qed.

Lemma combineQuizzes_Ok quizzes events out :
  combineQuizzes quizzes events = Ok out →
  questions_present quizzes
  ∧ mapM combined_of (filter answered (listing quizzes events)) = Ok out.
Proof.
  rewrite combineQuizzes_outer. intros Hout.
  apply outer_loop_Ok in Hout as (Hpresent & more & Hmore & ->).
  by rewrite drop_0 in Hmore.
Qed.

Lemma filter_answer_nil (questions : list jsval) :
  filter (λ q, has_answer q = true) questions = []
  ↔ Forall (λ q, has_answer q = false) questions.
Proof.
  induction questions as [|q questions IH]; [done|].
  rewrite Forall_cons, <- IH. destruct (has_answer q) eqn:Hq.
  - rewrite filter_cons_True by done. split; [done | by intros [? _]].
  - rewrite filter_cons_False by congruence. tauto.
Qed.

(** When one run of the inner loop returns. *)
Lemma inner_loop_iff event questions combined :
  (∃ out, inner_loop event questions combined = Ok out)
  ↔ Forall (λ q, is_nullish q = false
                 ∧ match event with
                   | Some _ => has_answer q = true → convertible q
                   | None => has_answer q = false
                   end) questions.
Proof.
  revert combined. induction questions as [|q questions IH]; intros combined.
  - split; [constructor | by eexists].
  - rewrite inner_loop_cons, Forall_cons. split.
    + intros [out Hb]. apply bind_Ok in Hb as (c1 & Hq & Hrest).
      destruct (is_nullish q) eqn:Hnull.
      { destruct (combine_question_nullish event q combined Hnull) as [m Hm].
        congruence. }
      split; [|apply (IH c1); by eauto].
      split; [done|].
      rewrite (combine_question_present _ _ _ Hnull) in Hq.
      destruct event as [ev|].
      * intros Hans. rewrite Hans in Hq.
        apply bind_Ok in Hq as (cq & Hcq & _).
        apply (combined_question_is_Ok ev). eauto.
      * destruct (has_answer q); [|done].
        by destruct (ToString (answer_of q)).
    + intros [[Hnull Hq] Hrest].
      rewrite (combine_question_present _ _ _ Hnull).
      destruct (has_answer q) eqn:Hans.
      * destruct event as [ev|]; [|done].
        apply (combined_question_is_Ok ev) in Hq as [cq ->]; [|done]. simpl.
        by apply IH.
      * simpl. by apply IH.
Qed.

(** When the outer loop, started at video [n], returns. *)
Lemma outer_loop_iff events quizzes n combined :
  (∃ out, forEach (outer_body events) n quizzes combined = Ok out)
  ↔ ∀ i quiz, quizzes !! i = Some quiz →
      Forall (λ q, is_nullish q = false
                   ∧ match events !! (n + i)%nat with
                     | Some _ => has_answer q = true → convertible q
                     | None => has_answer q = false
                     end) (questions_of quiz).
Proof.
  revert n combined.
  induction quizzes as [|quiz quizzes IH]; intros n combined; simpl.
  - split; [done | by eauto].
  - split.
    + intros [out Hb]. apply bind_Ok in Hb as (c1 & Hquiz & Hrest).
      intros [|i] quiz' Hi; simpl in Hi.
      * injection Hi as <-. rewrite Nat.add_0_r.
        apply (inner_loop_iff _ _ combined). eauto.
      * replace (n + S i)%nat with (S n + i)%nat by lia.
        apply (proj1 (IH (S n) c1)); [by eauto | done].
    + intros Hall.
      destruct (proj2 (inner_loop_iff (events !! n) (questions_of quiz)
                         combined)) as [c1 Hc1].
      { specialize (Hall 0%nat quiz eq_refl). by rewrite Nat.add_0_r in Hall. }
      assert (outer_body events quiz n combined = Ok c1) as -> by exact Hc1.
      simpl. apply IH.
      intros i quiz' Hi. specialize (Hall (S i) quiz' Hi).
      by replace (n + S i)%nat with (S n + i)%nat in Hall by lia.
Qed.

Lemma combineQuizzes_total quizzes events :
  questions_present quizzes → (length quizzes ≤ length events)%nat →
  questions_convert quizzes →
  ∃ out, combineQuizzes quizzes events = Ok out.
Proof.
  intros Hpresent Hlen Hconvert. rewrite combineQuizzes_outer.
  apply outer_loop_iff. intros i quiz Hi. simpl.
  destruct (lookup_lt_is_Some_2 events i) as [ev ->].
  { apply lookup_lt_Some in Hi. lia. }
  unfold questions_present, questions_convert in *.
  rewrite Forall_lookup in Hpresent, Hconvert.
  specialize (Hpresent i quiz Hi). specialize (Hconvert i quiz Hi).
  rewrite Forall_forall in Hpresent, Hconvert.
  apply Forall_forall. intros q Hq. split; [by apply Hpresent|].
  by apply Hconvert.
Qed.

(** A question the loop skips leaves no trace: the loop over the questions
    of a quiz, and the loop over the quizzes, run as if it were not there. *)
Lemma inner_loop_drop event l1 q l2 combined :
  is_nullish q = false → has_answer q = false →
  inner_loop event (l1 ++ q :: l2) combined
  = inner_loop event (l1 ++ l2) combined.
Proof.
  intros Hq Hanswer. revert combined.
  induction l1 as [|x l1 IH]; intros combined; simpl.
  - by rewrite inner_loop_cons, (combine_question_skip _ _ _ Hq Hanswer).
  - rewrite !inner_loop_cons.
    destruct (combine_question event x combined) as [c1|m]; simpl; [|done].
    apply IH.
Qed.

Lemma outer_loop_drop events pre id l1 q l2 post n combined :
  is_nullish q = false → has_answer q = false →
  forEach (outer_body events) n
    (pre ++ {| iq_eventId := id; iq_questions := JArr (l1 ++ q :: l2) |}
         :: post) combined
  = forEach (outer_body events) n
      (pre ++ {| iq_eventId := id; iq_questions := JArr (l1 ++ l2) |} :: post)
      combined.
Proof.
  intros Hq Hanswer. revert n combined.
  induction pre as [|quiz pre IH]; intros n combined; simpl.
  - assert (outer_body events
              {| iq_eventId := id; iq_questions := JArr (l1 ++ q :: l2) |}
              n combined
            = outer_body events
                {| iq_eventId := id; iq_questions := JArr (l1 ++ l2) |}
                n combined) as ->; [|done].
    unfold outer_body, questions_of. simpl. by apply inner_loop_drop.
  - destruct (outer_body events quiz n combined) as [c1|m]; simpl; [|done].
    apply IH.
Qed.

(** C4 (amended). The combined list is the list of all stored questions,
    videos in their order and the questions of a video in theirs, thinned
    out by the test [correctAnswer ?? correct_answer !== undefined] and by
    nothing else: a question with neither field is dropped, a question with
    an answer other than [null] under at least one of the two names is kept,
    and no field decides the order.  Such a drop never fails the overall
    combination: the step of the loop that skips a question returns what
    was combined so far, and the combination of quizzes with such a question
    among them returns, or fails, as it does without the question. *)
Theorem combineQuizzes_order_and_drops quizzes events :
  (∀ out, combineQuizzes quizzes events = Ok out →
          mapM combined_of (filter answered (listing quizzes events)) = Ok out)
  ∧ (∀ event q combined,
       is_nullish q = false → has_answer q = false →
       combine_question event q combined = Ok combined)
  ∧ (∀ pre id l1 q l2 post,
       is_nullish q = false → has_answer q = false →
       quizzes = pre ++ {| iq_eventId := id;
                           iq_questions := JArr (l1 ++ q :: l2) |} :: post →
       combineQuizzes quizzes events
       = combineQuizzes
           (pre ++ {| iq_eventId := id; iq_questions := JArr (l1 ++ l2) |}
                :: post) events)
  ∧ (∀ q, field q "correctAnswer" = JUndefined →
          field q "correct_answer" = JUndefined → has_answer q = false)
  ∧ (∀ q, is_nullish (field q "correctAnswer") = false
          ∨ is_nullish (field q "correct_answer") = false →
          has_answer q = true).
Proof.
  split_and!.
  - intros out Hout. by apply combineQuizzes_Ok in Hout as [_ ->].
  - apply combine_question_skip.
  - intros pre id l1 q l2 post Hq Hanswer ->.
    rewrite !combineQuizzes_outer. by apply outer_loop_drop.
  - intros q. unfold has_answer, answer_of. by intros -> ->.
  - intros q. unfold has_answer, answer_of, nullish_coalesce.
    destruct (field q "correctAnswer"), (field q "correct_answer");
      simpl; intuition congruence.
Qed.

(** C10. In every combined question the timestamp of the video context is
    left out when the [timestamp] field of the source question is falsy, as
    the number 0 is, and is the field converted to a number when the field
    is truthy. *)
Theorem combineQuizzes_timestamp quizzes events out :
  combineQuizzes quizzes events = Ok out →
  Forall2 (λ cq item,
             let ts := field item.2 "timestamp" in
             (ToBoolean ts = false → timestamp (videoContext cq) = None)
             ∧ (ToBoolean ts = true →
                ∃ n, ToNumber ts = Ok n
                     ∧ timestamp (videoContext cq) = Some n)
             ∧ (ts = JNum (num_of_Z 0) → timestamp (videoContext cq) = None))
          out (filter answered (listing quizzes events)).
Proof.
  intros Hout. apply combineQuizzes_Ok in Hout as [_ Hout].
  apply mapM_Ok_Forall2, Forall2_flip in Hout.
  eapply Forall2_impl; [exact Hout|].
  intros cq [ev q] Hcq. simpl in *.
  unfold combined_of, combined_question in Hcq. simpl in Hcq.
  apply bind_Ok in Hcq as (answer & _ & Hcq).
  apply bind_Ok in Hcq as (stamp & Hstamp & [= <-]). simpl.
  split_and!.
  - intros Hts. rewrite Hts in Hstamp. by injection Hstamp as <-.
  - intros Hts. rewrite Hts in Hstamp.
    destruct (ToNumber (field q "timestamp")) as [n|]; [|done].
    injection Hstamp as <-. eauto.
  - intros Hts. rewrite Hts in Hstamp. simpl in Hstamp.
    rewrite num_falsy_zero in Hstamp. by injection Hstamp as <-.
Qed.

End CombinerFacts.

(** ** Eligibility Evaluator *)

Lemma filter_unique {A B} (f : A → B) (P : A → Prop) `{∀ x, Decision (P x)}
    (l : list A) (x : A) :
  NoDup (f <$> l) → x ∈ l → P x → (∀ y, y ∈ l → P y → f y = f x) →
  filter P l = [x].
Proof.
  intros Hnd Hx HP Hsame. induction l as [|y l IH]; [by apply elem_of_nil in Hx|].
  rewrite fmap_cons in Hnd. apply NoDup_cons in Hnd as [Hnotin Hnd].
  assert (Hrest : ∀ z, z ∈ l → P z → f z = f x).
  { intros z Hz. apply Hsame. by apply list_elem_of_further. }
  apply elem_of_cons in Hx as [->|Hx].
  - rewrite filter_cons_True by done. f_equal.
    apply elem_of_nil_inv. intros z Hz.
    apply list_elem_of_filter in Hz as [HPz Hz].
    apply Hnotin. rewrite <- (Hrest z Hz HPz). by apply list_elem_of_fmap_2.
  - rewrite filter_cons_False; [by apply IH|].
    intros HPy. apply Hnotin.
    rewrite (Hsame y (list_elem_of_here _ _) HPy). by apply list_elem_of_fmap_2.
Qed.

Lemma append_nil_l (s : string) : "" +:+ s = s.
Proof. reflexivity. Qed.

Lemma append_cons c (s t : string) : String c s +:+ t = String c (s +:+ t).
Proof. reflexivity. Qed.

Section EligibilityFacts.
Context `{JsNumber} `{SqlBigint}.

Lemma findIndex_Some_lt {A} (f : A → bool) (l : list A) i :
  findIndex f l = Some i → (i < length l)%nat.
Proof.
  revert i. induction l as [|x l IH]; intros i; simpl; [done|].
  destruct (f x).
  - intros [= <-]. lia.
  - destruct (findIndex f l) as [j|]; simpl; [|done].
    intros [= <-]. specialize (IH j eq_refl). lia.
Qed.

Lemma findIndex_Some {A} (f : A → bool) (l : list A) i :
  findIndex f l = Some i → ∃ x, l !! i = Some x ∧ f x = true.
Proof.
  revert i. induction l as [|y l IH]; intros i; simpl; [done|].
  destruct (f y) eqn:Hy.
  - intros [= <-]. eauto.
  - destruct (findIndex f l) as [j|]; simpl; [|done].
    intros [= <-]. by apply IH.
Qed.

Lemma findIndex_None {A} (f : A → bool) (l : list A) x :
  findIndex f l = None → x ∈ l → f x = false.
Proof.
  induction l as [|y l IH]; simpl; [by intros _ ?%elem_of_nil|].
  destruct (f y) eqn:Hy; [done|].
  destruct (findIndex f l); simpl; [done|].
  intros _ [->|Hx]%elem_of_cons; [done | by apply IH].
Qed.

(** [findIndex] finds the first element that passes the test. *)
Lemma findIndex_first {A} (f : A → bool) (l : list A) i x :
  l !! i = Some x → f x = true →
  (∀ j y, l !! j = Some y → f y = true → j = i) →
  findIndex f l = Some i.
Proof.
  revert i. induction l as [|y l IH]; intros i Hi Hx Hfirst; [done|].
  simpl. destruct (f y) eqn:Hy.
  - by rewrite <- (Hfirst 0%nat y eq_refl Hy).
  - destruct i as [|i]; simpl in Hi; [congruence|].
    rewrite (IH i Hi Hx); [done|].
    intros j z Hj Hz. by specialize (Hfirst (S j) z Hj Hz) as [= ->].
Qed.

Lemma ineligible_reasons_NoDup : NoDup ineligible_reasons.
Proof. compute_done. Qed.

(** No business outcome reads like the report of an error. *)
Lemma ineligible_reason_no_error text message :
  text ∈ ineligible_reasons → text ≠ reason_error message.
Proof.
  unfold ineligible_reasons, reason_error. intros Hin.
  repeat (apply elem_of_cons in Hin as [->|Hin]);
    [| | | | | |by apply elem_of_nil in Hin];
    rewrite !append_cons; discriminate.
Qed.

Lemma eligible_reason_no_error position total previous message :
  reason_eligible position total previous ≠ reason_error message.
Proof. unfold reason_eligible, reason_error. rewrite !append_cons. discriminate. Qed.

(** A row of the first statement is a ready video that the id denotes. *)
Lemma select_event_elem eventId db event :
  event ∈ select_event eventId db →
  ∃ e, e ∈ all_events db ∧ denotes eventId (ev_key e) ∧ ev_state e = Ready
       ∧ ej_key event = ev_key e ∧ ej_series_key event = ev_series_key e.
Proof.
  unfold select_event. intros Hin.
  apply list_elem_of_bind in Hin as (e & Hin & He).
  apply list_elem_of_filter in He as [[Hid Hready] He].
  exists e. split_and!; [done | done | done | |];
    (destruct (filter _ (all_series db)) as [|s ss];
     [by apply list_elem_of_singleton in Hin as ->
     |by apply list_elem_of_fmap in Hin as (s' & -> & _)]).
Qed.

(** The first row for a video that is the only one the id denotes. *)
Lemma select_event_head eventId db e :
  filter (λ e, denotes eventId (ev_key e) ∧ ev_state e = Ready) (all_events db)
  = [e] →
  ∃ title rest,
    select_event eventId db
    = {| ej_key := ev_key e; ej_series_key := ev_series_key e;
         ej_title := ev_title e; ej_series_title := title |} :: rest
    ∧ ∀ s, ev_series_key e = Some s → series_title_is db s title.
Proof.
  intros Hfilter. unfold select_event. rewrite Hfilter. simpl.
  destruct (filter _ (all_series db)) as [|x matches] eqn:Hmatches; simpl.
  - exists None. eexists. split; [done|]. intros s Hs x Hx Hkey.
    assert (Hin : x ∈ filter (λ x, Some (series_key x) = ev_series_key e)
                             (all_series db)).
    { apply list_elem_of_filter. split; [congruence | done]. }
    rewrite Hmatches in Hin. by apply elem_of_nil in Hin.
  - exists (Some (series_title x)). eexists. split; [done|]. intros s Hs.
    assert (Hin : x ∈ filter (λ x, Some (series_key x) = ev_series_key e)
                             (all_series db)).
    { rewrite Hmatches. apply list_elem_of_here. }
    apply list_elem_of_filter in Hin as [Hkey Hin].
    exists x. split_and!; [done | congruence | done].
Qed.

(** The positions query returns the series in its order. *)
Lemma select_positions_eq db seriesId :
  select_positions seriesId db = ordered_events db seriesId.
Proof.
  unfold select_positions.
  destruct (ordered_events db seriesId) as [ordered|] eqn:Hordered; [|done].
  simpl. f_equal. apply sort_by_sorted_id.
  eapply numbered_from_Sorted. by eapply ordered_events_numbered.
Qed.

Lemma mapM_bigint_param_out keys :
  mapM bigint_param (int8out <$> keys) = Ok keys.
Proof.
  induction keys as [|k keys IH]; simpl; [done|].
  rewrite bigint_param_out. simpl.
  change (list_fmap bigint string int8out keys) with (int8out <$> keys).
  by rewrite IH.
Qed.

Lemma previous_ids_keys (videos : list SeriesEvent) :
  se_id <$> videos = int8out <$> (se_key <$> videos).
Proof. by rewrite <- list_fmap_compose. Qed.

(** The statements of [checkEligibility], sent to a store that answers. *)
Lemma query_event_run p eventId k :
  fault p (SelectEvent eventId) = None → denotes eventId k →
  query_event p eventId = Ok (select_event eventId (tables p)).
Proof.
  unfold query_event, pool_query. intros -> Hk.
  by rewrite (bigint_param_denoted _ _ Hk).
Qed.

Lemma query_quiz_id_run p eventId language k :
  fault p (SelectQuizId eventId language) = None → denotes eventId k →
  query_quiz_id p eventId language
  = Ok (select_quiz_id eventId language (tables p)).
Proof.
  unfold query_quiz_id, pool_query. intros -> Hk.
  by rewrite (bigint_param_denoted _ _ Hk).
Qed.

Lemma query_positions_run p s :
  fault p (SelectPositions (int8out s)) = None →
  query_positions p (int8out s) = ordered_events (tables p) (int8out s).
Proof.
  unfold query_positions, pool_query. intros ->.
  rewrite bigint_param_out. simpl. apply select_positions_eq.
Qed.

Lemma query_previous_quizzes_run p (videos : list SeriesEvent) language :
  fault p (SelectPreviousQuizzes (se_id <$> videos) language) = None →
  query_previous_quizzes p (se_id <$> videos) language
  = Ok (select_previous_quizzes (se_id <$> videos) language (tables p)).
Proof.
  unfold query_previous_quizzes, pool_query. intros ->.
  by rewrite previous_ids_keys, mapM_bigint_param_out.
Qed.

(** The own-quiz gate tests whether the table has a quiz of the video. *)
Lemma select_quiz_id_has_quiz eventId language db k :
  denotes eventId k →
  Nat.ltb 0 (length (select_quiz_id eventId language db))
  = bool_decide (has_quiz db k language).
Proof.
  intros Hk. unfold select_quiz_id, has_quiz.
  assert (Hsame : filter (λ r, denotes eventId (quiz_event_key r)
                               ∧ quiz_language r = language) (ai_quizzes db)
                  = filter (λ r, quiz_event_key r = k
                                 ∧ quiz_language r = language) (ai_quizzes db)).
  { apply list_filter_iff. intros r. split; intros [Hid ?]; (split; [|done]).
    - by eapply denotes_functional.
    - by rewrite Hid. }
  rewrite Hsame. clear Hsame.
  destruct (filter _ (ai_quizzes db)) as [|r rows] eqn:Hrows; simpl; symmetry.
  - apply bool_decide_eq_false.
    intros (row & Hrow & Hkey)%Exists_exists.
    assert (Hin : row ∈ filter (λ r, quiz_event_key r = k
                                     ∧ quiz_language r = language)
                               (ai_quizzes db))
      by (by apply list_elem_of_filter).
    rewrite Hrows in Hin. by apply elem_of_nil in Hin.
  - apply bool_decide_eq_true. apply Exists_exists. exists r.
    assert (Hin : r ∈ filter (λ r, quiz_event_key r = k
                                   ∧ quiz_language r = language)
                             (ai_quizzes db))
      by (rewrite Hrows; apply list_elem_of_here).
    apply list_elem_of_filter in Hin as [? ?]. done.
Qed.

(** [SELECT DISTINCT event_id ... WHERE event_id = ANY(ids)], asked for
    the texts of distinct keys, returns the keys that have a quiz. *)
Lemma select_previous_quizzes_keys (videos : list SeriesEvent) language db :
  NoDup (se_key <$> videos) →
  select_previous_quizzes (se_id <$> videos) language db
  ≡ₚ se_key <$> filter (λ v, has_quiz db (se_key v) language) videos.
Proof.
  intros Hnd. apply NoDup_Permutation.
  - apply NoDup_remove_dups.
  - apply (sublist_NoDup _ (se_key <$> videos)); [done|].
    apply fmap_sublist, sublist_filter.
  - intros k. unfold select_previous_quizzes, has_quiz.
    rewrite elem_of_remove_dups, !list_elem_of_fmap. split.
    + intros (row & -> & Hrow).
      apply list_elem_of_filter in Hrow as [[Hany Hlang] Hrow].
      apply Exists_exists in Hany as (id & Hid & Hden).
      apply list_elem_of_fmap in Hid as (v & -> & Hv).
      apply denotes_out in Hden. exists v. split; [done|].
      apply list_elem_of_filter. split; [|done].
      apply Exists_exists. exists row. by rewrite <- Hden.
    + intros (v & -> & Hv).
      apply list_elem_of_filter in Hv as [Hquiz Hv].
      apply Exists_exists in Hquiz as (row & Hrow & Hkey & Hlang).
      exists row. split; [done|]. apply list_elem_of_filter.
      split; [|done]. split; [|done].
      apply Exists_exists. exists (se_id v).
      split; [by apply list_elem_of_fmap_2|].
      rewrite Hkey. by apply denotes_out.
Qed.

Lemma select_previous_quizzes_count vids i language db :
  NoDup (se_key <$> vids) →
  length (select_previous_quizzes (se_id <$> take i vids) language db)
  = length (predecessors_with_quiz db language vids i).
Proof.
  intros Hnd. unfold predecessors_with_quiz.
  rewrite select_previous_quizzes_keys, length_fmap; [done|].
  apply (sublist_NoDup _ (se_key <$> vids)); [done|].
  apply fmap_sublist, sublist_take.
Qed.

(** The index of the anchor in the rows of the positions query: none for
    an id that is not the text of the key it denotes. *)
Lemma findIndex_anchor eventId (vids : list SeriesEvent) i t :
  NoDup (se_key <$> vids) → vids !! i = Some t → denotes eventId (se_key t) →
  findIndex (is_anchor eventId) vids
  = if bool_decide (eventId = se_id t) then Some i else None.
Proof.
  intros Hnd Hi Ht. case_bool_decide as Hcanon.
  - apply (findIndex_first _ _ _ t Hi).
    + unfold is_anchor. apply String.eqb_eq. done.
    + intros j y Hj Hy. unfold is_anchor in Hy. apply String.eqb_eq in Hy.
      assert (Hsame : se_key y = se_key t).
      { apply (inj int8out). unfold se_id in *. congruence. }
      apply (NoDup_lookup (se_key <$> vids) j i (se_key t) Hnd).
      * by rewrite list_lookup_fmap, Hj, <- Hsame.
      * by rewrite list_lookup_fmap, Hi.
  - destruct (findIndex (is_anchor eventId) vids) as [j|] eqn:Hj; [|done].
    apply findIndex_Some in Hj as (y & Hy & Hanchor).
    unfold is_anchor in Hanchor. apply String.eqb_eq in Hanchor.
    destruct Hcanon. rewrite <- Hanchor. unfold se_id. f_equal.
    rewrite <- Hanchor in Ht. by apply denotes_out in Ht.
Qed.

(** The body of [checkEligibility] for a video that the store has, on a
    store that answers: what each gate tests, read from the tables. *)
Lemma checkEligibility_try_found p eventId language e :
  (∀ stmt, fault p stmt = None) →
  NoDup (ev_id <$> all_events (tables p)) →
  e ∈ all_events (tables p) → denotes eventId (ev_key e) →
  ev_state e = Ready →
  ∃ title,
    (∀ s, ev_series_key e = Some s → series_title_is (tables p) s title)
    ∧ checkEligibility_try p eventId language =
      match ev_series_key e with
      | None =>
          Ok {| eligible := false; reason := reason_no_series;
                details := None |}
      | Some s =>
          if bool_decide (has_quiz (tables p) (ev_key e) language) then
            vids ← ordered_events (tables p) (int8out s);
            match findIndex (is_anchor eventId) vids with
            | None =>
                Ok {| eligible := false; reason := reason_no_position;
                      details := diagnostics s title None None None true |}
            | Some i =>
                let previous :=
                  length (predecessors_with_quiz (tables p) language vids i) in
                if bool_decide (i = 0%nat) then
                  Ok {| eligible := false; reason := reason_first_video;
                        details := diagnostics s title (Some (i + 1)%nat)
                                     (Some (length vids)) (Some 0%nat) true |}
                else if bool_decide (previous = 0%nat) then
                  Ok {| eligible := false; reason := reason_no_previous_quiz;
                        details := diagnostics s title (Some (i + 1)%nat)
                                     (Some (length vids)) (Some 0%nat) true |}
                else
                  Ok {| eligible := true;
                        reason := reason_eligible (i + 1) (length vids)
                                    previous;
                        details := diagnostics s title (Some (i + 1)%nat)
                                     (Some (length vids)) (Some previous)
                                     true |}
            end
          else
            Ok {| eligible := false; reason := reason_no_quiz;
                  details := diagnostics s title None None None false |}
      end.
Proof.
  intros Hfault Hnd He Hid Hready.
  assert (Hfilter : filter (λ e, denotes eventId (ev_key e)
                                 ∧ ev_state e = Ready) (all_events (tables p))
                    = [e]).
  { apply (filter_unique ev_key); [by apply NoDup_ids_keys | done | done |].
    intros y _ [Hy _]. by eapply denotes_functional. }
  destruct (select_event_head _ _ _ Hfilter) as (title & rest & Hrows & Htitle).
  exists title. split; [done|].
  unfold checkEligibility_try.
  rewrite (query_event_run _ _ _ (Hfault _) Hid), Hrows. simpl.
  unfold ej_series. simpl.
  destruct (ev_series_key e) as [s|] eqn:Hs; simpl; [|done].
  rewrite (query_quiz_id_run _ _ _ _ (Hfault _) Hid). simpl.
  rewrite (select_quiz_id_has_quiz _ _ _ _ Hid).
  case_bool_decide as Hquiz; simpl; [|done].
  rewrite (query_positions_run _ _ (Hfault _)).
  destruct (ordered_events (tables p) (int8out s)) as [vids|m] eqn:Hvids;
    simpl; [|done].
  fold (is_anchor eventId).
  destruct (findIndex (is_anchor eventId) vids) as [i|] eqn:Hi; [|done].
  pose proof (findIndex_Some_lt _ _ _ Hi) as Hlt.
  rewrite (bool_decide_ext (length (take i vids) = 0%nat) (i = 0%nat))
    by (rewrite length_take; lia).
  case_bool_decide as Hfirst; [done|].
  rewrite (query_previous_quizzes_run _ _ _ (Hfault _)). simpl.
  rewrite select_previous_quizzes_count
    by (by eapply ordered_events_NoDup_keys).
  by case_bool_decide.
Qed.

Lemma checkEligibility_try_Ok p eventId language r :
  checkEligibility_try p eventId language = Ok r →
  checkEligibility p eventId language = Ok r.
Proof. unfold checkEligibility. by intros ->. Qed.

(** C3. On a store that answers, with the video found (its id being a
    key of the table), the gates are evaluated in order and the first
    failing one decides, each with its own reason: no ready video of that
    key; a video without a series, whatever quizzes there are; no quiz of
    the video in the language; the video first in the order of its series;
    no video before it with a quiz in the language.  The outcome is
    eligible exactly when every gate passes, and then reports the 1-based
    position, the size of the series and the number of videos before it
    that have a quiz.  (An id that is another spelling of the key passes
    the first three gates and is then not found among the positions.) *)
Theorem checkEligibility_gates p eventId language :
  (∀ stmt, fault p stmt = None) →
  NoDup (ev_id <$> all_events (tables p)) →
  ((∃ k, denotes eventId k) →
   (∀ e, e ∈ all_events (tables p) → denotes eventId (ev_key e) →
         ev_state e ≠ Ready) →
   checkEligibility p eventId language =
     Ok {| eligible := false; reason := reason_not_found; details := None |})
  ∧ (∀ e, e ∈ all_events (tables p) → denotes eventId (ev_key e) →
          ev_state e = Ready →
       (ev_series_key e = None →
          checkEligibility p eventId language =
            Ok {| eligible := false; reason := reason_no_series;
                  details := None |})
       ∧ ∀ s, ev_series_key e = Some s →
          ∃ title,
            series_title_is (tables p) s title
            ∧ (¬ has_quiz (tables p) (ev_key e) language →
               checkEligibility p eventId language =
                 Ok {| eligible := false; reason := reason_no_quiz;
                       details := diagnostics s title None None None
                                    false |})
            ∧ (has_quiz (tables p) (ev_key e) language →
               ∀ vids, ordered_events (tables p) (int8out s) = Ok vids →
                 ∃ i t,
                   vids !! i = Some t ∧ se_key t = ev_key e
                   ∧ (eventId ≠ ev_id e →
                      checkEligibility p eventId language =
                        Ok {| eligible := false;
                              reason := reason_no_position;
                              details := diagnostics s title None None None
                                           true |})
                   ∧ (eventId = ev_id e →
                      (i = 0%nat →
                       checkEligibility p eventId language =
                         Ok {| eligible := false;
                               reason := reason_first_video;
                               details := diagnostics s title (Some 1%nat)
                                            (Some (length vids)) (Some 0%nat)
                                            true |})
                      ∧ (i ≠ 0%nat →
                         predecessors_with_quiz (tables p) language vids i
                           = [] →
                         checkEligibility p eventId language =
                           Ok {| eligible := false;
                                 reason := reason_no_previous_quiz;
                                 details := diagnostics s title
                                              (Some (i + 1)%nat)
                                              (Some (length vids))
                                              (Some 0%nat) true |})
                      ∧ (i ≠ 0%nat →
                         ∀ previous,
                           length (predecessors_with_quiz (tables p) language
                                     vids i) = previous →
                           previous ≠ 0%nat →
                           checkEligibility p eventId language =
                             Ok {| eligible := true;
                                   reason := reason_eligible (i + 1)
                                               (length vids) previous;
                                   details := diagnostics s title
                                                (Some (i + 1)%nat)
                                                (Some (length vids))
                                                (Some previous) true |}))))
  ∧ (∀ r, checkEligibility p eventId language = Ok r → eligible r = true →
       ∃ e s title vids i t previous,
         e ∈ all_events (tables p) ∧ eventId = ev_id e ∧ ev_state e = Ready
         ∧ ev_series_key e = Some s
         ∧ series_title_is (tables p) s title
         ∧ has_quiz (tables p) (ev_key e) language
         ∧ ordered_events (tables p) (int8out s) = Ok vids
         ∧ vids !! i = Some t ∧ se_key t = ev_key e ∧ i ≠ 0%nat
         ∧ length (predecessors_with_quiz (tables p) language vids i)
           = previous
         ∧ previous ≠ 0%nat
         ∧ r = {| eligible := true;
                  reason := reason_eligible (i + 1) (length vids) previous;
                  details := diagnostics s title (Some (i + 1)%nat)
                               (Some (length vids)) (Some previous) true |})
  ∧ NoDup ineligible_reasons.
Proof.
  intros Hfault Hnd.
  assert (Hposition : ∀ e s vids,
            e ∈ all_events (tables p) → ev_state e = Ready →
            ev_series_key e = Some s →
            ordered_events (tables p) (int8out s) = Ok vids →
            ∃ i t, vids !! i = Some t ∧ se_key t = ev_key e).
  { intros e s vids He Hready Hs Hvids.
    assert (Hin : ev_key e ∈ se_key <$> vids).
    { rewrite (ordered_events_keys _ _ _ Hvids).
      apply list_elem_of_fmap_2, list_elem_of_filter.
      split; [by apply series_member_out | done]. }
    apply list_elem_of_fmap in Hin as (t & Ht & Hin).
    apply list_elem_of_lookup in Hin as [i Hi]. eauto. }
  split_and!; [| | |apply ineligible_reasons_NoDup].
  - intros [k Hk] Hnone. apply checkEligibility_try_Ok.
    unfold checkEligibility_try.
    rewrite (query_event_run _ _ _ (Hfault _) Hk).
    destruct (select_event eventId (tables p)) as [|event rest] eqn:Hrows;
      [done|].
    assert (Hin : event ∈ select_event eventId (tables p)).
    { rewrite Hrows. apply list_elem_of_here. }
    apply select_event_elem in Hin as (e & He & Hid & Hready & _).
    by destruct (Hnone e He Hid).
  - intros e He Hid Hready.
    destruct (checkEligibility_try_found _ _ language _ Hfault Hnd He Hid Hready)
      as (title & Htitle & Htry).
    split.
    + intros Hs. apply checkEligibility_try_Ok. by rewrite Htry, Hs.
    + intros s Hs. exists title. split; [by apply Htitle|].
      rewrite Hs in Htry. split.
      * intros Hquiz. apply checkEligibility_try_Ok.
        by rewrite Htry, bool_decide_eq_false_2.
      * intros Hquiz vids Hvids.
        destruct (Hposition _ _ _ He Hready Hs Hvids) as (i & t & Hi & Ht).
        exists i, t. split; [done|]. split; [done|].
        rewrite bool_decide_eq_true_2, Hvids in Htry by done.
        simpl in Htry.
        rewrite (findIndex_anchor _ _ i t) in Htry;
          [|by eapply ordered_events_NoDup_keys|done|by rewrite Ht].
        replace (se_id t) with (ev_id e) in Htry
          by (unfold se_id, ev_id; by rewrite Ht).
        split.
        -- intros Hother. apply checkEligibility_try_Ok.
           by rewrite Htry, bool_decide_eq_false_2.
        -- intros Hcanon. rewrite bool_decide_eq_true_2 in Htry by done.
           split_and!.
           ++ intros ->. apply checkEligibility_try_Ok. by rewrite Htry.
           ++ intros Hi0 Hnone. apply checkEligibility_try_Ok.
              rewrite Htry, Hnone.
              by rewrite bool_decide_eq_false_2.
           ++ intros Hi0 previous Hlen Hsome. apply checkEligibility_try_Ok.
              rewrite Htry, Hlen.
              by rewrite !bool_decide_eq_false_2.
  - intros r Hr Heligible.
    assert (Hfound : ∃ e, e ∈ all_events (tables p)
                          ∧ denotes eventId (ev_key e) ∧ ev_state e = Ready).
    { unfold checkEligibility, checkEligibility_try in Hr.
      destruct (query_event p eventId) as [[|event rest]|m] eqn:Hevent;
        simpl in Hr; [by injection Hr as <-| |by injection Hr as <-].
      unfold query_event, pool_query in Hevent. rewrite Hfault in Hevent.
      apply bind_Ok in Hevent as (k & Hk & [= Hrows]).
      assert (Hin : event ∈ select_event eventId (tables p)).
      { rewrite Hrows. apply list_elem_of_here. }
      apply select_event_elem in Hin as (e & He & Hid & Hready & _). eauto. }
    destruct Hfound as (e & He & Hid & Hready).
    destruct (checkEligibility_try_found _ _ language _ Hfault Hnd He Hid Hready)
      as (title & Htitle & Htry).
    revert Hr. unfold checkEligibility. rewrite Htry.
    destruct (ev_series_key e) as [s|] eqn:Hs;
      [|intros [= <-]; done].
    case_bool_decide as Hquiz; [|intros [= <-]; done].
    destruct (ordered_events (tables p) (int8out s)) as [vids|m] eqn:Hvids;
      simpl; [|intros [= <-]; done].
    destruct (Hposition _ _ _ He Hready Hs Hvids) as (i & t & Hi & Ht).
    rewrite (findIndex_anchor _ _ i t);
      [|by eapply ordered_events_NoDup_keys|done|by rewrite Ht].
    replace (se_id t) with (ev_id e)
      by (unfold se_id, ev_id; by rewrite Ht).
    case_bool_decide as Hcanon; [|intros [= <-]; done].
    case_bool_decide as Hfirst; [intros [= <-]; done|].
    case_bool_decide as Hprev; [intros [= <-]; done|].
    intros [= <-].
    exists e, s, title, vids, i, t,
      (length (predecessors_with_quiz (tables p) language vids i)).
    split_and!; try done. by apply Htitle.
Qed.

End EligibilityFacts.

(** ** What checkEligibility reports as an error *)

Section EligibilityOutcome.
Context `{JsNumber} `{SqlBigint}.

Lemma pool_query_Throw {A} p stmt (run : Db → result A) message :
  pool_query p stmt run = Throw message →
  fault p stmt = Some message
  ∨ (fault p stmt = None ∧ run (tables p) = Throw message).
Proof.
  unfold pool_query. destruct (fault p stmt) as [m|]; [|by right].
  intros [= ->]. by left.
Qed.

Lemma pool_query_Ok {A} p stmt (run : Db → result A) a :
  pool_query p stmt run = Ok a ↔ fault p stmt = None ∧ run (tables p) = Ok a.
Proof.
  unfold pool_query. destruct (fault p stmt).
  - split; [done | by intros [? _]].
  - split; [done | by intros [_ ?]].
Qed.

Ltac listed :=
  repeat first [apply list_elem_of_here | apply list_elem_of_further].

(** The series order fails only on the order text of one of its rows. *)
Lemma ordered_events_Throw db seriesId message :
  ordered_events db seriesId = Throw message →
  ∃ c, c ∈ all_events db ∧ series_member seriesId c
       ∧ order_key c = Throw message.
Proof.
  unfold ordered_events, ordered_rows. intros Hb.
  apply bind_Throw in Hb as [Hb|(? & _ & [=])].
  apply bind_Throw in Hb as [Hb|(? & _ & [=])].
  apply mapM_Throw in Hb as (c & Hc & Hk).
  apply list_elem_of_filter in Hc as [Hmember Hc].
  exists c. split_and!; [done | done |].
  unfold keyed in Hk. by destruct (order_key c); [|injection Hk as ->].
Qed.

Lemma query_event_Throw p eventId language message :
  query_event p eventId = Throw message →
  error_cause p eventId language message.
Proof.
  intros [Hfault|[_ Hrun]]%pool_query_Throw.
  - eapply statement_rejected; [apply sent_event | done].
  - apply id_is_no_key.
    by apply bind_Throw in Hrun as [Hrun|(? & _ & [=])].
Qed.

Lemma query_quiz_id_Throw p eventId language message :
  query_quiz_id p eventId language = Throw message →
  error_cause p eventId language message.
Proof.
  intros [Hfault|[_ Hrun]]%pool_query_Throw.
  - eapply statement_rejected; [apply sent_quiz_id | done].
  - apply id_is_no_key.
    by apply bind_Throw in Hrun as [Hrun|(? & _ & [=])].
Qed.

Lemma query_positions_Throw p eventId language e s message :
  e ∈ all_events (tables p) → denotes eventId (ev_key e) →
  ev_state e = Ready → ev_series_key e = Some s →
  query_positions p (int8out s) = Throw message →
  error_cause p eventId language message.
Proof.
  intros He Hid Hready Hs [Hfault|[_ Hrun]]%pool_query_Throw.
  - eapply statement_rejected; [by apply (sent_positions _ _ _ e s) | done].
  - rewrite bigint_param_out in Hrun. simpl in Hrun.
    rewrite select_positions_eq in Hrun.
    apply ordered_events_Throw in Hrun as (c & Hc & Hmember & Horder).
    by apply (order_is_no_integer _ _ _ _ e s c).
Qed.

Lemma query_positions_Ok p seriesId vids :
  query_positions p seriesId = Ok vids →
  ordered_events (tables p) seriesId = Ok vids.
Proof.
  intros [_ Hrun]%pool_query_Ok.
  apply bind_Ok in Hrun as (k & _ & Hrun). by rewrite <- select_positions_eq.
Qed.

Lemma query_previous_quizzes_Throw p eventId language e s vids n message :
  e ∈ all_events (tables p) → denotes eventId (ev_key e) →
  ev_state e = Ready → ev_series_key e = Some s →
  ordered_events (tables p) (int8out s) = Ok vids →
  query_previous_quizzes p (se_id <$> take n vids) language = Throw message →
  error_cause p eventId language message.
Proof.
  intros He Hid Hready Hs Hvids [Hfault|[_ Hrun]]%pool_query_Throw.
  - eapply statement_rejected; [by apply (sent_previous _ _ _ e s vids n) | done].
  - by rewrite previous_ids_keys, mapM_bigint_param_out in Hrun.
Qed.

(** The video behind the first row of the first statement. *)
Lemma query_event_found p eventId event rest seriesId :
  query_event p eventId = Ok (event :: rest) →
  ej_series event = Some seriesId →
  ∃ e s, e ∈ all_events (tables p) ∧ denotes eventId (ev_key e)
         ∧ ev_state e = Ready ∧ ev_series_key e = Some s
         ∧ seriesId = int8out s.
Proof.
  intros [_ Hrun]%pool_query_Ok Hseries.
  apply bind_Ok in Hrun as (k & _ & [= Hrows]).
  assert (Hin : event ∈ select_event eventId (tables p)).
  { rewrite Hrows. apply list_elem_of_here. }
  apply select_event_elem in Hin as (e & He & Hid & Hready & _ & Hkey).
  unfold ej_series in Hseries. rewrite Hkey in Hseries.
  destruct (ev_series_key e) as [s|] eqn:Hs; [|done].
  simpl in Hseries. injection Hseries as <-. by exists e, s.
Qed.

(** Every run of [checkEligibility] returns a record: an eligible one, one
    of the business outcomes, or the record of an error with its cause. *)
Lemma checkEligibility_outcome p eventId language :
  ∃ r, checkEligibility p eventId language = Ok r
       ∧ (eligible r = true ∧ (∀ message, reason r ≠ reason_error message)
          ∨ (eligible r = false ∧ reason r ∈ ineligible_reasons)
          ∨ (∃ message, r = error_record message
                        ∧ error_cause p eventId language message)).
Proof.
  assert (Hbusiness : ∀ text d,
            text ∈ ineligible_reasons →
            ∃ r, Ok {| eligible := false; reason := text; details := d |}
                 = Ok r
                 ∧ (eligible r = true
                    ∧ (∀ message, reason r ≠ reason_error message)
                    ∨ (eligible r = false ∧ reason r ∈ ineligible_reasons)
                    ∨ (∃ message, r = error_record message
                                  ∧ error_cause p eventId language message))).
  { intros text d Hin. eexists. split; [done|]. right. left. by split. }
  assert (Hfailure : ∀ message,
            error_cause p eventId language message →
            ∃ r, Ok (error_record message) = Ok r
                 ∧ (eligible r = true
                    ∧ (∀ message, reason r ≠ reason_error message)
                    ∨ (eligible r = false ∧ reason r ∈ ineligible_reasons)
                    ∨ (∃ message, r = error_record message
                                  ∧ error_cause p eventId language message))).
  { intros message Hcause. eexists. split; [done|]. right. right. eauto. }
  unfold checkEligibility, checkEligibility_try. fold (is_anchor eventId).
  destruct (query_event p eventId) as [[|event rest]|m] eqn:Hevent; simpl.
  - apply Hbusiness. unfold ineligible_reasons. listed.
  - destruct (ej_series event) as [seriesId|] eqn:Hseries.
    2:{ apply Hbusiness. unfold ineligible_reasons. listed. }
    destruct (query_event_found _ _ _ _ _ Hevent Hseries)
      as (e & s & He & Hid & Hready & Hs & ->).
    destruct (query_quiz_id p eventId language) as [quizResult|m] eqn:Hquiz;
      simpl.
    2:{ apply Hfailure. by eapply query_quiz_id_Throw. }
    destruct (negb (0 <? length quizResult)%nat).
    { apply Hbusiness. unfold ineligible_reasons. listed. }
    destruct (query_positions p (int8out s)) as [vids|m] eqn:Hpos; simpl.
    2:{ apply Hfailure. by eapply query_positions_Throw. }
    apply query_positions_Ok in Hpos.
    destruct (findIndex (is_anchor eventId) vids) as [i|].
    2:{ apply Hbusiness. unfold ineligible_reasons. listed. }
    case_bool_decide.
    { apply Hbusiness. unfold ineligible_reasons. listed. }
    destruct (query_previous_quizzes p _ language) as [previous|m] eqn:Hprev;
      simpl.
    2:{ apply Hfailure. by eapply query_previous_quizzes_Throw. }
    case_bool_decide.
    { apply Hbusiness. unfold ineligible_reasons. listed. }
    eexists. split; [done|]. left. split; [done|].
    intros message. apply eligible_reason_no_error.
  - apply Hfailure. by eapply query_event_Throw.
Qed.

(** C7. [checkEligibility] never throws: every run returns a record, which
    is an eligible one, one of the business outcomes with its reason, or the
    record "Error checking eligibility: <message>".  That last record is
    returned for every exception of the body, not only for an
    infrastructure failure: when the store rejects one of the statements of
    the request, and also when the id of the request is no BIGINT or a ready
    video of the requested video's series has an order text that is no
    integer.  With none of these three, the record is no error record. *)
Theorem checkEligibility_never_throws p eventId language :
  ∃ r, checkEligibility p eventId language = Ok r
       ∧ (eligible r = true ∧ (∀ message, reason r ≠ reason_error message)
          ∨ (eligible r = false ∧ reason r ∈ ineligible_reasons)
          ∨ (∃ message, r = error_record message
                        ∧ error_cause p eventId language message))
       ∧ ((∀ stmt, sent p eventId language stmt → fault p stmt = None) →
          (∃ k, denotes eventId k) →
          (∀ e s c, e ∈ all_events (tables p) → denotes eventId (ev_key e) →
                    ev_state e = Ready → ev_series_key e = Some s →
                    c ∈ all_events (tables p) →
                    series_member (int8out s) c →
                    ∃ k, order_key c = Ok k) →
          ∀ message, reason r ≠ reason_error message).
Proof.
  destruct (checkEligibility_outcome p eventId language)
    as (r & Hr & Hcases).
  exists r. split; [done|]. split; [done|].
  intros Hfault [k Hk] Horder message.
  destruct Hcases as [[_ Hreason]|[[_ Hreason]|(m & -> & Hcause)]].
  - apply Hreason.
  - by apply ineligible_reason_no_error.
  - destruct Hcause as [stmt Hsent Hstmt|Hparam|e s c He Hid Hready Hs Hc Hm Ho].
    + rewrite (Hfault stmt Hsent) in Hstmt. done.
    + by rewrite (bigint_param_denoted _ _ Hk) in Hparam.
    + destruct (Horder e s c He Hid Hready Hs Hc Hm) as [k' Hk'].
      by rewrite Hk' in Ho.
Qed.

End EligibilityOutcome.

(** ** Aggregation Orchestrator *)

Section OrchestratorFacts.
Context `{JsNumber} `{SqlBigint}.

Lemma generateCumulativeQuiz_steps eventId language forceRegenerate startTime now :
  generateCumulativeQuiz eventId language forceRegenerate startTime now =
  (served ← cache_step eventId language forceRegenerate;
   match served with
   | Some quiz => mret quiz
   | None => produce eventId language startTime now
   end).
Proof. reflexivity. Qed.

Lemma io_bind_Ok {A B} (m : io A) (f : A → io B) w b w' :
  (m ≫= f) w = (Ok b, w') → ∃ a w1, m w = (Ok a, w1) ∧ f a w1 = (Ok b, w').
Proof.
  unfold mbind, io_bind. destruct (m w) as [[a|e] w1]; [eauto | done].
Qed.

Lemma io_bind_step {A B} (m : io A) (f : A → io B) w a w1 :
  m w = (Ok a, w1) → (m ≫= f) w = f a w1.
Proof. unfold mbind, io_bind. by intros ->. Qed.

Lemma getCachedQuiz_pool eventId language w r w' :
  getCachedQuiz eventId language w = (r, w') → pool w' = pool w.
Proof.
  unfold getCachedQuiz, mbind, io_bind, cache_get, query, cache_set, mret,
    io_ret.
  destruct (cache w !! cacheKey eventId language); [by intros [= _ <-]|].
  destruct (pool_query (pool w) _ _) as [[quiz|]|]; by intros [= _ <-].
Qed.

(** Step 1 reads the store and may refresh the fast cache; the tables and
    the pool stay as they are. *)
Lemma cache_step_pool eventId language forceRegenerate w r w' :
  cache_step eventId language forceRegenerate w = (r, w') → pool w' = pool w.
Proof.
  unfold cache_step. destruct forceRegenerate; [by intros [= _ <-]|].
  unfold mbind, io_bind.
  destruct (getCachedQuiz eventId language w) as [[[quiz|]|e] w1] eqn:Hc;
    apply getCachedQuiz_pool in Hc.
  - unfold query, mret, io_ret.
    destruct (isCacheValid (pool w1) quiz); intros [= _ <-]; done.
  - by intros [= _ <-].
  - by intros [= _ <-].
Qed.

Lemma getCachedQuiz_env eventId language w r w' :
  getCachedQuiz eventId language w = (r, w') →
  DEFAULT_MODEL w' = DEFAULT_MODEL w.
Proof.
  unfold getCachedQuiz, mbind, io_bind, cache_get, query, cache_set, mret,
    io_ret.
  destruct (cache w !! cacheKey eventId language); [by intros [= _ <-]|].
  destruct (pool_query (pool w) _ _) as [[quiz|]|]; by intros [= _ <-].
Qed.

Lemma cache_step_env eventId language forceRegenerate w r w' :
  cache_step eventId language forceRegenerate w = (r, w') →
  DEFAULT_MODEL w' = DEFAULT_MODEL w.
Proof.
  unfold cache_step. destruct forceRegenerate; [by intros [= _ <-]|].
  unfold mbind, io_bind.
  destruct (getCachedQuiz eventId language w) as [[[quiz|]|e] w1] eqn:Hc;
    apply getCachedQuiz_env in Hc.
  - unfold query, mret, io_ret.
    destruct (isCacheValid (pool w1) quiz); intros [= _ <-]; done.
  - by intros [= _ <-].
  - by intros [= _ <-].
Qed.

Lemma query_run {A} (run : Pool → result A) w : query run w = (run (pool w), w).
Proof. done. Qed.

(** A row of the anchor query is the anchor: a ready event of a series. *)
Lemma select_series_event_elem eventId db event :
  event ∈ select_series_event eventId db →
  ∃ e, e ∈ all_events db ∧ denotes eventId (ev_key e)
       ∧ ev_series_key e = Some (anchor_series_key event)
       ∧ ev_state e = Ready.
Proof.
  unfold select_series_event. intros Hin.
  apply list_elem_of_omap in Hin as (e & He & Hrow). exists e.
  destruct (ev_series_key e) as [series|]; [|done].
  case_bool_decide as Hcond; [|done]. injection Hrow as <-.
  destruct Hcond. done.
Qed.

Lemma anchor_series_member event e :
  ev_series_key e = Some (anchor_series_key event) → ev_state e = Ready →
  series_member (anchor_series event) e
  ∧ ev_series e = Some (anchor_series event).
Proof.
  intros Hs Hready. split; [by apply series_member_out|].
  unfold ev_series. by rewrite Hs.
Qed.

(** The resolver finds the anchor of a ready series member. *)
Lemma anchor_positioned db seriesId ordered e :
  ordered_events db seriesId = Ok ordered →
  e ∈ all_events db → series_member seriesId e →
  ∃ i t, ordered !! i = Some t ∧ se_key t = ev_key e.
Proof.
  intros Hordered He Hm.
  assert (Hin : ev_key e ∈ se_key <$> ordered).
  { rewrite (ordered_events_keys _ _ _ Hordered).
    apply list_elem_of_fmap_2. by apply list_elem_of_filter. }
  apply list_elem_of_fmap in Hin as (t & Hid & Ht).
  apply list_elem_of_lookup in Ht as [i Hi]. eauto.
Qed.

Lemma resolver_nonempty p seriesId upToEventId ordered i t :
  ordered_events (tables p) seriesId = Ok ordered → ordered !! i = Some t →
  denotes upToEventId (se_key t) →
  ∀ out, getSeriesEventsUpTo p seriesId upToEventId = Ok out → out ≠ [].
Proof.
  intros Hordered Hi Ht out Hout.
  apply getSeriesEventsUpTo_Ok in Hout as (_ & _ & _ & ordered' & Ho' & ->).
  rewrite Hordered in Ho'. injection Ho' as <-.
  assert (Hin : t ∈ sort_by position_leb (up_to upToEventId ordered)).
  { apply elem_of_sort_by, elem_of_up_to.
    assert (t ∈ ordered) by (by eapply list_elem_of_lookup_2).
    split; [done|]. exists t. split_and!; [done | done | lia]. }
  intros Hnil. rewrite Hnil in Hin. by apply elem_of_nil in Hin.
Qed.

(** What a successful production has done. *)
Lemma produce_Ok eventId language startTime now w quiz w' :
  produce eventId language startTime now w = (Ok quiz, w') →
  ∃ event rest seriesEvents individualQuizzes,
    fault (pool w) (SelectSeriesEvent eventId) = None
    ∧ select_series_event eventId (tables (pool w)) = event :: rest
    ∧ getSeriesEventsUpTo (pool w) (anchor_series event) eventId
      = Ok seriesEvents
    ∧ seriesEvents ≠ []
    ∧ mapM (λ e, getOrGenerateIndividualQuiz (pool w) (se_id e) language)
           seriesEvents = Ok individualQuizzes
    ∧ combineQuizzes individualQuizzes seriesEvents = Ok (cq_questions quiz)
    ∧ cq_eventId quiz = eventId
    ∧ cq_seriesId quiz = anchor_series event
    ∧ cq_language quiz = language
    ∧ cq_includedEventIds quiz = se_id <$> seriesEvents
    ∧ cq_videoCount quiz = length seriesEvents
    ∧ cq_processingTimeMs quiz = now - startTime.
Proof.
  unfold produce. intros Hrun.
  apply io_bind_Ok in Hrun as (eventResult & w1 & Hq1 & Hrun).
  rewrite query_run in Hq1. injection Hq1 as Hq1 <-.
  unfold query_series_event, pool_query in Hq1.
  destruct (fault (pool w) (SelectSeriesEvent eventId)) eqn:Hfault; [done|].
  apply bind_Ok in Hq1 as (k & _ & [= <-]).
  destruct (select_series_event eventId (tables (pool w)))
    as [|event rest] eqn:Hevent; [done|].
  apply io_bind_Ok in Hrun as (seriesEvents & w2 & Hq2 & Hrun).
  rewrite query_run in Hq2. injection Hq2 as Hq2 <-.
  case_bool_decide as Hlen; [done|].
  apply io_bind_Ok in Hrun as (individualQuizzes & w3 & Hq3 & Hrun).
  rewrite query_run in Hq3. injection Hq3 as Hq3 <-.
  apply io_bind_Ok in Hrun as (questions & w4 & Hq4 & Hrun).
  rewrite query_run in Hq4. injection Hq4 as Hq4 <-.
  apply io_bind_Ok in Hrun as (env & w5 & Hq5 & Hrun).
  injection Hq5 as <- <-.
  apply io_bind_Ok in Hrun as ([] & w6 & _ & Hrun).
  injection Hrun as <- <-. simpl.
  exists event, rest, seriesEvents, individualQuizzes.
  split_and!; try done.
  intros ->. by apply Hlen.
Qed.

(** C5. A quiz produced by a successful [generateCumulativeQuiz] (one that
    step 1 did not serve from the cache) records as its members exactly the
    ids the resolver returns, at that time, for the anchor and the anchor's
    series, and its video count is the number of these members; with unique
    event ids that list is the prefix of the series order that ends at, and
    includes, the anchor (the video whose key the id of the request
    denotes). *)
Theorem generate_member_set eventId language forceRegenerate startTime now
    w quiz w' :
  generateCumulativeQuiz eventId language forceRegenerate startTime now w
    = (Ok quiz, w') →
  (cache_step eventId language forceRegenerate w).1 = Ok None →
  ∃ seriesEvents,
    getSeriesEventsUpTo (pool w) (cq_seriesId quiz) eventId = Ok seriesEvents
    ∧ cq_includedEventIds quiz = se_id <$> seriesEvents
    ∧ cq_videoCount quiz = length (cq_includedEventIds quiz)
    ∧ (∃ e, e ∈ all_events (tables (pool w)) ∧ denotes eventId (ev_key e)
            ∧ ev_series e = Some (cq_seriesId quiz) ∧ ev_state e = Ready)
    ∧ (NoDup (ev_id <$> all_events (tables (pool w))) →
       ∃ ordered i t,
         ordered_events (tables (pool w)) (cq_seriesId quiz) = Ok ordered
         ∧ ordered !! i = Some t ∧ denotes eventId (se_key t)
         ∧ seriesEvents = take (S i) ordered).
Proof.
  rewrite generateCumulativeQuiz_steps. intros Hrun Hstep.
  apply io_bind_Ok in Hrun as (served & w1 & Hserved & Hrun).
  rewrite Hserved in Hstep. injection Hstep as ->.
  apply cache_step_pool in Hserved as Hpool.
  apply produce_Ok in Hrun
    as (event & rest & seriesEvents & quizzes & _ & Hevent & Hresolved & _
        & _ & _ & _ & Hseries & _ & Hincluded & Hcount & _).
  rewrite Hpool in Hevent, Hresolved.
  exists seriesEvents. rewrite Hseries, Hincluded, Hcount, length_fmap.
  assert (Hanchor : event ∈ select_series_event eventId (tables (pool w))).
  { rewrite Hevent. apply list_elem_of_here. }
  apply select_series_event_elem in Hanchor as (e & He & Hid & Hs & Hready).
  destruct (anchor_series_member _ _ Hs Hready) as [Hmember Hseries'].
  split_and!; [done | done | done | by eauto |].
  intros Hnd.
  apply getSeriesEventsUpTo_Ok in Hresolved as Hshape.
  destruct Hshape as (_ & _ & _ & ordered & Hordered & ->).
  destruct (anchor_positioned _ _ _ e Hordered He) as (i & t & Hi & Ht);
    [done|].
  exists ordered, i, t. rewrite Ht. split_and!; [done | done | done |].
  apply (up_to_prefix _ _ i t); [| |done|by rewrite Ht].
  - by eapply ordered_events_numbered.
  - by eapply ordered_events_NoDup_keys.
Qed.

Lemma getOrGenerateIndividualQuiz_stored p eventId language k :
  fault p (SelectQuizData eventId language) = None → denotes eventId k →
  getOrGenerateIndividualQuiz p eventId language =
  match stored_quiz (tables p) eventId language with
  | Some data =>
      stored ← get_prop data "questions";
      mret {| iq_eventId := eventId;
              iq_questions := js_or stored (JArr []) |}
  | None => mret {| iq_eventId := eventId; iq_questions := JArr [] |}
  end.
Proof.
  intros Hfault Hk.
  unfold getOrGenerateIndividualQuiz, pool_query, stored_quiz.
  rewrite Hfault, (bigint_param_denoted _ _ Hk). simpl.
  unfold select_quiz_data.
  by destruct (filter _ (ai_quizzes (tables p))).
Qed.

Lemma fetch_members p language (members : list SeriesEvent) :
  (∀ stmt, fault p stmt = None) →
  (∀ m data, m ∈ members →
     stored_quiz (tables p) (se_id m) language = Some data →
     quiz_usable data) →
  mapM (λ e, getOrGenerateIndividualQuiz p (se_id e) language) members
  = Ok (fetched (tables p) language <$> members).
Proof.
  intros Hfault Husable. apply Forall2_mapM_Ok, Forall2_fmap_r.
  apply Forall_Forall2_diag, Forall_forall. intros m Hm.
  unfold compose, fetched.
  rewrite (getOrGenerateIndividualQuiz_stored _ _ _ (se_key m))
    by (apply Hfault || by apply denotes_out).
  destruct (stored_quiz (tables p) (se_id m) language) as [data|] eqn:Hdata;
    [|done].
  destruct (Husable m data Hm Hdata) as [Hnull _].
  by rewrite (get_prop_field _ _ Hnull).
Qed.

Lemma fetched_present db language (members : list SeriesEvent) :
  (∀ m data, m ∈ members →
     stored_quiz db (se_id m) language = Some data → quiz_usable data) →
  questions_present (fetched db language <$> members).
Proof.
  intros Husable. apply Forall_fmap, Forall_forall. intros m Hm. simpl.
  unfold questions_of, fetched. simpl.
  destruct (stored_quiz db (se_id m) language) as [data|] eqn:Hdata;
    [|constructor].
  destruct (Husable m data Hm Hdata) as [_ Hall].
  eapply Forall_impl; [exact Hall|]. by intros q [? _].
Qed.

Lemma fetched_convert db language (members : list SeriesEvent) :
  (∀ m data, m ∈ members →
     stored_quiz db (se_id m) language = Some data → quiz_usable data) →
  questions_convert (fetched db language <$> members).
Proof.
  intros Husable. apply Forall_fmap, Forall_forall. intros m Hm. simpl.
  unfold questions_of, fetched. simpl.
  destruct (stored_quiz db (se_id m) language) as [data|] eqn:Hdata;
    [|constructor].
  destruct (Husable m data Hm Hdata) as [_ Hall].
  eapply Forall_impl; [exact Hall|]. by intros q [_ ?].
Qed.

(** The video a combined question names is the video of its item. *)
Lemma combined_question_video ev q cq :
  combined_question ev q = Ok cq →
  vc_eventId (videoContext cq) = se_id ev
  ∧ videoTitle (videoContext cq) = se_title ev
  ∧ videoNumber (videoContext cq) = num_of_Z (Z.of_nat (se_position ev)).
Proof.
  unfold combined_question. intros Hcq.
  apply bind_Ok in Hcq as (answer & _ & Hcq).
  apply bind_Ok in Hcq as (stamp & _ & [= <-]). done.
Qed.

Lemma mapM_Ok_elem {A B} (f : A → result B) (l : list A) k y :
  mapM f l = Ok k → y ∈ k → ∃ x, x ∈ l ∧ f x = Ok y.
Proof.
  intros Hk%mapM_Ok_Forall2 Hy.
  induction Hk as [|x y' l k Hxy Hk IH]; [by apply elem_of_nil in Hy|].
  apply elem_of_cons in Hy as [->|Hy].
  - exists x. split; [apply list_elem_of_here | done].
  - destruct (IH Hy) as (x' & Hx' & Hfx'). exists x'.
    split; [by apply list_elem_of_further | done].
Qed.

(** The items of the listing of fetched quizzes: a member and one of its
    stored questions. *)
Lemma elem_of_listing_fetched db language members ev q :
  (ev, q) ∈ listing (fetched db language <$> members) members →
  q ∈ questions_of (fetched db language ev).
Proof.
  unfold listing. intros Hin.
  apply list_elem_of_bind in Hin as ([quiz ev'] & Hin & Hzip). simpl in Hin.
  apply list_elem_of_fmap in Hin as (q' & [= -> ->] & Hq).
  apply elem_of_lookup_zip_with in Hzip as (i & x & y & [= -> ->] & Hx & Hy).
  rewrite list_lookup_fmap, Hy in Hx. by injection Hx as <-.
Qed.

(** The row fits its columns. *)
Lemma upsert_Ok quiz db event_id series_id included :
  denotes (cq_eventId quiz) event_id →
  denotes (cq_seriesId quiz) series_id →
  cq_includedEventIds quiz = int8out <$> included →
  (char_length (cq_language quiz) ≤ 10)%nat →
  (char_length (cq_model quiz) ≤ 50)%nat →
  -2147483648 ≤ cq_processingTimeMs quiz ≤ 2147483647 →
  0 < Z.of_nat (cq_videoCount quiz) ≤ 2147483647 →
  ∃ db', upsert quiz db = Ok db'.
Proof.
  intros Hevent Hseries Hincluded Hlang Hmodel Hms Hcount.
  unfold upsert, varchar, int4.
  rewrite (bigint_param_denoted _ _ Hevent),
    (bigint_param_denoted _ _ Hseries), Hincluded, mapM_bigint_param_out.
  apply Nat.leb_le in Hlang, Hmodel. rewrite Hlang, Hmodel. simpl.
  rewrite !bool_decide_eq_true_2 by lia. simpl.
  rewrite bool_decide_eq_true_2 by lia. eauto.
Qed.

(** A production whose every step succeeds. *)
Lemma produce_run eventId language startTime now w event rest seriesEvents
    individualQuizzes questions :
  fault (pool w) (SelectSeriesEvent eventId) = None →
  select_series_event eventId (tables (pool w)) = event :: rest →
  getSeriesEventsUpTo (pool w) (anchor_series event) eventId
    = Ok seriesEvents →
  seriesEvents ≠ [] →
  mapM (λ e, getOrGenerateIndividualQuiz (pool w) (se_id e) language)
       seriesEvents = Ok individualQuizzes →
  combineQuizzes individualQuizzes seriesEvents = Ok questions →
  fault (pool w) (UpsertCumulativeQuiz eventId language) = None →
  (char_length language ≤ 10)%nat →
  (char_length (model_name (DEFAULT_MODEL w)) ≤ 50)%nat →
  -2147483648 ≤ now - startTime ≤ 2147483647 →
  Z.of_nat (length seriesEvents) ≤ 2147483647 →
  ∃ w', produce eventId language startTime now w =
        (Ok {| cq_eventId := eventId;
               cq_seriesId := anchor_series event;
               cq_language := language;
               cq_model := model_name (DEFAULT_MODEL w);
               cq_questions := questions;
               cq_includedEventIds := se_id <$> seriesEvents;
               cq_videoCount := length seriesEvents;
               cq_processingTimeMs := now - startTime |}, w').
Proof.
  intros Hfault Hevent Hresolved Hne Hfetch Hcombine Hupsert Hlang Hmodel
    Hms Hcount.
  assert (Hanchor : event ∈ select_series_event eventId (tables (pool w))).
  { rewrite Hevent. apply list_elem_of_here. }
  apply select_series_event_elem in Hanchor as (e & _ & Hid & _).
  destruct (upsert_Ok
              {| cq_eventId := eventId;
                 cq_seriesId := anchor_series event;
                 cq_language := language;
                 cq_model := model_name (DEFAULT_MODEL w);
                 cq_questions := questions;
                 cq_includedEventIds := se_id <$> seriesEvents;
                 cq_videoCount := length seriesEvents;
                 cq_processingTimeMs := now - startTime |}
              (tables (pool w)) (ev_key e) (anchor_series_key event)
              (se_key <$> seriesEvents)) as [db' Hdb']; simpl; try done.
  { by apply denotes_out. }
  { apply previous_ids_keys. }
  { destruct seriesEvents; [done | simpl in *; lia]. }
  eexists. unfold produce, mbind, io_bind, query.
  unfold query_series_event, pool_query at 1.
  rewrite Hfault, (bigint_param_denoted _ _ Hid). simpl. rewrite Hevent.
  cbv beta iota. rewrite Hresolved. cbv beta iota.
  rewrite bool_decide_eq_false_2
    by (intros Hlen; by apply length_zero_iff_nil in Hlen).
  cbv beta iota. rewrite Hfetch, Hcombine.
  unfold saveCumulativeQuiz, pool_query. cbv beta iota zeta.
  unfold cq_eventId at 1, cq_language at 1. rewrite Hupsert, Hdb'.
  reflexivity.
Qed.

(** C8. When the store responds, the new row fits its columns and every
    stored per-video quiz of a member is readable, [generateCumulativeQuiz]
    succeeds whichever members have no stored quiz for the language: such a
    member is among the included members, is counted, and contributes no
    question; if no member has a stored quiz the result is a quiz without
    questions. *)
Theorem generate_tolerates_missing_quizzes eventId language forceRegenerate
    startTime now w event rest seriesEvents :
  (∀ stmt, fault (pool w) stmt = None) →
  (char_length language ≤ 10)%nat →
  (char_length (model_name (DEFAULT_MODEL w)) ≤ 50)%nat →
  -2147483648 ≤ now - startTime ≤ 2147483647 →
  Z.of_nat (length seriesEvents) ≤ 2147483647 →
  (cache_step eventId language forceRegenerate w).1 = Ok None →
  select_series_event eventId (tables (pool w)) = event :: rest →
  getSeriesEventsUpTo (pool w) (anchor_series event) eventId
    = Ok seriesEvents →
  (∀ m data, m ∈ seriesEvents →
     stored_quiz (tables (pool w)) (se_id m) language = Some data →
     quiz_usable data) →
  ∃ quiz w',
    generateCumulativeQuiz eventId language forceRegenerate startTime now w
      = (Ok quiz, w')
    ∧ cq_includedEventIds quiz = se_id <$> seriesEvents
    ∧ cq_videoCount quiz = length seriesEvents
    ∧ (∀ m, m ∈ seriesEvents →
         stored_quiz (tables (pool w)) (se_id m) language = None →
         se_id m ∈ cq_includedEventIds quiz
         ∧ ∀ cq, cq ∈ cq_questions quiz →
                 vc_eventId (videoContext cq) ≠ se_id m)
    ∧ ((∀ m, m ∈ seriesEvents →
          stored_quiz (tables (pool w)) (se_id m) language = None) →
       cq_questions quiz = []).
Proof.
  intros Hfault Hlang Hmodel Hms Hcount Hstep Hevent Hresolved Husable.
  rewrite generateCumulativeQuiz_steps.
  destruct (cache_step eventId language forceRegenerate w) as [served w1]
    eqn:Hserved.
  simpl in Hstep. subst served.
  apply cache_step_pool in Hserved as Hpool.
  apply cache_step_env in Hserved as Henv.
  rewrite (io_bind_step _ _ _ _ _ Hserved).
  set (db := tables (pool w)) in *.
  assert (Hne : seriesEvents ≠ []).
  { assert (Hanchor : event ∈ select_series_event eventId db).
    { rewrite Hevent. apply list_elem_of_here. }
    apply select_series_event_elem in Hanchor as (e & He & Hid & Hs & Hready).
    destruct (anchor_series_member _ _ Hs Hready) as [Hmember _].
    apply getSeriesEventsUpTo_Ok in Hresolved as Hshape.
    destruct Hshape as (_ & _ & _ & ordered & Hordered & _).
    destruct (anchor_positioned _ _ _ e Hordered He) as (i & t & Hi & Ht);
      [done|].
    eapply (resolver_nonempty _ _ eventId); [done | done | | done].
    by rewrite Ht. }
  destruct (combineQuizzes_total (fetched db language <$> seriesEvents)
              seriesEvents) as [questions Hcombine].
  { by apply fetched_present. }
  { by rewrite length_fmap. }
  { by apply fetched_convert. }
  destruct (produce_run eventId language startTime now w1 event rest
              seriesEvents (fetched db language <$> seriesEvents) questions)
    as [w' Hrun]; rewrite ?Hpool, ?Henv; try done.
  { by apply fetch_members. }
  eexists _, w'. split; [exact Hrun|]. simpl.
  apply combineQuizzes_Ok in Hcombine as [_ Hquestions].
  assert (Hnone : ∀ m ev q,
            stored_quiz db (se_id m) language = None → se_id ev = se_id m →
            (ev, q) ∉ listing (fetched db language <$> seriesEvents)
                              seriesEvents).
  { intros m ev q Hmissing Hid Hin.
    apply elem_of_listing_fetched in Hin.
    unfold questions_of, fetched in Hin. simpl in Hin.
    rewrite Hid, Hmissing in Hin. by apply elem_of_nil in Hin. }
  split_and!; [done | done | |].
  - intros m Hm Hmissing. split; [by apply list_elem_of_fmap_2|].
    intros cq Hcq Hid.
    destruct (mapM_Ok_elem _ _ _ _ Hquestions Hcq) as ([ev q] & Hitem & Hof).
    apply list_elem_of_filter in Hitem as [_ Hitem].
    apply combined_question_video in Hof as [Hvideo _]. simpl in Hvideo.
    apply (Hnone m ev q Hmissing); [congruence | done].
  - intros Hall.
    assert (Hnil : listing (fetched db language <$> seriesEvents)
                     seriesEvents = []);
      [|rewrite Hnil in Hquestions; by injection Hquestions as <-].
    apply elem_of_nil_inv. intros [ev q] Hin.
    assert (Hev : ev ∈ seriesEvents).
    { unfold listing in Hin.
      apply list_elem_of_bind in Hin as ([quiz ev'] & Hin & Hzip).
      simpl in Hin. apply list_elem_of_fmap in Hin as (q' & [= -> ->] & _).
      by apply elem_of_zip_r in Hzip. }
    by apply (Hnone ev ev q (Hall ev Hev) eq_refl).
Qed.

Lemma select_series_event_nil eventId db :
  (∀ e, e ∈ all_events db → denotes eventId (ev_key e) →
        ev_state e = Ready → ev_series e = None) →
  select_series_event eventId db = [].
Proof.
  intros Hnone. apply elem_of_nil_inv. intros event Hin.
  apply select_series_event_elem in Hin as (e & He & Hid & Hs & Hready).
  specialize (Hnone e He Hid Hready). unfold ev_series in Hnone.
  by rewrite Hs in Hnone.
Qed.

Lemma produce_not_found eventId language startTime now w k :
  fault (pool w) (SelectSeriesEvent eventId) = None → denotes eventId k →
  select_series_event eventId (tables (pool w)) = [] →
  produce eventId language startTime now w
  = (Throw "Event not found or not part of a series", w).
Proof.
  intros Hfault Hk Hevent.
  unfold produce, mbind, io_bind, query, query_series_event, pool_query.
  rewrite Hfault, (bigint_param_denoted _ _ Hk). simpl. by rewrite Hevent.
Qed.

(** C6 (amended). When the anchor id is absent from the ordered set of ready
    series members the resolver signals no error of its own: whenever its
    query succeeds it returns the empty list.  Its callers react: the
    Consistency Guard reports every stored quiz with a non-empty member list
    as invalid, and [generateCumulativeQuiz], asked to produce a quiz for an
    anchor that is no ready video of any series, throws "Event not found or
    not part of a series". *)
Theorem resolver_anchor_absent p seriesId upToEventId series anchor ordered :
  fault p (SelectSeriesEventsUpTo seriesId upToEventId) = None →
  denotes seriesId series → denotes upToEventId anchor →
  ordered_events (tables p) seriesId = Ok ordered →
  anchor ∉ se_key <$> ordered →
  getSeriesEventsUpTo p seriesId upToEventId = Ok []
  ∧ (∀ quiz, cq_seriesId quiz = seriesId → cq_eventId quiz = upToEventId →
             cq_includedEventIds quiz ≠ [] → isCacheValid p quiz = Ok false)
  ∧ (∀ w language forceRegenerate startTime now,
       pool w = p →
       (cache_step upToEventId language forceRegenerate w).1 = Ok None →
       fault p (SelectSeriesEvent upToEventId) = None →
       (∀ e, e ∈ all_events (tables p) → ev_key e = anchor →
             ev_state e = Ready → ev_series e = None) →
       (generateCumulativeQuiz upToEventId language forceRegenerate
          startTime now w).1
       = Throw "Event not found or not part of a series").
Proof.
  intros Hfault Hseries Hanchor Hordered Habsent.
  assert (Hempty : getSeriesEventsUpTo p seriesId upToEventId = Ok []).
  { rewrite (getSeriesEventsUpTo_keys _ _ _ _ _ Hseries Hanchor), Hfault,
      Hordered. simpl.
    rewrite up_to_absent; [done|]. intros t Ht Hden. apply Habsent.
    rewrite (denotes_functional _ _ _ Hanchor Hden).
    by apply list_elem_of_fmap_2. }
  split_and!; [done | |].
  - intros quiz Hs He Hne.
    rewrite isCacheValid_unfold, Hs, He, Hempty. f_equal.
    apply bool_decide_eq_false. intros Heq. apply Hne.
    apply js_sort_nil_inv. by rewrite <- Heq.
  - intros w language forceRegenerate startTime now Hp Hstep Hf Hnone.
    rewrite generateCumulativeQuiz_steps.
    destruct (cache_step upToEventId language forceRegenerate w)
      as [served w1] eqn:Hserved.
    simpl in Hstep. subst served.
    apply cache_step_pool in Hserved as Hpool.
    rewrite (io_bind_step _ _ _ _ _ Hserved).
    rewrite (produce_not_found _ _ _ _ _ anchor);
      [done | by rewrite Hpool, Hp | done |].
    rewrite Hpool, Hp. apply select_series_event_nil.
    intros e He Hden. apply Hnone; [done|].
    by eapply denotes_functional.
Qed.

End OrchestratorFacts.

(** ** Stored quizzes: fast cache and durable rows *)

Section StoreFacts.
Context `{JsNumber} `{SqlBigint}.

Lemma varchar_fits n s t :
  varchar n s = Ok t → (char_length s ≤ n)%nat → t = s.
Proof.
  unfold varchar. intros Hv Hlen. apply Nat.leb_le in Hlen.
  rewrite Hlen in Hv. by injection Hv.
Qed.

Lemma int4_Ok z z' :
  int4 z = Ok z' → z' = z ∧ -2147483648 ≤ z ≤ 2147483647.
Proof. unfold int4. case_bool_decide; [|done]. by intros [= <-]. Qed.

(** What a successful [INSERT ... ON CONFLICT DO UPDATE] has written. *)
Lemma upsert_Ok_inv quiz db db' :
  upsert quiz db = Ok db' →
  ∃ event_id series_id included language row,
    denotes (cq_eventId quiz) event_id
    ∧ denotes (cq_seriesId quiz) series_id
    ∧ mapM bigint_param (cq_includedEventIds quiz) = Ok included
    ∧ varchar 10 (cq_language quiz) = Ok language
    ∧ all_events db' = all_events db
    ∧ all_series db' = all_series db
    ∧ ai_quizzes db' = ai_quizzes db
    ∧ ai_cumulative_quizzes db'
      = <[(event_id, language) := row]> (ai_cumulative_quizzes db)
    ∧ row_included_event_ids row = included
    ∧ row_questions row = cq_questions quiz
    ∧ row_video_count row = cq_videoCount quiz
    ∧ row_processing_time_ms row = cq_processingTimeMs quiz
    ∧ (0 < row_video_count row)%nat
    ∧ match ai_cumulative_quizzes db !! (event_id, language) with
      | Some old =>
          row_series_id row = row_series_id old
          ∧ row_model row = row_model old
      | None =>
          row_series_id row = series_id
          ∧ varchar 50 (cq_model quiz) = Ok (row_model row)
      end.
Proof.
  unfold upsert. intros Hup.
  apply bind_Ok in Hup as (event_id & Hevent & Hup).
  apply bind_Ok in Hup as (series_id & Hseries & Hup).
  apply bind_Ok in Hup as (ms & Hms & Hup).
  apply bind_Ok in Hup as (included & Hincluded & Hup).
  apply bind_Ok in Hup as (count & Hcount & Hup).
  apply bind_Ok in Hup as (language & Hlang & Hup).
  apply bind_Ok in Hup as (model & Hmodel & Hup).
  apply int4_Ok in Hms as [-> _]. apply int4_Ok in Hcount as [-> _].
  apply bigint_param_Ok in Hevent, Hseries.
  case_bool_decide as Hpos; [|done]. injection Hup as <-.
  exists event_id, series_id, included, language. eexists. simpl.
  split_and!; [done | done | done | done | done | done | done | reflexivity
              | | | | | |];
    destruct (ai_cumulative_quizzes db !! (event_id, language));
    simpl; try done; lia.
Qed.

(** The keys a list of id texts is stored as. *)
Lemma mapM_bigint_param_Ok ids keys :
  mapM bigint_param ids = Ok keys ↔ Forall2 denotes ids keys.
Proof.
  split.
  - intros Hk%mapM_Ok_Forall2. eapply Forall2_impl; [exact Hk|].
    intros id k. apply bigint_param_Ok.
  - intros Hk. apply Forall2_mapM_Ok. eapply Forall2_impl; [exact Hk|].
    intros id k. apply bigint_param_Ok.
Qed.

Lemma saveCumulativeQuiz_run quiz w :
  saveCumulativeQuiz quiz w =
  match pool_query (pool w)
          (UpsertCumulativeQuiz (cq_eventId quiz) (cq_language quiz))
          (upsert quiz) with
  | Throw message => (Throw message, w)
  | Ok db =>
      (Ok (), {| pool := {| tables := db; fault := fault (pool w) |};
                 cache := <[cacheKey (cq_eventId quiz) (cq_language quiz)
                            := quiz]> (cache w);
                 DEFAULT_MODEL := DEFAULT_MODEL w |})
  end.
Proof. unfold saveCumulativeQuiz. by destruct (pool_query _ _ _). Qed.

(** A read served by the fast cache. *)
Lemma getCachedQuiz_hit eventId language w quiz :
  cache w !! cacheKey eventId language = Some quiz →
  getCachedQuiz eventId language w = (Ok (Some quiz), w).
Proof.
  intros Hc. unfold getCachedQuiz, mbind, io_bind, cache_get. by rewrite Hc.
Qed.

(** A read that has to go to the durable store. *)
Lemma getCachedQuiz_miss eventId language w :
  cache w !! cacheKey eventId language = None →
  getCachedQuiz eventId language w =
  match pool_query (pool w) (SelectCumulativeQuiz eventId language)
          (select_cumulative_quiz eventId language) with
  | Throw message => (Throw message, w)
  | Ok None => (Ok None, w)
  | Ok (Some row) =>
      (Ok (Some row),
       {| pool := pool w;
          cache := <[cacheKey eventId language := row]> (cache w);
          DEFAULT_MODEL := DEFAULT_MODEL w |})
  end.
Proof.
  intros Hc.
  unfold getCachedQuiz, mbind, io_bind, cache_get, query, cache_set, mret,
    io_ret, result_ret.
  rewrite Hc. by destruct (pool_query (pool w) _ _) as [[row|]|].
Qed.

(** Whatever [getCachedQuiz] returns is in the fast cache afterwards. *)
Lemma getCachedQuiz_cached eventId language w quiz w' :
  getCachedQuiz eventId language w = (Ok (Some quiz), w') →
  cache w' !! cacheKey eventId language = Some quiz.
Proof.
  destruct (cache w !! cacheKey eventId language) as [q|] eqn:Hc.
  - rewrite (getCachedQuiz_hit _ _ _ _ Hc). by intros [= <- <-].
  - rewrite (getCachedQuiz_miss _ _ _ Hc).
    destruct (pool_query (pool w) _ _) as [[row|]|]; [|done|done].
    intros [= <- <-]. simpl. apply lookup_insert_eq.
Qed.

Lemma colon_split e1 e2 l1 l2 :
  colon_free e1 = true → colon_free e2 = true →
  e1 +:+ ":" +:+ l1 = e2 +:+ ":" +:+ l2 → e1 = e2 ∧ l1 = l2.
Proof.
  revert e2. induction e1 as [|c1 e1 IH]; intros [|c2 e2]; simpl;
    rewrite ?append_cons, ?append_nil_l.
  - by intros _ _ [= ->].
  - intros _ Hc [= <- _]. done.
  - intros Hc _ [= -> _]. done.
  - intros Hc1 Hc2 [= -> Heq].
    apply andb_true_iff in Hc1 as [_ Hc1], Hc2 as [_ Hc2].
    by destruct (IH e2 Hc1 Hc2 Heq) as [-> ->].
Qed.

(** Two videos, or two languages of a video, never share a cache entry. *)
Lemma cacheKey_inj e1 l1 e2 l2 :
  colon_free e1 = true → colon_free e2 = true →
  cacheKey e1 l1 = cacheKey e2 l2 → e1 = e2 ∧ l1 = l2.
Proof.
  unfold cacheKey. intros Hc1 Hc2 Heq.
  rewrite !append_cons, !append_nil_l in Heq.
  repeat injection Heq as Heq. by apply colon_split.
Qed.

(** X1. A failed save changes nothing.  A quiz that [saveCumulativeQuiz]
    has stored is what [getCachedQuiz] returns for its video and language
    while the entry is in the fast cache.  The row is stored under the key
    its id denotes: once the entry has gone, and the language fits its
    column, [getCachedQuiz], asked under any text of that key, reads the
    durable row instead and caches it again; the quiz it makes of the row
    has the texts of the keys of the video and of the members, the video
    count and the timing of the saved quiz, and the series and the model of
    the row that was there before, if there was one. *)
Theorem saved_quiz_is_found quiz w :
  (∀ message w', saveCumulativeQuiz quiz w = (Throw message, w') → w' = w)
  ∧ ∀ w',
      saveCumulativeQuiz quiz w = (Ok (), w') →
      getCachedQuiz (cq_eventId quiz) (cq_language quiz) w'
      = (Ok (Some quiz), w')
      ∧ ∃ event_id series_id included,
          denotes (cq_eventId quiz) event_id
          ∧ denotes (cq_seriesId quiz) series_id
          ∧ Forall2 denotes (cq_includedEventIds quiz) included
          ∧ ∀ eventId w2,
              denotes eventId event_id →
              pool w2 = pool w' →
              cache w2 !! cacheKey eventId (cq_language quiz) = None →
              (char_length (cq_language quiz) ≤ 10)%nat →
              fault (pool w)
                (SelectCumulativeQuiz eventId (cq_language quiz)) = None →
              ∃ row w3,
                getCachedQuiz eventId (cq_language quiz) w2
                = (Ok (Some row), w3)
                ∧ cache w3 !! cacheKey eventId (cq_language quiz) = Some row
                ∧ cq_eventId row = int8out event_id
                ∧ cq_language row = cq_language quiz
                ∧ cq_includedEventIds row = int8out <$> included
                ∧ cq_videoCount row = cq_videoCount quiz
                ∧ cq_processingTimeMs row = cq_processingTimeMs quiz
                ∧ match ai_cumulative_quizzes (tables (pool w))
                          !! (event_id, cq_language quiz) with
                  | Some old =>
                      cq_seriesId row = int8out (row_series_id old)
                      ∧ cq_model row = row_model old
                  | None =>
                      cq_seriesId row = int8out series_id
                      ∧ varchar 50 (cq_model quiz) = Ok (cq_model row)
                  end.
Proof.
  rewrite saveCumulativeQuiz_run.
  destruct (pool_query (pool w) _ (upsert quiz)) as [db|m] eqn:Hq.
  2:{ split; [by intros ? ? [= _ <-] | done]. }
  split; [done|]. intros w' [= <-]. split.
  { apply getCachedQuiz_hit. simpl. apply lookup_insert_eq. }
  apply pool_query_Ok in Hq as [_ Hup].
  apply upsert_Ok_inv in Hup
    as (event_id & series_id & included & language & row & Hevent & Hseries
        & Hincluded & Hlang & _ & _ & _ & Hrows & Hids & Hquestions & Hcount
        & Hms & _ & Hold).
  exists event_id, series_id, included.
  split_and!; [done | done | by apply mapM_bigint_param_Ok |].
  intros eventId w2 Hid Hpool Hgone Hlen Hfault.
  apply varchar_fits in Hlang as ->; [|done].
  rewrite (getCachedQuiz_miss _ _ _ Hgone), Hpool. unfold pool_query. simpl.
  rewrite Hfault. unfold select_cumulative_quiz.
  rewrite (bigint_param_denoted _ _ Hid). simpl.
  rewrite Hrows, lookup_insert_eq. simpl.
  eexists _, _. split; [reflexivity|]. simpl.
  rewrite lookup_insert_eq, Hids, Hcount, Hms.
  split_and!; try done.
  destruct (ai_cumulative_quizzes (tables (pool w))
              !! (event_id, cq_language quiz));
    destruct Hold as [-> ?]; by split.
Qed.

(** X2. Saving the quiz of one video and language leaves what
    [getCachedQuiz] returns for every other video or language as it was:
    for every request whose language is another one, or whose id does not
    denote the key of the saved quiz. *)
Theorem save_leaves_other_quizzes quiz w w' eventId language :
  saveCumulativeQuiz quiz w = (Ok (), w') →
  colon_free (cq_eventId quiz) = true → colon_free eventId = true →
  (char_length (cq_language quiz) ≤ 10)%nat →
  (int8in eventId, language)
  ≠ (int8in (cq_eventId quiz), cq_language quiz) →
  (getCachedQuiz eventId language w').1 = (getCachedQuiz eventId language w).1.
Proof.
  rewrite saveCumulativeQuiz_run.
  destruct (pool_query (pool w) _ (upsert quiz)) as [db|m] eqn:Hq; [|done].
  intros [= <-] Hc1 Hc2 Hlen Hne.
  apply pool_query_Ok in Hq as [_ Hup].
  apply upsert_Ok_inv in Hup
    as (event_id & series_id & included & lang & row & Hevent & _ & _ & Hlang
        & _ & _ & _ & Hrows & _).
  apply varchar_fits in Hlang as ->; [|done].
  assert (Hkey : cacheKey (cq_eventId quiz) (cq_language quiz)
                 ≠ cacheKey eventId language).
  { intros Heq. apply cacheKey_inj in Heq as [He Hl]; [|done|done].
    apply Hne. by rewrite He, Hl. }
  destruct (cache w !! cacheKey eventId language) as [q|] eqn:Hc.
  - rewrite (getCachedQuiz_hit _ _ w q Hc).
    rewrite (getCachedQuiz_hit _ _ _ q); [done|].
    simpl. by rewrite lookup_insert_ne.
  - rewrite (getCachedQuiz_miss _ _ w Hc), getCachedQuiz_miss
      by (simpl; by rewrite lookup_insert_ne).
    unfold pool_query. simpl.
    destruct (fault (pool w) _); [done|].
    unfold select_cumulative_quiz.
    destruct (bigint_param eventId) as [k|m] eqn:Hk; simpl; [|done].
    apply bigint_param_Ok in Hk.
    rewrite Hrows, lookup_insert_ne.
    + by destruct (ai_cumulative_quizzes (tables (pool w)) !! _).
    + intros [= Hsame Hl]. apply Hne.
      unfold denotes in Hk, Hevent. by rewrite Hk, Hevent, Hsame, Hl.
Qed.

End StoreFacts.

(** ** A request as a whole *)

Section RequestFacts.
Context `{JsNumber} `{SqlBigint}.

Lemma differ_at_most_at_refl eventId p : differ_at_most_at eventId p p.
Proof. by repeat split. Qed.

(** Steps 2 to 6: the reads leave the world as it is, the save comes last. *)
Lemma produce_assemble eventId language startTime now w :
  produce eventId language startTime now w =
  match assemble (pool w) (DEFAULT_MODEL w) eventId language startTime now with
  | Throw message => (Throw message, w)
  | Ok quiz =>
      match saveCumulativeQuiz quiz w with
      | (Ok _, w') => (Ok quiz, w')
      | (Throw message, w') => (Throw message, w')
      end
  end.
Proof.
  unfold produce, assemble, mbind, io_bind, query, throw.
  destruct (query_series_event (pool w) eventId)
    as [[|event rest]|m]; simpl; [done| |done].
  destruct (getSeriesEventsUpTo (pool w) (anchor_series event) eventId)
    as [seriesEvents|m]; simpl; [|done].
  case_bool_decide; [done|].
  destruct (mapM _ seriesEvents) as [individualQuizzes|m]; simpl; [|done].
  destruct (combineQuizzes individualQuizzes seriesEvents) as [questions|m];
    simpl; [|done].
  by destruct (saveCumulativeQuiz _ w) as [[[]|m] w'].
Qed.

Lemma saveCumulativeQuiz_footprint quiz w r w' :
  saveCumulativeQuiz quiz w = (r, w') →
  differ_at_most_at (cq_eventId quiz) (pool w) (pool w')
  ∧ DEFAULT_MODEL w' = DEFAULT_MODEL w
  ∧ (∀ message, r = Throw message → w' = w).
Proof.
  rewrite saveCumulativeQuiz_run.
  destruct (pool_query (pool w) _ (upsert quiz)) as [db|m] eqn:Hq.
  2:{ intros [= <- <-]. split_and!; [apply differ_at_most_at_refl|done..]. }
  intros [= <- <-]. split_and!; [|done|done].
  apply pool_query_Ok in Hq as [_ Hup].
  apply upsert_Ok_inv in Hup
    as (event_id & series_id & included & lang & row & Hevent & _ & _ & _
        & Hev & Hse & Hqz & Hrows & _).
  unfold differ_at_most_at. simpl. split_and!; [done..|].
  intros [e l] Hkey. simpl in Hkey. rewrite Hrows.
  apply lookup_insert_ne. congruence.
Qed.

Lemma assemble_eventId p env eventId language startTime now quiz :
  assemble p env eventId language startTime now = Ok quiz →
  cq_eventId quiz = eventId ∧ cq_language quiz = language.
Proof.
  unfold assemble. intros Ha.
  apply bind_Ok in Ha as ([|event rest] & _ & Ha); [done|].
  apply bind_Ok in Ha as (seriesEvents & _ & Ha).
  case_bool_decide; [done|].
  apply bind_Ok in Ha as (individualQuizzes & _ & Ha).
  apply bind_Ok in Ha as (questions & _ & [= <-]). done.
Qed.

Lemma produce_footprint eventId language startTime now w r w' :
  produce eventId language startTime now w = (r, w') →
  differ_at_most_at eventId (pool w) (pool w')
  ∧ DEFAULT_MODEL w' = DEFAULT_MODEL w
  ∧ (∀ message, r = Throw message → w' = w)
  ∧ (∀ quiz, r = Ok quiz →
       cache w' !! cacheKey eventId language = Some quiz).
Proof.
  rewrite produce_assemble.
  destruct (assemble _ _ _ _ _ _) as [quiz|m] eqn:Ha.
  2:{ intros [= <- <-].
      split_and!; [apply differ_at_most_at_refl|done..]. }
  apply assemble_eventId in Ha as [He Hl].
  destruct (saveCumulativeQuiz quiz w) as [[[]|m] w1] eqn:Hsave;
    intros [= <- <-];
    pose proof (saveCumulativeQuiz_footprint _ _ _ _ Hsave) as (Hd & Henv & Hw);
    rewrite He in Hd.
  - split_and!; [done | done | done |]. intros q [= <-].
    rewrite saveCumulativeQuiz_run in Hsave.
    destruct (pool_query _ _ _); [|done]. injection Hsave as <-. simpl.
    rewrite He, Hl. apply lookup_insert_eq.
  - split_and!; [done | done | | done]. intros ? _. by eapply Hw.
Qed.

Lemma cache_step_served eventId language forceRegenerate w quiz w1 :
  cache_step eventId language forceRegenerate w = (Ok (Some quiz), w1) →
  forceRegenerate = false
  ∧ cache w1 !! cacheKey eventId language = Some quiz
  ∧ isCacheValid (pool w1) quiz = Ok true.
Proof.
  unfold cache_step. destruct forceRegenerate; [done|].
  unfold mbind, io_bind.
  destruct (getCachedQuiz eventId language w) as [[[q|]|e] w2] eqn:Hc;
    [|done|done].
  unfold query, mret, io_ret.
  destruct (isCacheValid (pool w2) q) as [[]|] eqn:Hv; [|done|done].
  intros [= <- <-]. split_and!; [done| |done].
  by eapply getCachedQuiz_cached.
Qed.

Lemma cache_step_hit eventId language w quiz :
  cache w !! cacheKey eventId language = Some quiz →
  isCacheValid (pool w) quiz = Ok true →
  cache_step eventId language false w = (Ok (Some quiz), w).
Proof.
  intros Hc Hv. unfold cache_step, mbind, io_bind.
  rewrite (getCachedQuiz_hit _ _ _ _ Hc). unfold query. by rewrite Hv.
Qed.

(** The resolver reads the events, and nothing else. *)
Lemma getSeriesEventsUpTo_ext p1 p2 seriesId upToEventId :
  all_events (tables p1) = all_events (tables p2) →
  fault p1 (SelectSeriesEventsUpTo seriesId upToEventId)
  = fault p2 (SelectSeriesEventsUpTo seriesId upToEventId) →
  getSeriesEventsUpTo p1 seriesId upToEventId
  = getSeriesEventsUpTo p2 seriesId upToEventId.
Proof.
  intros Hev Hfault. rewrite !getSeriesEventsUpTo_unfold, Hfault.
  unfold ordered_events, ordered_rows. by rewrite Hev.
Qed.

(** X3. Whatever a request to [generateCumulativeQuiz] does, it leaves the
    events, the series, the per-video quizzes and the stored cumulative
    quizzes of every other video (every key the id of the request does not
    denote) as they were; a request that fails leaves
    the whole durable store as it was (the only write is the insert of step
    6, and the fast cache, which is in memory, takes the quiz after it
    without failing); a request that returns a quiz leaves that quiz in the
    fast cache. *)
Theorem generate_footprint eventId language forceRegenerate startTime now
    w r w' :
  generateCumulativeQuiz eventId language forceRegenerate startTime now w
    = (r, w') →
  differ_at_most_at eventId (pool w) (pool w')
  ∧ DEFAULT_MODEL w' = DEFAULT_MODEL w
  ∧ (∀ message, r = Throw message → pool w' = pool w)
  ∧ (∀ quiz, r = Ok quiz →
       cache w' !! cacheKey eventId language = Some quiz).
Proof.
  rewrite generateCumulativeQuiz_steps. unfold mbind at 1, io_bind.
  destruct (cache_step eventId language forceRegenerate w)
    as [[[quiz|]|m] w1] eqn:Hstep;
    pose proof (cache_step_pool _ _ _ _ _ _ Hstep) as Hpool;
    pose proof (cache_step_env _ _ _ _ _ _ Hstep) as Henv.
  - intros [= <- <-]. rewrite Hpool.
    split_and!; [apply differ_at_most_at_refl | done | done |].
    intros q [= <-]. by apply cache_step_served in Hstep as (_ & ? & _).
  - intros Hrun. apply produce_footprint in Hrun as (Hd & He & Hw & Hc).
    rewrite <- Hpool, <- Henv. split_and!; [done | done | | done].
    intros m Hm. by rewrite (Hw m Hm).
  - intros [= <- <-]. rewrite Hpool.
    split_and!; [apply differ_at_most_at_refl | done | done | done].
Qed.

(** X4. A request repeated at once is answered from the fast cache: in the
    state [generateCumulativeQuiz] leaves behind when it has returned a
    quiz, a request for the same video and language that does not force
    regeneration returns the same quiz, with the timing of the first
    request, and changes nothing. *)
Theorem generate_again_serves_same eventId language forceRegenerate
    startTime now w quiz w' :
  generateCumulativeQuiz eventId language forceRegenerate startTime now w
    = (Ok quiz, w') →
  ∀ startTime' now',
    generateCumulativeQuiz eventId language false startTime' now' w'
    = (Ok quiz, w').
Proof.
  intros Hrun startTime' now'.
  assert (Hserved : cache_step eventId language false w'
                    = (Ok (Some quiz), w')).
  { revert Hrun. rewrite generateCumulativeQuiz_steps.
    unfold mbind at 1, io_bind.
    destruct (cache_step eventId language forceRegenerate w)
      as [[[q|]|m] w1] eqn:Hstep; [| |done].
    - intros [= <- <-].
      apply cache_step_served in Hstep as (_ & Hc & Hv).
      by apply cache_step_hit.
    - intros Hrun.
      pose proof (produce_footprint _ _ _ _ _ _ _ Hrun)
        as ((Hev & _ & _ & Hfault & _) & _ & _ & Hc).
      apply produce_Ok in Hrun
        as (event & rest & seriesEvents & quizzes & _ & _ & Hresolved & _
            & _ & _ & He & Hs & _ & Hids & _).
      apply cache_step_hit; [by apply Hc|].
      rewrite isCacheValid_unfold, Hs, He.
      rewrite (getSeriesEventsUpTo_ext (pool w') (pool w1))
        by (by rewrite ?Hfault).
      rewrite Hresolved, Hids. by rewrite bool_decide_eq_true_2. }
  rewrite generateCumulativeQuiz_steps.
  by rewrite (io_bind_step _ _ _ _ _ Hserved).
Qed.

Lemma mapM_ext {A B} (f g : A → result B) (l : list A) :
  (∀ x, f x = g x) → mapM f l = mapM g l.
Proof.
  intros Hfg. induction l as [|x l IH]; simpl; [done|]. by rewrite Hfg, IH.
Qed.

(** A per-video fetch reads the per-video quizzes, and nothing else. *)
Lemma getOrGenerateIndividualQuiz_ext p1 p2 eventId language :
  ai_quizzes (tables p1) = ai_quizzes (tables p2) →
  fault p1 (SelectQuizData eventId language)
  = fault p2 (SelectQuizData eventId language) →
  getOrGenerateIndividualQuiz p1 eventId language
  = getOrGenerateIndividualQuiz p2 eventId language.
Proof.
  intros Hq Hfault.
  unfold getOrGenerateIndividualQuiz, pool_query, select_quiz_data.
  by rewrite Hfault, Hq.
Qed.

Lemma assemble_ext p1 p2 env eventId language startTime now :
  all_events (tables p1) = all_events (tables p2) →
  ai_quizzes (tables p1) = ai_quizzes (tables p2) →
  fault p1 = fault p2 →
  assemble p1 env eventId language startTime now
  = assemble p2 env eventId language startTime now.
Proof.
  intros Hev Hq Hfault.
  unfold assemble, query_series_event, pool_query, select_series_event.
  rewrite Hfault, Hev.
  destruct (fault p2 (SelectSeriesEvent eventId)); [done|].
  destruct (bigint_param eventId); simpl; [|done].
  destruct (omap _ (all_events (tables p2))) as [|event rest]; [done|].
  rewrite (getSeriesEventsUpTo_ext p1 p2) by (by rewrite ?Hfault).
  destruct (getSeriesEventsUpTo p2 _ _) as [seriesEvents|]; simpl; [|done].
  case_bool_decide; [done|].
  rewrite (mapM_ext _ (λ e, getOrGenerateIndividualQuiz p2 (se_id e) language));
    [done|].
  intros e. apply getOrGenerateIndividualQuiz_ext; by rewrite ?Hfault.
Qed.

(** Whether a row is accepted depends on the row, not on the table. *)
Lemma upsert_alike quiz db1 db2 :
  match upsert quiz db1 with
  | Ok _ => ∃ db, upsert quiz db2 = Ok db
  | Throw message => upsert quiz db2 = Throw message
  end.
Proof.
  unfold upsert.
  destruct (bigint_param (cq_eventId quiz)); simpl; [|done].
  destruct (bigint_param (cq_seriesId quiz)); simpl; [|done].
  destruct (int4 (cq_processingTimeMs quiz)); simpl; [|done].
  destruct (mapM bigint_param (cq_includedEventIds quiz)); simpl; [|done].
  destruct (int4 (Z.of_nat (cq_videoCount quiz))); simpl; [|done].
  destruct (varchar 10 (cq_language quiz)); simpl; [|done].
  destruct (varchar 50 (cq_model quiz)); simpl; [|done].
  case_bool_decide; eauto.
Qed.

(** X5. A request that forces regeneration answers from the events, the
    per-video quizzes, the environment and the clock alone: neither the fast
    cache nor the cumulative quizzes stored before have a part in what it
    returns or in whether it fails. *)
Theorem forced_regeneration_ignores_stored eventId language startTime now
    w1 w2 :
  all_events (tables (pool w1)) = all_events (tables (pool w2)) →
  ai_quizzes (tables (pool w1)) = ai_quizzes (tables (pool w2)) →
  fault (pool w1) = fault (pool w2) →
  DEFAULT_MODEL w1 = DEFAULT_MODEL w2 →
  (generateCumulativeQuiz eventId language true startTime now w1).1
  = (generateCumulativeQuiz eventId language true startTime now w2).1.
Proof.
  intros Hev Hq Hfault Henv.
  rewrite !generateCumulativeQuiz_steps.
  change (cache_step eventId language true)
    with (@mret io _ (option CumulativeQuiz) None).
  unfold mbind, io_bind, mret, io_ret.
  rewrite !produce_assemble, Henv.
  rewrite (assemble_ext (pool w1) (pool w2)) by done.
  destruct (assemble (pool w2) _ _ _ _ _) as [quiz|m]; [|done].
  rewrite !saveCumulativeQuiz_run. unfold pool_query. rewrite Hfault.
  destruct (fault (pool w2) _); [done|].
  pose proof (upsert_alike quiz (tables (pool w1)) (tables (pool w2))) as Hup.
  destruct (upsert quiz (tables (pool w1))) as [db1|m].
  - destruct Hup as [db2 ->]. done.
  - by rewrite Hup.
Qed.

End RequestFacts.

(** ** The resolver when the series changes *)

Section StableInsertion.
Context {A : Type} (le : A → A → bool).
Hypothesis le_total : ∀ x y, le x y = true ∨ le y x = true.
Hypothesis le_trans : Transitive (λ a b, le a b = true).

Lemma insert_by_split (x : A) (l : list A) :
  ∃ pre post, l = pre ++ post ∧ insert_by le x l = pre ++ x :: post.
Proof.
  induction l as [|y l (pre & post & -> & IH)]; simpl.
  - by exists [], [].
  - destruct (le x y).
    + by exists [], (y :: pre ++ post).
    + exists (y :: pre), post. by rewrite IH.
Qed.

(** Inserting into a sorted list with or without one of its elements finds
    the same place. *)
Lemma insert_by_around (a x : A) (pre post : list A) :
  Sorted (λ a b, le a b = true) (pre ++ x :: post) →
  ∃ pre' post',
    insert_by le a (pre ++ post) = pre' ++ post'
    ∧ insert_by le a (pre ++ x :: post) = pre' ++ x :: post'.
Proof.
  induction pre as [|y pre IH]; simpl; intros Hs.
  - destruct (le a x) eqn:Hax.
    + exists [a], post. split; [|done].
      destruct post as [|z post]; simpl; [done|].
      apply Sorted_inv in Hs as [_ Hxz]. apply HdRel_inv in Hxz.
      by rewrite (le_trans a x z Hax Hxz).
    + by exists [], (insert_by le a post).
  - destruct (le a y).
    + by exists (a :: y :: pre), post.
    + apply Sorted_inv in Hs as [Hs _].
      destruct (IH Hs) as (pre' & post' & -> & ->).
      by exists (y :: pre'), post'.
Qed.

(** A stable sort places one more element without moving the others. *)
Lemma sort_by_with_extra (l1 : list A) (x : A) (l2 : list A) :
  ∃ pre post,
    sort_by le (l1 ++ l2) = pre ++ post
    ∧ sort_by le (l1 ++ x :: l2) = pre ++ x :: post.
Proof.
  induction l1 as [|a l1 (pre & post & Hwithout & Hwith)]; simpl.
  - destruct (insert_by_split x (sort_by le l2)) as (pre & post & Hl & Hins).
    exists pre, post. by rewrite Hins, Hl.
  - rewrite Hwithout, Hwith. apply insert_by_around.
    rewrite <- Hwith. by apply sort_by_Sorted.
Qed.
End StableInsertion.

Lemma mapM_with_extra {A B} (f : A → result B) (l1 : list A) x y l2 :
  f x = Ok y →
  match mapM f (l1 ++ l2) with
  | Ok k => ∃ k1 k2, k = k1 ++ k2 ∧ mapM f (l1 ++ x :: l2) = Ok (k1 ++ y :: k2)
  | Throw message => mapM f (l1 ++ x :: l2) = Throw message
  end.
Proof.
  intros Hx. induction l1 as [|a l1 IH]; simpl.
  - rewrite Hx. simpl. destruct (mapM f l2) as [k|m]; simpl; [|done].
    by exists [], k.
  - destruct (f a) as [b|m]; simpl; [|done].
    destruct (mapM f (l1 ++ l2)) as [k|m]; simpl.
    + destruct IH as (k1 & k2 & -> & ->). simpl. by exists (b :: k1), k2.
    + by rewrite IH.
Qed.

Lemma mapM_Throw_elem {A B} (f : A → result B) (l : list A) x message :
  x ∈ l → f x = Throw message → ∃ message', mapM f l = Throw message'.
Proof.
  intros Hx Hfx. induction l as [|a l IH]; [by apply elem_of_nil in Hx|].
  simpl. apply elem_of_cons in Hx as [<-|Hx].
  - rewrite Hfx. simpl. eauto.
  - destruct (f a) as [b|m]; simpl; [|eauto].
    destruct (IH Hx) as [m ->]. simpl. eauto.
Qed.

Section ResolverChange.
Context `{JsNumber} `{SqlBigint}.

Lemma ordered_rows_rejects db seriesId e message :
  e ∈ all_events db → series_member seriesId e →
  order_key e = Throw message →
  ∃ message', ordered_rows db seriesId = Throw message'.
Proof.
  intros He Hm Hkey. unfold ordered_rows.
  destruct (mapM_Throw_elem keyed
              (filter (series_member seriesId) (all_events db)) e message)
    as [m ->]; [by apply list_elem_of_filter | | by eauto].
  unfold keyed. by rewrite Hkey.
Qed.

Lemma getSeriesEventsUpTo_rejects p seriesId upToEventId e message :
  e ∈ all_events (tables p) → series_member seriesId e →
  order_key e = Throw message →
  ∃ message', getSeriesEventsUpTo p seriesId upToEventId = Throw message'.
Proof.
  intros He Hm Hkey. rewrite getSeriesEventsUpTo_unfold.
  destruct (fault p _); [eauto|].
  destruct (bigint_param seriesId); simpl; [|eauto].
  destruct (bigint_param upToEventId); simpl; [|eauto].
  rewrite ordered_events_rows.
  destruct (ordered_rows_rejects _ _ _ _ He Hm Hkey) as [m ->]. simpl. eauto.
Qed.

(** X6. One ready video whose order text is no integer of the column's
    range makes the ordering query fail for its whole series: the resolver
    rejects every anchor, the guard reports every stored quiz of the series
    as invalid, [checkEligibility] of a video of the series that has a quiz
    reports the failure, and a forced [generateCumulativeQuiz] for a video
    of the series fails and changes nothing. *)
Theorem malformed_hint_blocks_series p seriesId e message :
  e ∈ all_events (tables p) → series_member seriesId e →
  order_key e = Throw message →
  (∀ upToEventId,
     ∃ message', getSeriesEventsUpTo p seriesId upToEventId = Throw message')
  ∧ (∀ quiz, cq_seriesId quiz = seriesId → isCacheValid p quiz = Ok false)
  ∧ (∀ eventId language event rest row rows,
       query_event p eventId = Ok (event :: rest) →
       ej_series event = Some seriesId →
       query_quiz_id p eventId language = Ok (row :: rows) →
       ∃ message',
         checkEligibility p eventId language
         = Ok {| eligible := false; reason := reason_error message';
                 details := None |})
  ∧ (∀ w eventId language startTime now event rest,
       pool w = p →
       select_series_event eventId (tables p) = event :: rest →
       anchor_series event = seriesId →
       ∃ message',
         generateCumulativeQuiz eventId language true startTime now w
         = (Throw message', w)).
Proof.
  intros He Hm Hkey. split_and!.
  - intros upToEventId. by eapply getSeriesEventsUpTo_rejects.
  - intros quiz <-. rewrite isCacheValid_unfold.
    by destruct (getSeriesEventsUpTo_rejects p (cq_seriesId quiz)
                   (cq_eventId quiz) e message He Hm Hkey) as [m ->].
  - intros eventId language event rest row rows Hevent Hseries Hquiz.
    unfold checkEligibility, checkEligibility_try.
    rewrite Hevent. simpl. rewrite Hseries, Hquiz. simpl.
    unfold query_positions, pool_query, select_positions.
    destruct (fault p (SelectPositions seriesId)); simpl; [eauto|].
    destruct (bigint_param seriesId); simpl; [|eauto].
    rewrite ordered_events_rows.
    destruct (ordered_rows_rejects _ _ _ _ He Hm Hkey) as [m ->]. simpl. eauto.
  - intros w eventId language startTime now event rest <- Hevent Hseries.
    rewrite generateCumulativeQuiz_steps.
    change (cache_step eventId language true)
      with (@mret io _ (option CumulativeQuiz) None).
    unfold mbind, io_bind, mret, io_ret. rewrite produce_assemble.
    unfold assemble, query_series_event, pool_query.
    destruct (fault (pool w) (SelectSeriesEvent eventId)); simpl; [eauto|].
    destruct (bigint_param eventId); simpl; [|eauto].
    rewrite Hevent, Hseries.
    destruct (getSeriesEventsUpTo_rejects (pool w) seriesId eventId e message
                He Hm Hkey) as [m ->]. simpl. eauto.
Qed.

Lemma sort_key_lt_not_le a b : sort_key_lt a b → ¬ sort_key_le b a.
Proof. unfold sort_key_lt, sort_key_le. lia. Qed.

Lemma take_imap_app_l {A B} (f : nat → A → B) (l1 l2 l3 : list A) n :
  (n ≤ length l1)%nat →
  take n (imap f (l1 ++ l2)) = take n (imap f (l1 ++ l3)).
Proof.
  intros Hn. apply list_eq. intros i.
  destruct (decide (i < n)%nat) as [Hi|Hi].
  - rewrite !lookup_take_lt, !list_lookup_imap, !lookup_app_l by lia. done.
  - rewrite !lookup_take_ge by lia. done.
Qed.

(** The resolver's answer for an anchor whose row is at index [j]. *)
Lemma resolver_prefix db seriesId rows j k anchor :
  NoDup (ev_id <$> all_events db) →
  ordered_rows db seriesId = Ok rows →
  rows !! j = Some (k, anchor) →
  (λ ordered, sort_by position_leb (up_to (ev_id anchor) ordered))
    <$> ordered_events db seriesId
  = Ok (take (S j) (imap numbered rows)).
Proof.
  intros Hnd Hrows Hj.
  assert (Hordered : ordered_events db seriesId = Ok (imap numbered rows)).
  { by rewrite ordered_events_rows, Hrows. }
  rewrite Hordered. simpl. f_equal.
  apply (up_to_prefix _ _ j (numbered j (k, anchor))).
  - by eapply ordered_events_numbered.
  - by eapply ordered_events_NoDup_keys.
  - by rewrite list_lookup_imap, Hj.
  - by apply denotes_out.
Qed.

(** X7. A video that is added to the table leaves the resolver's answer
    for an anchor as it was when the new video is not a ready video of the
    anchor's series, or is ordered strictly after the anchor; a stored quiz
    of that anchor then keeps its standing with the guard. *)
Theorem later_video_keeps_members p p' seriesId anchor ka c kc l1 l2 :
  all_events (tables p) = l1 ++ l2 →
  all_events (tables p') = l1 ++ c :: l2 →
  fault p' = fault p →
  NoDup (ev_id <$> all_events (tables p')) →
  anchor ∈ all_events (tables p) → series_member seriesId anchor →
  order_key anchor = Ok ka →
  ¬ series_member seriesId c
  ∨ (order_key c = Ok kc ∧ sort_key_lt (ka, anchor) (kc, c)) →
  getSeriesEventsUpTo p' seriesId (ev_id anchor)
  = getSeriesEventsUpTo p seriesId (ev_id anchor)
  ∧ ∀ quiz, cq_seriesId quiz = seriesId → cq_eventId quiz = ev_id anchor →
            isCacheValid p' quiz = isCacheValid p quiz.
Proof.
  intros Hdb Hdb' Hfault Hnd' Ha Ham Hka Hc.
  assert (Hresolver : getSeriesEventsUpTo p' seriesId (ev_id anchor)
                      = getSeriesEventsUpTo p seriesId (ev_id anchor)).
  2:{ split; [done|]. intros quiz <- Hid.
      by rewrite !isCacheValid_unfold, Hid, Hresolver. }
  rewrite !getSeriesEventsUpTo_unfold, Hfault.
  destruct (fault p _); [done|].
  destruct (bigint_param seriesId) as [series|]; simpl; [|done].
  destruct (bigint_param (ev_id anchor)) as [target|]; simpl; [|done].
  destruct Hc as [Hout|[Hkc Hlater]].
  { unfold ordered_events, ordered_rows.
    by rewrite Hdb, Hdb', !filter_app, filter_cons_False. }
  assert (Hnd : NoDup (ev_id <$> all_events (tables p))).
  { apply (sublist_NoDup _ (ev_id <$> all_events (tables p'))); [done|].
    rewrite Hdb, Hdb'. apply fmap_sublist, sublist_app; [done|].
    by apply sublist_cons. }
  destruct (decide (series_member seriesId c)) as [Hmember|Hout].
  2:{ unfold ordered_events, ordered_rows.
      by rewrite Hdb, Hdb', !filter_app, filter_cons_False. }
  pose proof (mapM_with_extra keyed
                (filter (series_member seriesId) l1) c (kc, c)
                (filter (series_member seriesId) l2)) as Hkeys.
  unfold keyed at 1 in Hkeys. rewrite Hkc in Hkeys. specialize (Hkeys eq_refl).
  assert (Hrows' : ordered_rows (tables p') seriesId
                   = rows ← mapM keyed
                              (filter (series_member seriesId) l1
                               ++ c :: filter (series_member seriesId) l2);
                     mret (sort_by sort_key_leb rows)).
  { unfold ordered_rows. by rewrite Hdb', filter_app, filter_cons_True. }
  assert (Hrows : ordered_rows (tables p) seriesId
                  = rows ← mapM keyed
                             (filter (series_member seriesId) l1
                              ++ filter (series_member seriesId) l2);
                    mret (sort_by sort_key_leb rows)).
  { unfold ordered_rows. by rewrite Hdb, filter_app. }
  destruct (mapM keyed (filter (series_member seriesId) l1
                        ++ filter (series_member seriesId) l2))
    as [ks|m] eqn:Hks.
  2:{ rewrite !ordered_events_rows, Hrows, Hrows', Hkeys. done. }
  destruct Hkeys as (k1 & k2 & -> & Hks').
  destruct (sort_by_with_extra sort_key_leb sort_key_leb_total
              sort_key_leb_trans k1 (kc, c) k2)
    as (pre & post & Hsorted & Hsorted').
  rewrite Hks' in Hrows'. simpl in Hrows, Hrows'.
  rewrite Hsorted in Hrows. rewrite Hsorted' in Hrows'.
  assert (Hin : (ka, anchor) ∈ pre ++ post).
  { destruct (ordered_rows_spec _ _ _ Hrows) as (Hperm & Hkeyed & _).
    assert (Hsnd : anchor ∈ (pre ++ post).*2).
    { rewrite Hperm. by apply list_elem_of_filter. }
    apply list_elem_of_fmap in Hsnd as ([k a] & -> & Hr).
    eapply Forall_forall in Hkeyed; [|exact Hr]. simpl in *.
    rewrite Hka in Hkeyed. by injection Hkeyed as ->. }
  assert (Hpre : (ka, anchor) ∈ pre).
  { apply elem_of_app in Hin as [|Hpost]; [done|]. exfalso.
    destruct (ordered_rows_spec _ _ _ Hrows') as (_ & _ & Hs).
    apply StronglySorted_app_1_r in Hs.
    apply StronglySorted_inv in Hs as [_ Hall].
    eapply Forall_forall in Hall; [|exact Hpost].
    by apply (sort_key_lt_not_le _ _ Hlater). }
  apply list_elem_of_lookup in Hpre as [j Hj].
  pose proof (lookup_lt_Some _ _ _ Hj) as Hlt.
  rewrite (resolver_prefix (tables p') seriesId (pre ++ (kc, c) :: post) j
             ka anchor Hnd' Hrows') by (by apply lookup_app_l_Some).
  rewrite (resolver_prefix (tables p) seriesId (pre ++ post) j ka anchor
             Hnd Hrows) by (by apply lookup_app_l_Some).
  f_equal. apply take_imap_app_l. lia.
Qed.

End ResolverChange.

(** ** The guard compares members, not lists *)

(** ** The guard compares members, not lists *)

Section GuardMembers.
Context `{JsNumber} `{SqlBigint}.

(** X8. The guard accepts a stored quiz exactly when the resolver answers
    for the stored series and anchor and the stored member list holds the
    same ids as the answer, each as often, in whatever order. *)
Theorem isCacheValid_iff_same_members p quiz :
  isCacheValid p quiz = Ok true
  ↔ ∃ currentEvents,
      getSeriesEventsUpTo p (cq_seriesId quiz) (cq_eventId quiz)
      = Ok currentEvents
      ∧ se_id <$> currentEvents ≡ₚ cq_includedEventIds quiz.
Proof.
  rewrite isCacheValid_unfold.
  destruct (getSeriesEventsUpTo p (cq_seriesId quiz) (cq_eventId quiz))
    as [currentEvents|m].
  - split.
    + intros [= Hb]. apply bool_decide_eq_true in Hb.
      exists currentEvents. split; [done|]. by apply js_sort_Permutation.
    + intros (evs & [= <-] & Hperm). f_equal.
      apply bool_decide_eq_true. by apply js_sort_Permutation.
  - split; [done|]. by intros (? & ? & _).
Qed.

End GuardMembers.


(** ** When the combiner fails *)

Section CombinerFailure.
Context `{JsNumber} `{SqlBigint}.

(** X9. [combineQuizzes] fails in three cases only: an entry of a question
    list is [null] or [undefined]; a question with an answer has an answer,
    or a truthy timestamp, that [String] or [Number] rejects (an object with
    a [toString] of its own); or a quiz beyond the last video has a question
    with an answer.  In every other case it returns. *)
Theorem combineQuizzes_succeeds_iff quizzes events :
  (∃ out, combineQuizzes quizzes events = Ok out)
  ↔ questions_present quizzes
    ∧ questions_convert (take (length events) quizzes)
    ∧ Forall (λ quiz, Forall (λ q, has_answer q = false) (questions_of quiz))
             (drop (length events) quizzes).
Proof.
  rewrite combineQuizzes_outer, outer_loop_iff.
  unfold questions_present, questions_convert. rewrite !Forall_lookup.
  split.
  - intros Hall. split_and!.
    + intros i quiz Hi. eapply Forall_impl; [exact (Hall i quiz Hi)|].
      by intros q [? _].
    + intros i quiz Hi. apply lookup_take_Some in Hi as [Hi Hlt].
      specialize (Hall i quiz Hi). simpl in Hall.
      destruct (lookup_lt_is_Some_2 events i Hlt) as [ev Hev].
      rewrite Hev in Hall.
      eapply Forall_impl; [exact Hall|]. by intros q [_ ?].
    + intros i quiz Hi. rewrite lookup_drop in Hi.
      specialize (Hall _ quiz Hi). simpl in Hall.
      rewrite (proj2 (lookup_ge_None events (length events + i)))
        in Hall by lia.
      eapply Forall_impl; [exact Hall|]. by intros q [_ ?].
  - intros (Hpresent & Hconvert & Hbeyond) i quiz Hi. simpl.
    apply Forall_and. split; [by eapply Hpresent|].
    destruct (events !! i) as [ev|] eqn:Hev.
    + apply (Hconvert i). apply lookup_take_Some. split; [done|].
      by eapply lookup_lt_Some.
    + apply lookup_ge_None in Hev.
      apply (Hbeyond (i - length events)%nat).
      rewrite lookup_drop, <- Hi. f_equal. lia.
Qed.

End CombinerFailure.

(** ** What a produced quiz holds *)

Section ProducedQuiz.
Context `{JsNumber} `{SqlBigint}.

Lemma getOrGenerateIndividualQuiz_Ok p eventId language quiz :
  getOrGenerateIndividualQuiz p eventId language = Ok quiz →
  quiz = {| iq_eventId := eventId;
            iq_questions :=
              match stored_quiz (tables p) eventId language with
              | Some data => js_or (field data "questions") (JArr [])
              | None => JArr []
              end |}
  ∧ ∀ data, stored_quiz (tables p) eventId language = Some data →
            is_nullish data = false.
Proof.
  unfold getOrGenerateIndividualQuiz. intros Hb.
  apply bind_Ok in Hb as (rows & Hrows & Hquiz).
  apply pool_query_Ok in Hrows as [Hfault Hrows].
  apply bind_Ok in Hrows as (k & _ & [= <-]).
  unfold stored_quiz, select_quiz_data in *.
  destruct (filter _ (ai_quizzes (tables p))) as [|row rows]; simpl in *.
  - by injection Hquiz as <-.
  - apply bind_Ok in Hquiz as (stored & Hstored & [= <-]).
    destruct (is_nullish (quiz_data row)) eqn:Hnull.
    { destruct (get_prop_nullish _ "questions" Hnull) as [m Hm]. congruence. }
    rewrite (get_prop_field _ _ Hnull) in Hstored. injection Hstored as <-.
    split; [done|]. by intros data [= <-].
Qed.

Lemma fetch_members_Ok p language (members : list SeriesEvent) quizzes :
  mapM (λ e, getOrGenerateIndividualQuiz p (se_id e) language) members
  = Ok quizzes →
  quizzes = fetched (tables p) language <$> members
  ∧ ∀ m data, m ∈ members →
      stored_quiz (tables p) (se_id m) language = Some data →
      is_nullish data = false.
Proof.
  intros Hfetch. apply mapM_Ok_Forall2 in Hfetch.
  induction Hfetch as [|m quiz members quizzes Hm _ [-> IH]].
  - split; [done|]. intros m data Hin. by apply elem_of_nil in Hin.
  - apply getOrGenerateIndividualQuiz_Ok in Hm as [-> Hdata].
    split; [done|]. intros m' data Hin.
    apply elem_of_cons in Hin as [->|Hin]; [apply Hdata | by apply IH].
Qed.

Lemma listing_fetched db language (members : list SeriesEvent) :
  listing (fetched db language <$> members) members
  = m ← members; (λ q, (m, q)) <$> questions_of (fetched db language m).
Proof.
  induction members as [|m members IH]; [done|].
  by rewrite fmap_cons, listing_cons, IH.
Qed.

Lemma questions_of_fetched db language m data :
  stored_quiz db (se_id m) language = Some data →
  questions_of (fetched db language m) = stored_questions data.
Proof.
  intros Hdata. unfold questions_of, fetched, stored_questions. simpl.
  by rewrite Hdata.
Qed.

(** A combination that returns has read question lists it can convert. *)
Lemma combineQuizzes_usable db language (members : list SeriesEvent) out :
  combineQuizzes (fetched db language <$> members) members = Ok out →
  ∀ m, m ∈ members →
    Forall (λ q, is_nullish q = false ∧ (has_answer q = true → convertible q))
           (questions_of (fetched db language m)).
Proof.
  intros Hcombine m Hm.
  assert (Hout : ∃ out, forEach (outer_body members) 0%nat
                          (fetched db language <$> members) [] = Ok out).
  { exists out. by rewrite <- combineQuizzes_outer. }
  pose proof (proj1 (outer_loop_iff _ _ _ _) Hout) as Hall.
  apply list_elem_of_lookup in Hm as [i Hi].
  specialize (Hall i (fetched db language m)).
  rewrite list_lookup_fmap, Hi in Hall. specialize (Hall eq_refl).
  simpl in Hall. by rewrite Hi in Hall.
Qed.

(** What steps 2 to 5 have read when they succeed. *)
Lemma assemble_Ok p env eventId language startTime now quiz :
  assemble p env eventId language startTime now = Ok quiz →
  ∃ event rest seriesEvents,
    select_series_event eventId (tables p) = event :: rest
    ∧ getSeriesEventsUpTo p (anchor_series event) eventId = Ok seriesEvents
    ∧ seriesEvents ≠ []
    ∧ (∀ m data, m ∈ seriesEvents →
         stored_quiz (tables p) (se_id m) language = Some data →
         quiz_usable data)
    ∧ mapM combined_of
        (filter answered
           (listing (fetched (tables p) language <$> seriesEvents)
                    seriesEvents))
      = Ok (cq_questions quiz)
    ∧ cq_eventId quiz = eventId
    ∧ cq_seriesId quiz = anchor_series event
    ∧ cq_language quiz = language
    ∧ cq_model quiz = model_name env
    ∧ cq_includedEventIds quiz = se_id <$> seriesEvents
    ∧ cq_videoCount quiz = length seriesEvents
    ∧ cq_processingTimeMs quiz = now - startTime.
Proof.
  unfold assemble. intros Ha.
  apply bind_Ok in Ha as ([|event rest] & Hevent & Ha); [done|].
  apply pool_query_Ok in Hevent as [_ Hevent].
  apply bind_Ok in Hevent as (k & _ & [= Hevent]).
  apply bind_Ok in Ha as (seriesEvents & Hresolved & Ha).
  case_bool_decide as Hlen; [done|].
  apply bind_Ok in Ha as (quizzes & Hfetch & Ha).
  apply bind_Ok in Ha as (questions & Hcombine & [= <-]).
  apply fetch_members_Ok in Hfetch as [-> Hdata].
  pose proof (combineQuizzes_usable _ _ _ _ Hcombine) as Husable.
  apply combineQuizzes_Ok in Hcombine as [Hpresent Hquestions].
  exists event, rest, seriesEvents. simpl.
  split_and!; [done | done | | | done..].
  - intros ->. by apply Hlen.
  - intros m data Hm Hstored. split; [by eapply Hdata|].
    rewrite <- (questions_of_fetched _ _ _ _ Hstored). by apply Husable.
Qed.

(** A request that step 1 does not serve is a run of steps 2 to 6. *)
Lemma generate_produced eventId language forceRegenerate startTime now w
    quiz w' :
  generateCumulativeQuiz eventId language forceRegenerate startTime now w
    = (Ok quiz, w') →
  (cache_step eventId language forceRegenerate w).1 = Ok None →
  assemble (pool w) (DEFAULT_MODEL w) eventId language startTime now = Ok quiz.
Proof.
  rewrite generateCumulativeQuiz_steps. intros Hrun Hstep.
  apply io_bind_Ok in Hrun as (served & w1 & Hserved & Hrun).
  rewrite Hserved in Hstep. injection Hstep as ->.
  apply cache_step_pool in Hserved as Hpool.
  apply cache_step_env in Hserved as Henv.
  rewrite produce_assemble, Hpool, Henv in Hrun.
  destruct (assemble _ _ _ _ _ _) as [q|m]; [|done].
  destruct (saveCumulativeQuiz q w1) as [[[]|m] w2]; [|done].
  by injection Hrun as -> _.
Qed.

(** X10. The questions of a quiz that [generateCumulativeQuiz] has
    produced are the stored questions of its members that have an answer,
    each with its video, in the order of the members and of their question
    lists; every stored per-video quiz of a member was readable, and every
    question of it that has an answer was one [String] and [Number] convert;
    model and timing are those of this request. *)
Theorem generated_questions eventId language forceRegenerate startTime now
    w quiz w' :
  generateCumulativeQuiz eventId language forceRegenerate startTime now w
    = (Ok quiz, w') →
  (cache_step eventId language forceRegenerate w).1 = Ok None →
  ∃ seriesEvents,
    getSeriesEventsUpTo (pool w) (cq_seriesId quiz) eventId = Ok seriesEvents
    ∧ (∀ m data, m ∈ seriesEvents →
         stored_quiz (tables (pool w)) (se_id m) language = Some data →
         quiz_usable data)
    ∧ mapM combined_of
        (filter answered
           (m ← seriesEvents;
            (λ q, (m, q))
              <$> questions_of (fetched (tables (pool w)) language m)))
      = Ok (cq_questions quiz)
    ∧ cq_model quiz = model_name (DEFAULT_MODEL w)
    ∧ cq_processingTimeMs quiz = now - startTime.
Proof.
  intros Hrun Hstep.
  apply (generate_produced _ _ _ _ _ _ _ _ Hrun) in Hstep.
  apply assemble_Ok in Hstep
    as (event & rest & seriesEvents & _ & Hresolved & _ & Husable & Hquestions
        & _ & Hseries & _ & Hmodel & _ & _ & Hms).
  exists seriesEvents. rewrite Hseries, <- listing_fetched. done.
Qed.

(** With unique ids a non-empty answer of the resolver is the prefix of the
    series order that ends at the anchor. *)
Lemma resolved_members p seriesId eventId seriesEvents :
  NoDup (ev_id <$> all_events (tables p)) →
  getSeriesEventsUpTo p seriesId eventId = Ok seriesEvents →
  seriesEvents ≠ [] →
  ∃ ordered i t,
    ordered_events (tables p) seriesId = Ok ordered
    ∧ ordered !! i = Some t ∧ denotes eventId (se_key t)
    ∧ seriesEvents = take (S i) ordered.
Proof.
  intros Hnd Hresolved Hne.
  apply getSeriesEventsUpTo_Ok in Hresolved
    as (_ & _ & [a Ha] & ordered & Hordered & ->).
  destruct (decide (a ∈ se_key <$> ordered)) as [Hin|Hout].
  - apply list_elem_of_fmap in Hin as (t & -> & Ht).
    apply list_elem_of_lookup in Ht as [i Hi].
    exists ordered, i, t. split_and!; [done | done | done |].
    apply (up_to_prefix _ _ i t); [| |done|done].
    + by eapply ordered_events_numbered.
    + by eapply ordered_events_NoDup_keys.
  - rewrite up_to_absent in Hne; [done|].
    intros t Ht Hden. apply Hout.
    rewrite (denotes_functional _ _ _ Ha Hden). by apply list_elem_of_fmap_2.
Qed.

Lemma elem_of_listing_event quizzes events ev q :
  (ev, q) ∈ listing quizzes events → ev ∈ events.
Proof.
  unfold listing. intros Hin.
  apply list_elem_of_bind in Hin as ([quiz ev'] & Hin & Hzip). simpl in Hin.
  apply list_elem_of_fmap in Hin as (q' & [= -> ->] & _).
  by apply elem_of_zip_r in Hzip.
Qed.

(** X11. In a quiz that [generateCumulativeQuiz] has produced from a table
    with unique ids, every question names a member of the quiz as its video,
    and its video number is the rank of that member, counted from 1, in the
    list of included ids. *)
Theorem question_video_numbers eventId language forceRegenerate startTime
    now w quiz w' :
  generateCumulativeQuiz eventId language forceRegenerate startTime now w
    = (Ok quiz, w') →
  (cache_step eventId language forceRegenerate w).1 = Ok None →
  NoDup (ev_id <$> all_events (tables (pool w))) →
  Forall (λ cq,
            ∃ i, cq_includedEventIds quiz !! i
                 = Some (vc_eventId (videoContext cq))
                 ∧ videoNumber (videoContext cq) = num_of_Z (Z.of_nat (S i)))
         (cq_questions quiz).
Proof.
  intros Hrun Hstep Hnd.
  apply (generate_produced _ _ _ _ _ _ _ _ Hrun) in Hstep.
  apply assemble_Ok in Hstep
    as (event & rest & seriesEvents & _ & Hresolved & Hne & _ & Hquestions
        & _ & _ & _ & _ & Hids & _).
  destruct (resolved_members _ _ _ _ Hnd Hresolved Hne)
    as (ordered & j & t & Hordered & _ & _ & ->).
  rewrite Hids. apply Forall_forall. intros cq Hcq.
  destruct (mapM_Ok_elem _ _ _ _ Hquestions Hcq) as ([ev q] & Hitem & Hof).
  apply combined_question_video in Hof as (Hvideo & _ & Hnumber).
  simpl in Hvideo, Hnumber.
  apply list_elem_of_filter in Hitem as [_ Hitem].
  apply elem_of_listing_event, list_elem_of_lookup in Hitem as [i Hi].
  exists i. split.
  - by rewrite list_lookup_fmap, Hi, Hvideo.
  - apply lookup_take_Some in Hi as [Hi _].
    by rewrite Hnumber, (ordered_events_position _ _ _ _ _ Hordered Hi).
Qed.

Lemma NoDup_fmap_lookup {A B} (f : A → B) (l : list A) i j x y :
  NoDup (f <$> l) → l !! i = Some x → l !! j = Some y → f x = f y → i = j.
Proof.
  intros Hnd Hi Hj Hxy. eapply NoDup_lookup; [exact Hnd| |].
  - by rewrite list_lookup_fmap, Hi.
  - by rewrite list_lookup_fmap, Hj, Hxy.
Qed.

Lemma fetched_ext db1 db2 language m :
  ai_quizzes db1 = ai_quizzes db2 →
  fetched db1 language m = fetched db2 language m.
Proof. intros Hq. unfold fetched, stored_quiz. by rewrite Hq. Qed.

Lemma bind_take_prefix {A B} (f : A → list B) (l : list A) n :
  (take n l ≫= f) `prefix_of` (l ≫= f).
Proof.
  exists (drop n l ≫= f). by rewrite <- bind_app, take_drop.
Qed.

(** X12. Cumulative quizzes grow with the series: of two quizzes that
    [generateCumulativeQuiz] has produced from the same events and per-video
    quizzes for two videos of one series, the quiz of the video that is a
    member of the other has a member list and a question list that are
    prefixes of the other's. *)
Theorem earlier_quiz_is_prefix language eventId1 startTime1 now1 w1 quiz1 w1'
    eventId2 startTime2 now2 w2 quiz2 w2' :
  generateCumulativeQuiz eventId1 language true startTime1 now1 w1
    = (Ok quiz1, w1') →
  generateCumulativeQuiz eventId2 language true startTime2 now2 w2
    = (Ok quiz2, w2') →
  all_events (tables (pool w2)) = all_events (tables (pool w1)) →
  ai_quizzes (tables (pool w2)) = ai_quizzes (tables (pool w1)) →
  NoDup (ev_id <$> all_events (tables (pool w1))) →
  eventId1 ∈ cq_includedEventIds quiz2 →
  cq_includedEventIds quiz1 `prefix_of` cq_includedEventIds quiz2
  ∧ cq_questions quiz1 `prefix_of` cq_questions quiz2.
Proof.
  intros Hrun1 Hrun2 Hev Hq Hnd Hin.
  apply generate_produced in Hrun1; [|done].
  apply generate_produced in Hrun2; [|done].
  apply assemble_Ok in Hrun1
    as (event1 & rest1 & members1 & Hevent1 & Hres1 & Hne1 & _ & Hq1 & _ & _
        & _ & _ & Hids1 & _).
  apply assemble_Ok in Hrun2
    as (event2 & rest2 & members2 & _ & Hres2 & Hne2 & _ & Hq2 & _ & _ & _
        & _ & Hids2 & _).
  rewrite Hids1. rewrite Hids2 in Hin |- *.
  destruct (resolved_members _ _ _ _ Hnd Hres1 Hne1)
    as (ordered & i & t1 & Hordered & Hi & Hid1 & ->).
  rewrite <- Hev in Hnd.
  destruct (resolved_members _ _ _ _ Hnd Hres2 Hne2)
    as (ordered2 & j & t2 & Hordered2 & Hj & Hid2 & ->).
  assert (Hseries : anchor_series event1 = anchor_series event2).
  { assert (Hanchor : event1 ∈ select_series_event eventId1
                                 (tables (pool w1))).
    { rewrite Hevent1. apply list_elem_of_here. }
    apply select_series_event_elem in Hanchor as (e1 & He1 & Hide1 & Hs1 & _).
    assert (Hmember : eventId1 ∈ se_id <$> ordered2).
    { apply list_elem_of_fmap in Hin as (t & Ht & Hin). rewrite Ht.
      apply list_elem_of_fmap_2.
      apply elem_of_take in Hin as (k & Hk & _).
      by eapply list_elem_of_lookup_2. }
    rewrite (ordered_events_ids _ _ _ Hordered2) in Hmember.
    apply list_elem_of_fmap in Hmember as (e2 & Hide2 & He2).
    apply list_elem_of_filter in He2 as [Hs2 He2].
    apply series_member_out in Hs2 as [Hs2 _].
    rewrite Hev in He2, Hnd.
    assert (e1 = e2) as ->.
    { apply list_elem_of_lookup in He1 as [k1 Hk1].
      apply list_elem_of_lookup in He2 as [k2 Hk2].
      assert (k1 = k2) as ->; [|congruence].
      eapply (NoDup_fmap_lookup ev_id); [exact Hnd|done|done|].
      rewrite Hide2 in Hide1. apply denotes_out in Hide1.
      unfold ev_id. by rewrite Hide1. }
    unfold anchor_series. congruence. }
  unfold ordered_events, ordered_rows in Hordered2.
  rewrite Hev, <- Hseries in Hordered2.
  fold (ordered_rows (tables (pool w1)) (anchor_series event1)) in Hordered2.
  fold (ordered_events (tables (pool w1)) (anchor_series event1)) in Hordered2.
  rewrite Hordered in Hordered2. injection Hordered2 as <-.
  assert (Hle : (i ≤ j)%nat).
  { apply list_elem_of_fmap in Hin as (t & Ht & Hin).
    apply list_elem_of_lookup in Hin as [k Hk].
    apply lookup_take_Some in Hk as [Hk Hlt].
    assert (i = k); [|lia].
    eapply (NoDup_fmap_lookup se_key ordered); [|done|done|].
    - rewrite Hev in Hnd. by eapply ordered_events_NoDup_keys.
    - rewrite Ht in Hid1. by apply denotes_out in Hid1. }
  assert (Htake : take (S i) ordered = take (S i) (take (S j) ordered)).
  { rewrite take_take. f_equal. lia. }
  rewrite !listing_fetched in Hq1, Hq2.
  rewrite (list_bind_ext
             (λ m, (λ q, (m, q))
                     <$> questions_of (fetched (tables (pool w2)) language m))
             (λ m, (λ q, (m, q))
                     <$> questions_of (fetched (tables (pool w1)) language m))
             (take (S j) ordered) (take (S j) ordered)) in Hq2;
    [|intros m; by rewrite (fetched_ext _ _ _ _ Hq)|done].
  rewrite Htake in Hq1 |- *. split.
  - rewrite fmap_take. apply prefix_take.
  - destruct (bind_take_prefix
                (λ m, (λ q, (m, q))
                        <$> questions_of
                              (fetched (tables (pool w1)) language m))
                (take (S j) ordered) (S i)) as [k Hk].
    rewrite Hk, filter_app, mapM_app_Ok, Hq1 in Hq2. simpl in Hq2.
    apply bind_Ok in Hq2 as (more & _ & [= <-]). by eexists.
Qed.

End ProducedQuiz.

(** ** Eligibility and generation *)

Section EligibilityDiagnostics.
Context `{JsNumber} `{SqlBigint}.

(** The path of an eligible outcome through the gates. *)
Lemma checkEligibility_eligible p eventId language r :
  checkEligibility p eventId language = Ok r → eligible r = true →
  ∃ event rest seriesId row rows allSeriesVideos i previous,
    query_event p eventId = Ok (event :: rest)
    ∧ ej_series event = Some seriesId
    ∧ query_quiz_id p eventId language = Ok (row :: rows)
    ∧ query_positions p seriesId = Ok allSeriesVideos
    ∧ findIndex (is_anchor eventId) allSeriesVideos = Some (S i)
    ∧ query_previous_quizzes p
        (se_id <$> take (S i) allSeriesVideos) language = Ok previous
    ∧ previous ≠ []
    ∧ r = {| eligible := true;
             reason := reason_eligible (S i + 1) (length allSeriesVideos)
                         (length previous);
             details := gate_details event seriesId (Some (S i + 1)%nat)
                          (Some (length allSeriesVideos))
                          (Some (length previous)) true |}.
Proof.
  unfold checkEligibility, checkEligibility_try.
  fold (is_anchor eventId). intros Hr Hel.
  destruct (query_event p eventId) as [[|event rest]|m] eqn:Hevent;
    simpl in Hr; [by injection Hr as <-| |by injection Hr as <-].
  destruct (ej_series event) as [seriesId|] eqn:Hseries;
    [|by injection Hr as <-].
  destruct (query_quiz_id p eventId language) as [[|row rows]|] eqn:Hquiz;
    simpl in Hr; [by injection Hr as <-| |by injection Hr as <-].
  destruct (query_positions p seriesId) as [vids|] eqn:Hpos;
    simpl in Hr; [|by injection Hr as <-].
  destruct (findIndex (is_anchor eventId) vids) as [[|i]|] eqn:Hi;
    simpl in Hr; [by injection Hr as <-| |by injection Hr as <-].
  rewrite bool_decide_eq_false_2 in Hr.
  2:{ apply findIndex_Some_lt in Hi. rewrite length_take. lia. }
  destruct (query_previous_quizzes p _ language) as [previous|] eqn:Hprev;
    simpl in Hr; [|by injection Hr as <-].
  destruct previous as [|x previous]; simpl in Hr; [by injection Hr as <-|].
  injection Hr as <-.
  exists event, rest, seriesId, row, rows, vids, i, (x :: previous).
  split_and!; done.
Qed.

Lemma query_previous_quizzes_Ok p (videos : list SeriesEvent) language
    previous :
  query_previous_quizzes p (se_id <$> videos) language = Ok previous →
  previous = select_previous_quizzes (se_id <$> videos) language (tables p).
Proof.
  intros [_ Hrun]%pool_query_Ok.
  by apply bind_Ok in Hrun as (keys & _ & [= <-]).
Qed.

Lemma select_previous_quizzes_length (videos : list SeriesEvent) language db :
  (length (select_previous_quizzes (se_id <$> videos) language db)
   ≤ length videos)%nat.
Proof.
  rewrite <- (length_fmap se_key videos).
  apply submseteq_length, NoDup_submseteq; [apply NoDup_remove_dups|].
  intros k Hk. unfold select_previous_quizzes in Hk.
  apply elem_of_remove_dups, list_elem_of_fmap in Hk as (row & -> & Hrow).
  apply list_elem_of_filter in Hrow as [[Hany _] _].
  apply Exists_exists in Hany as (id & Hid & Hden).
  apply list_elem_of_fmap in Hid as (v & -> & Hv).
  apply denotes_out in Hden. rewrite Hden. by apply list_elem_of_fmap_2.
Qed.

(** X13. An eligible outcome reports figures that fit together: the video
    is at least second and at most last in its series, and between one and
    all of the videos before it have a quiz. *)
Theorem eligible_diagnostics_bounds p eventId language r :
  checkEligibility p eventId language = Ok r → eligible r = true →
  ∃ d position total previous,
    details r = Some d
    ∧ d_position d = Some position
    ∧ d_totalInSeries d = Some total
    ∧ d_previousVideosWithQuizzes d = Some previous
    ∧ d_hasQuiz d = true
    ∧ reason r = reason_eligible position total previous
    ∧ (2 ≤ position ≤ total)%nat
    ∧ (1 ≤ previous < position)%nat.
Proof.
  intros Hr Hel.
  apply (checkEligibility_eligible _ _ _ _ Hr) in Hel
    as (event & rest & seriesId & row & rows & vids & i & previous & _ & _
        & _ & _ & Hi & Hprev & Hne & ->).
  eexists _, _, _, _. simpl. split_and!; try reflexivity.
  - lia.
  - apply findIndex_Some_lt in Hi. lia.
  - destruct previous; [done | simpl; lia].
  - apply query_previous_quizzes_Ok in Hprev as ->.
    pose proof (select_previous_quizzes_length (take (S i) vids) language
                  (tables p)) as Hlen.
    apply findIndex_Some_lt in Hi.
    rewrite length_take in Hlen. lia.
Qed.

(** X14. On a store that answers, with unique ids, [checkEligibility]
    answers that the position of the video could not be determined in one
    case only: the id of the request denotes the key of a ready video of a
    series that has a quiz, the order of the series can be computed, and the
    id is not the text the store returns for that key (the SQL statements
    compare keys, the search among the positions compares texts). *)
Theorem position_undetermined_iff p eventId language r :
  (∀ stmt, fault p stmt = None) →
  NoDup (ev_id <$> all_events (tables p)) →
  checkEligibility p eventId language = Ok r →
  reason r = reason_no_position
  ↔ ∃ e s vids,
      e ∈ all_events (tables p) ∧ denotes eventId (ev_key e)
      ∧ ev_state e = Ready ∧ ev_series_key e = Some s
      ∧ has_quiz (tables p) (ev_key e) language
      ∧ ordered_events (tables p) (int8out s) = Ok vids
      ∧ eventId ≠ ev_id e.
Proof.
  intros Hfault Hnd Hr.
  assert (Hposition : ∀ e s vids,
            e ∈ all_events (tables p) → ev_state e = Ready →
            ev_series_key e = Some s →
            ordered_events (tables p) (int8out s) = Ok vids →
            ∃ i t, vids !! i = Some t ∧ se_key t = ev_key e).
  { intros e s vids He Hready Hs Hvids.
    apply (anchor_positioned _ _ _ _ Hvids He). by apply series_member_out. }
  split.
  - intros Hreason.
    assert (Hfound : ∃ e, e ∈ all_events (tables p)
                          ∧ denotes eventId (ev_key e) ∧ ev_state e = Ready).
    { unfold checkEligibility, checkEligibility_try in Hr.
      destruct (query_event p eventId) as [[|event rest]|m] eqn:Hevent;
        simpl in Hr.
      - injection Hr as <-. done.
      - apply pool_query_Ok in Hevent as [_ Hevent].
        apply bind_Ok in Hevent as (k & Hk & [= Hrows]).
        assert (Hin : event ∈ select_event eventId (tables p)).
        { rewrite Hrows. apply list_elem_of_here. }
        apply select_event_elem in Hin as (e & He & Hid & Hready & _). eauto.
      - injection Hr as <-. simpl in Hreason.
        unfold reason_error, reason_no_position in Hreason.
        rewrite !append_cons in Hreason. discriminate. }
    destruct Hfound as (e & He & Hid & Hready).
    destruct (checkEligibility_try_found _ _ language _ Hfault Hnd He Hid Hready)
      as (title & _ & Htry).
    revert Hr. unfold checkEligibility. rewrite Htry.
    destruct (ev_series_key e) as [s|] eqn:Hs;
      [|intros [= <-]; done].
    case_bool_decide as Hquiz; [|intros [= <-]; done].
    destruct (ordered_events (tables p) (int8out s)) as [vids|m] eqn:Hvids;
      simpl.
    2:{ intros [= <-]. simpl in Hreason.
        unfold reason_error, reason_no_position in Hreason.
        rewrite !append_cons in Hreason. discriminate. }
    destruct (Hposition _ _ _ He Hready Hs Hvids) as (i & t & Hi & Ht).
    rewrite (findIndex_anchor _ _ i t);
      [|by eapply ordered_events_NoDup_keys|done|by rewrite Ht].
    replace (se_id t) with (ev_id e)
      by (unfold se_id, ev_id; by rewrite Ht).
    case_bool_decide as Hcanon.
    + case_bool_decide; [intros [= <-]; done|].
      case_bool_decide; intros [= <-]; [done|].
      simpl in Hreason. unfold reason_eligible, reason_no_position in Hreason.
      rewrite !append_cons in Hreason. discriminate.
    + intros _. by exists e, s, vids.
  - intros (e & s & vids & He & Hid & Hready & Hs & Hquiz & Hvids & Hother).
    destruct (checkEligibility_try_found _ _ language _ Hfault Hnd He Hid Hready)
      as (title & _ & Htry).
    revert Hr. unfold checkEligibility.
    rewrite Htry, Hs, bool_decide_eq_true_2, Hvids by done. simpl.
    destruct (Hposition _ _ _ He Hready Hs Hvids) as (i & t & Hi & Ht).
    rewrite (findIndex_anchor _ _ i t);
      [|by eapply ordered_events_NoDup_keys|done|by rewrite Ht].
    replace (se_id t) with (ev_id e)
      by (unfold se_id, ev_id; by rewrite Ht).
    rewrite bool_decide_eq_false_2 by done. by intros [= <-].
Qed.

Lemma stored_quiz_is_Some db k language :
  is_Some (stored_quiz db (int8out k) language) ↔ has_quiz db k language.
Proof.
  unfold stored_quiz, has_quiz. rewrite head_is_Some, Exists_exists. split.
  - intros Hne.
    destruct (filter _ (ai_quizzes db)) as [|row rows] eqn:Hrows; [done|].
    assert (Hrow : row ∈ filter
                     (λ r, denotes (int8out k) (quiz_event_key r)
                           ∧ quiz_language r = language) (ai_quizzes db)).
    { rewrite Hrows. apply list_elem_of_here. }
    apply list_elem_of_filter in Hrow as [[Hid ?] ?].
    apply denotes_out in Hid. eauto.
  - intros (row & Hrow & Hid & Hlang) Hnil.
    apply fmap_nil_inv in Hnil.
    assert (Hin : row ∈ filter
                    (λ r, denotes (int8out k) (quiz_event_key r)
                          ∧ quiz_language r = language) (ai_quizzes db)).
    { apply list_elem_of_filter. split; [|done]. split; [|done].
      by apply denotes_out. }
    rewrite Hnil in Hin. by apply elem_of_nil in Hin.
Qed.

(** [SELECT DISTINCT event_id ... WHERE event_id = ANY(ids)] counts the ids
    that have a stored quiz. *)
Lemma select_previous_quizzes_stored (videos : list SeriesEvent) language db :
  NoDup (se_key <$> videos) →
  length (select_previous_quizzes (se_id <$> videos) language db)
  = length (filter (λ id, is_Some (stored_quiz db id language))
                   (se_id <$> videos)).
Proof.
  intros Hnd.
  rewrite (select_previous_quizzes_keys _ _ _ Hnd), length_fmap.
  clear Hnd. induction videos as [|v videos IH]; [done|].
  rewrite fmap_cons.
  destruct (decide (has_quiz db (se_key v) language)) as [Hv|Hv].
  - rewrite !filter_cons_True; [simpl; by rewrite IH | | done].
    by apply stored_quiz_is_Some.
  - rewrite !filter_cons_False; [done | | done].
    intros Hstored. by apply Hv, stored_quiz_is_Some.
Qed.

(** X15. On one snapshot with unique ids, eligibility and generation agree:
    the position an eligible outcome reports is the video count of the quiz
    a forced [generateCumulativeQuiz] produces for the same video, the
    series is the same, and the reported number of previous videos with
    quizzes is the number of members before the anchor that have a stored
    quiz for the language. *)
Theorem eligible_position_is_video_count p eventId language r w startTime
    now quiz w' :
  NoDup (ev_id <$> all_events (tables p)) →
  checkEligibility p eventId language = Ok r → eligible r = true →
  pool w = p →
  generateCumulativeQuiz eventId language true startTime now w
    = (Ok quiz, w') →
  ∃ d, details r = Some d
       ∧ d_seriesId d = cq_seriesId quiz
       ∧ d_position d = Some (cq_videoCount quiz)
       ∧ d_previousVideosWithQuizzes d
         = Some (length
                   (filter (λ id, is_Some (stored_quiz (tables p) id language))
                           (take (cq_videoCount quiz - 1)
                                 (cq_includedEventIds quiz)))).
Proof.
  intros Hnd Hr Hel <- Hrun.
  apply (checkEligibility_eligible _ _ _ _ Hr) in Hel
    as (event & rest & seriesId & row & rows & vids & i & previous & Hevent
        & Hseries & _ & Hpos & Hi & Hprev & _ & ->).
  apply generate_produced in Hrun; [|done].
  apply assemble_Ok in Hrun
    as (anchor & others & members & Hanchor & Hresolved & Hne & _ & _ & _
        & Hsid & _ & _ & Hids & Hcount & _).
  apply pool_query_Ok in Hevent as [_ Hevent].
  apply bind_Ok in Hevent as (k0 & _ & [= Hevent]).
  assert (Hrow : event ∈ select_event eventId (tables (pool w))).
  { rewrite Hevent. apply list_elem_of_here. }
  apply select_event_elem in Hrow as (e & He & Hid & _ & _ & Hs).
  assert (Hrow' : anchor ∈ select_series_event eventId (tables (pool w))).
  { rewrite Hanchor. apply list_elem_of_here. }
  apply select_series_event_elem in Hrow' as (e' & He' & Hid' & Hs' & _).
  assert (e = e') as <-.
  { apply list_elem_of_lookup in He as [k1 Hk1].
    apply list_elem_of_lookup in He' as [k2 Hk2].
    assert (k1 = k2) as ->; [|congruence].
    eapply (NoDup_fmap_lookup ev_id); [exact Hnd|done|done|].
    unfold ev_id. f_equal. by eapply denotes_functional. }
  assert (anchor_series anchor = seriesId) as Hsame.
  { unfold ej_series in Hseries. rewrite Hs, Hs' in Hseries.
    by injection Hseries. }
  rewrite Hsame in Hresolved, Hsid.
  apply query_positions_Ok in Hpos.
  destruct (resolved_members _ _ _ _ Hnd Hresolved Hne)
    as (ordered & k & t & Hordered & Hk & Ht & ->).
  rewrite Hpos in Hordered. injection Hordered as <-.
  apply findIndex_Some in Hi as (x & Hx & Hanc).
  unfold is_anchor in Hanc. apply String.eqb_eq in Hanc.
  assert (Hunique : NoDup (se_key <$> vids))
    by (by eapply ordered_events_NoDup_keys).
  assert (k = S i) as ->.
  { eapply (NoDup_fmap_lookup se_key); [exact Hunique|done|done|].
    rewrite <- Hanc in Ht. by apply denotes_out in Ht. }
  pose proof (lookup_lt_Some _ _ _ Hx) as Hlt.
  apply query_previous_quizzes_Ok in Hprev as ->.
  eexists. simpl. split; [reflexivity|]. simpl.
  rewrite Hsid, Hcount, Hids, length_take, <- fmap_take, take_take.
  replace (S (S i) `min` length vids)%nat with (S i + 1)%nat by lia.
  replace ((S i + 1 - 1) `min` S (S i))%nat with (S i) by lia.
  split_and!; [done | done |]. f_equal.
  apply select_previous_quizzes_stored.
  apply (sublist_NoDup _ (se_key <$> vids)); [done|].
  apply fmap_sublist, sublist_take.
Qed.

End EligibilityDiagnostics.

(** ** When a request fails *)

Section Failures.
Context `{JsNumber} `{SqlBigint}.

(** X16. The resolver answers exactly when the store accepts its statement,
    both ids are texts of keys, and every ready video of the series has an
    order text that is an integer of the column's range, or none: nothing
    else about the anchor can make it fail. *)
Theorem resolver_succeeds_iff p seriesId upToEventId :
  (∃ out, getSeriesEventsUpTo p seriesId upToEventId = Ok out)
  ↔ fault p (SelectSeriesEventsUpTo seriesId upToEventId) = None
    ∧ (∃ series, denotes seriesId series)
    ∧ (∃ anchor, denotes upToEventId anchor)
    ∧ ∀ e, e ∈ all_events (tables p) → series_member seriesId e →
           ∃ k, order_key e = Ok k.
Proof.
  assert (Hkeys : (∃ ks, mapM keyed
                           (filter (series_member seriesId)
                                   (all_events (tables p))) = Ok ks)
                  ↔ ∀ e, e ∈ all_events (tables p) →
                         series_member seriesId e → ∃ k, order_key e = Ok k).
  { rewrite mapM_is_Ok, Forall_forall. split.
    - intros Hall e He Hm.
      destruct (Hall e) as [[k e'] Hk]; [by apply list_elem_of_filter|].
      apply keyed_Ok in Hk as [Hk _]. eauto.
    - intros Hall e [Hm He]%list_elem_of_filter.
      destruct (Hall e He Hm) as [k Hk]. exists (k, e). by apply keyed_Ok. }
  rewrite <- Hkeys. split.
  - intros [out Hout].
    apply getSeriesEventsUpTo_Ok in Hout
      as (Hfault & Hseries & Hanchor & ordered & Hordered & _).
    split_and!; [done..|].
    rewrite ordered_events_rows in Hordered. unfold ordered_rows in Hordered.
    destruct (mapM keyed _) as [ks|m]; [by eexists | done].
  - intros (Hfault & [series Hseries] & [anchor Hanchor] & [ks Hks]).
    rewrite (getSeriesEventsUpTo_keys _ _ _ _ _ Hseries Hanchor), Hfault.
    rewrite ordered_events_rows. unfold ordered_rows. rewrite Hks. simpl.
    by eexists.
Qed.

(** X17. A stored quiz one of whose members is no longer a ready video of
    the stored series (deleted, withdrawn or moved to another series) is
    invalid. *)
Theorem withdrawn_member_invalidates p quiz id :
  id ∈ cq_includedEventIds quiz →
  (∀ e, e ∈ all_events (tables p) → series_member (cq_seriesId quiz) e →
        ev_id e ≠ id) →
  isCacheValid p quiz = Ok false.
Proof.
  intros Hid Hgone. rewrite isCacheValid_unfold.
  destruct (getSeriesEventsUpTo p (cq_seriesId quiz) (cq_eventId quiz))
    as [currentEvents|m] eqn:Hresolved; [|done].
  f_equal. apply bool_decide_eq_false. intros Heq.
  apply js_sort_Permutation in Heq. rewrite <- Heq in Hid.
  apply getSeriesEventsUpTo_Ok in Hresolved
    as (_ & _ & _ & ordered & Hordered & ->).
  apply list_elem_of_fmap in Hid as (t & -> & Ht).
  apply elem_of_sort_by, elem_of_up_to in Ht as [Ht _].
  assert (Hin : se_id t ∈ se_id <$> ordered) by (by apply list_elem_of_fmap_2).
  rewrite (ordered_events_ids _ _ _ Hordered) in Hin.
  apply list_elem_of_fmap in Hin as (e & Hide & He).
  apply list_elem_of_filter in He as [Hm He].
  by apply (Hgone e He Hm).
Qed.

(** X18. A request whose row does not fit the columns of the table, a
    language of more than ten characters or a model name of more than
    fifty, fails, at the latest when the row is saved, and leaves neither
    a row nor a cache entry behind. *)
Theorem unfit_row_is_rejected eventId language startTime now w message :
  varchar 10 language = Throw message
  ∨ varchar 50 (model_name (DEFAULT_MODEL w)) = Throw message →
  ∃ message',
    generateCumulativeQuiz eventId language true startTime now w
    = (Throw message', w).
Proof.
  intros Hunfit. rewrite generateCumulativeQuiz_steps.
  change (cache_step eventId language true)
    with (@mret io _ (option CumulativeQuiz) None).
  unfold mbind at 1, io_bind, mret, io_ret. rewrite produce_assemble.
  destruct (assemble _ _ _ _ _ _) as [quiz|m] eqn:Ha; [|eauto].
  apply assemble_Ok in Ha
    as (event & rest & members & _ & _ & _ & _ & _ & _ & _ & Hlang & Hmodel
        & _).
  rewrite saveCumulativeQuiz_run. unfold pool_query.
  destruct (fault (pool w) _); [eauto|].
  unfold upsert. rewrite Hlang, Hmodel.
  destruct (bigint_param (cq_eventId quiz)); simpl; [|eauto].
  destruct (bigint_param (cq_seriesId quiz)); simpl; [|eauto].
  destruct (int4 (cq_processingTimeMs quiz)); simpl; [|eauto].
  destruct (mapM bigint_param (cq_includedEventIds quiz)); simpl; [|eauto].
  destruct (int4 (Z.of_nat (cq_videoCount quiz))); simpl; [|eauto].
  destruct Hunfit as [->| Hunfit]; simpl; [eauto|].
  destruct (varchar 10 language); simpl; [|eauto].
  rewrite Hunfit. simpl. eauto.
Qed.

Ltac other_message :=
  intros [= <-]; unfold error_no_events, not_primitive;
  rewrite ?append_cons; discriminate.

Lemma bigint_param_message text message :
  bigint_param text = Throw message → message ≠ error_no_events.
Proof. unfold bigint_param. destruct (int8in text); [done| |]; other_message. Qed.

Lemma conversion_message message :
  message = not_primitive → message ≠ error_no_events.
Proof. intros ->. unfold not_primitive, error_no_events. discriminate. Qed.

Lemma get_prop_message v name message :
  get_prop v name = Throw message → message ≠ error_no_events.
Proof. destruct v; try done; simpl; other_message. Qed.

Lemma combine_question_message event q combined message :
  combine_question event q combined = Throw message →
  message ≠ error_no_events.
Proof.
  destruct (is_nullish q) eqn:Hq.
  - destruct q; try done; simpl; other_message.
  - rewrite combine_question_present by done.
    destruct (has_answer q); [|done]. destruct event as [ev|].
    + intros Hb. apply bind_Throw in Hb as [Hb|(? & _ & Hb)]; [|done].
      by eapply conversion_message, combined_question_Throw.
    + intros Hb. apply bind_Throw in Hb as [Hb|(? & _ & Hb)].
      * by eapply conversion_message, ToString_Throw.
      * revert Hb. other_message.
Qed.

Lemma combineQuizzes_message quizzes events message :
  combineQuizzes quizzes events = Throw message → message ≠ error_no_events.
Proof.
  unfold combineQuizzes. intros Hb.
  apply forEach_Throw in Hb as (quiz & i & combined & Hb).
  destruct (iq_questions quiz); try done.
  apply forEach_Throw in Hb as (q & _ & combined' & Hb).
  by eapply combine_question_message.
Qed.

Lemma order_key_message e message :
  order_key e = Throw message → message ≠ error_no_events.
Proof.
  unfold order_key, cast_int. destruct (ev_order e) as [[z|t]|]; [| |done].
  - case_bool_decide; [done|]. other_message.
  - other_message.
Qed.

Lemma getSeriesEventsUpTo_message p seriesId upToEventId message :
  getSeriesEventsUpTo p seriesId upToEventId = Throw message →
  fault p (SelectSeriesEventsUpTo seriesId upToEventId) = Some message
  ∨ message ≠ error_no_events.
Proof.
  rewrite getSeriesEventsUpTo_unfold.
  destruct (fault p _); [by intros [= ->]; left|].
  intros Hb. right.
  apply bind_Throw in Hb as [Hb|(? & _ & Hb)];
    [by eapply bigint_param_message|].
  apply bind_Throw in Hb as [Hb|(? & _ & Hb)];
    [by eapply bigint_param_message|].
  destruct (ordered_events (tables p) seriesId) as [ordered|m] eqn:Hordered;
    [done|].
  injection Hb as <-.
  apply ordered_events_Throw in Hordered as (c & _ & _ & Hc).
  by eapply order_key_message.
Qed.

Lemma getOrGenerateIndividualQuiz_message p eventId language message :
  getOrGenerateIndividualQuiz p eventId language = Throw message →
  fault p (SelectQuizData eventId language) = Some message
  ∨ message ≠ error_no_events.
Proof.
  unfold getOrGenerateIndividualQuiz. intros Hb.
  apply bind_Throw in Hb as [Hq|(rows & _ & Hb)].
  - apply pool_query_Throw in Hq as [?|[_ Hq]]; [by left | right].
    apply bind_Throw in Hq as [Hq|(? & _ & Hq)]; [|done].
    by eapply bigint_param_message.
  - right. destruct rows as [|row rows]; [done|].
    apply bind_Throw in Hb as [Hb|(? & _ & Hb)]; [|done].
    by eapply get_prop_message.
Qed.

Lemma varchar_message n s message :
  varchar n s = Throw message → message ≠ error_no_events.
Proof.
  unfold varchar. destruct (Nat.leb _ _); [done|].
  destruct (only_spaces _); [done|]. other_message.
Qed.

Lemma int4_message z message :
  int4 z = Throw message → message ≠ error_no_events.
Proof. unfold int4. case_bool_decide; [done|]. other_message. Qed.

Lemma upsert_message quiz db message :
  upsert quiz db = Throw message → message ≠ error_no_events.
Proof.
  unfold upsert. intros Hb.
  apply bind_Throw in Hb as [?|(event_id & _ & Hb)];
    [by eapply bigint_param_message|].
  apply bind_Throw in Hb as [?|(series_id & _ & Hb)];
    [by eapply bigint_param_message|].
  apply bind_Throw in Hb as [?|(ms & _ & Hb)]; [by eapply int4_message|].
  apply bind_Throw in Hb as [Hids|(included & _ & Hb)].
  { apply mapM_Throw in Hids as (id & _ & Hid).
    by eapply bigint_param_message. }
  apply bind_Throw in Hb as [?|(count & _ & Hb)]; [by eapply int4_message|].
  apply bind_Throw in Hb as [?|(language & _ & Hb)];
    [by eapply varchar_message|].
  apply bind_Throw in Hb as [?|(model & _ & Hb)];
    [by eapply varchar_message|].
  case_bool_decide; [done|]. revert Hb. other_message.
Qed.

Lemma cache_step_message eventId language forceRegenerate w message w1 :
  cache_step eventId language forceRegenerate w = (Throw message, w1) →
  fault (pool w) (SelectCumulativeQuiz eventId language) = Some message
  ∨ message ≠ error_no_events.
Proof.
  unfold cache_step. destruct forceRegenerate; [done|].
  unfold mbind, io_bind.
  destruct (cache w !! cacheKey eventId language) as [q|] eqn:Hc.
  - rewrite (getCachedQuiz_hit _ _ _ _ Hc). unfold query.
    rewrite isCacheValid_unfold. by destruct (getSeriesEventsUpTo _ _ _).
  - rewrite (getCachedQuiz_miss _ _ _ Hc).
    destruct (pool_query (pool w) _ _) as [[row|]|m] eqn:Hq.
    + unfold query. rewrite isCacheValid_unfold. simpl.
      by destruct (getSeriesEventsUpTo _ _ _).
    + done.
    + intros [= <- _]. apply pool_query_Throw in Hq as [?|[_ Hq]]; [by left|].
      right. unfold select_cumulative_quiz in Hq.
      apply bind_Throw in Hq as [Hq|(? & _ & Hq)]; [|done].
      by eapply bigint_param_message.
Qed.

Lemma assemble_message p env eventId language startTime now message :
  (∀ stmt, fault p stmt ≠ Some error_no_events) →
  assemble p env eventId language startTime now = Throw message →
  message ≠ error_no_events.
Proof.
  intros Hfault. unfold assemble. intros Hb.
  apply bind_Throw in Hb as [Hq|(eventResult & Hevent & Hb)].
  { apply pool_query_Throw in Hq as [Hq|[_ Hq]].
    - intros ->. by eapply Hfault.
    - apply bind_Throw in Hq as [Hq|(? & _ & Hq)]; [|done].
      by eapply bigint_param_message. }
  destruct eventResult as [|event rest]; [by revert Hb; other_message|].
  apply pool_query_Ok in Hevent as [_ Hevent].
  apply bind_Ok in Hevent as (k & _ & [= Hevent]).
  apply bind_Throw in Hb as [Hr|(seriesEvents & Hresolved & Hb)].
  { apply getSeriesEventsUpTo_message in Hr as [Hr|?]; [|done].
    intros ->. by eapply Hfault. }
  case_bool_decide as Hlen.
  { exfalso. apply length_zero_iff_nil in Hlen.
    assert (Hanchor : event ∈ select_series_event eventId (tables p)).
    { rewrite Hevent. apply list_elem_of_here. }
    apply select_series_event_elem in Hanchor as (e & He & Hid & Hs & Hready).
    destruct (anchor_series_member _ _ Hs Hready) as [Hmember _].
    apply getSeriesEventsUpTo_Ok in Hresolved as Hshape.
    destruct Hshape as (_ & _ & _ & ordered & Hordered & _).
    destruct (anchor_positioned _ _ _ e Hordered He) as (i & t & Hi & Ht);
      [done|].
    eapply (resolver_nonempty _ _ eventId); [done | done | | done | done].
    by rewrite Ht. }
  apply bind_Throw in Hb as [Hf|(quizzes & _ & Hb)].
  { apply mapM_Throw in Hf as (m & _ & Hm).
    apply getOrGenerateIndividualQuiz_message in Hm as [Hm|?]; [|done].
    intros ->. by eapply Hfault. }
  apply bind_Throw in Hb as [Hc|(questions & _ & ?)]; [|done].
  by eapply combineQuizzes_message.
Qed.

(** X19. On one snapshot of the store [generateCumulativeQuiz] never fails
    with "No events found in series": the video that step 2 has found is
    always among the members that step 3 resolves.  (A store that rejects
    a statement with this very text is set aside.) *)
Theorem no_events_guard_never_fires eventId language forceRegenerate
    startTime now w :
  (∀ stmt, fault (pool w) stmt ≠ Some error_no_events) →
  (generateCumulativeQuiz eventId language forceRegenerate startTime now w).1
  ≠ Throw error_no_events.
Proof.
  intros Hfault. rewrite generateCumulativeQuiz_steps.
  unfold mbind at 1, io_bind.
  destruct (cache_step eventId language forceRegenerate w)
    as [[[quiz|]|m] w1] eqn:Hstep.
  - done.
  - apply cache_step_pool in Hstep as Hpool.
    rewrite produce_assemble, Hpool.
    destruct (assemble _ _ _ _ _ _) as [quiz|m] eqn:Ha.
    + rewrite saveCumulativeQuiz_run, Hpool.
      destruct (pool_query (pool w) _ (upsert quiz)) as [db|m] eqn:Hq;
        [done|].
      simpl. intros [= ->].
      apply pool_query_Throw in Hq as [Hq|[_ Hq]]; [by eapply Hfault|].
      by eapply upsert_message.
    + simpl. intros [= ->]. by eapply assemble_message.
  - simpl. intros [= ->]. apply cache_step_message in Hstep as [Hstep|?];
      [by eapply Hfault | done].
Qed.

End Failures.

(** ** The routes *)

Section RouteFacts.
Context `{JsNumber} `{SqlBigint}.
Variable normalizeLanguageCode : jsval → result string.

Lemma checkEligibility_total p eventId language :
  ∃ r, checkEligibility p eventId language = Ok r.
Proof.
  unfold checkEligibility, try_catch.
  destruct (checkEligibility_try p eventId language); eauto.
Qed.

(** A truthy property is the property of an object. *)
Lemma truthy_field v name :
  ToBoolean (field v name) = true → get_prop v name = Ok (field v name).
Proof. by destruct v. Qed.

(** The route with a language that is given and accepted. *)
Lemma post_generate_run eventId requestBody startTime now w language :
  ToBoolean (field requestBody "language") = true →
  normalizeLanguageCode (field requestBody "language") = Ok language →
  post_generate normalizeLanguageCode eventId requestBody startTime now w =
  match generateCumulativeQuiz eventId language
          (is_true (field requestBody "forceRegenerate")) startTime now w with
  | (Ok quiz, w') =>
      (respond 200
         (GeneratedBody (cq_eventId quiz) (cq_seriesId quiz)
            (cq_language quiz) (cq_videoCount quiz)
            (length (cq_questions quiz)) (cq_processingTimeMs quiz)
            (cq_model quiz) quiz), w')
  | (Throw message, w') =>
      (respond 500 (ErrorBody "Failed to generate cumulative quiz" message),
       w')
  end.
Proof.
  intros Hgiven Hlanguage.
  unfold post_generate, handle, mbind, io_bind, query.
  rewrite (truthy_field _ _ Hgiven), Hgiven. simpl. rewrite Hlanguage.
  assert (get_prop requestBody "forceRegenerate"
          = Ok (field requestBody "forceRegenerate")) as ->.
  { destruct requestBody; try done. }
  by destruct (generateCumulativeQuiz _ _ _ _ _ w) as [[quiz|m] w'].
Qed.

Lemma get_prop_nullish_Throw v name :
  is_nullish v = true → ∃ message, get_prop v name = Throw message.
Proof. destruct v; try done; simpl; eauto. Qed.

Lemma falsy_field_nullish v name :
  is_nullish v = true → ToBoolean (field v name) = false.
Proof. by destruct v. Qed.

(** X20. The route that generates a quiz answers 400 exactly when the
    request has a body whose language is missing or falsy, and then touches
    nothing; it answers 200 only with the quiz that
    [generateCumulativeQuiz] has returned for the normalized language,
    which is then in the fast cache, and with the number of its questions;
    every failure is a 500 that carries the message, so that a forced
    request under an id that denotes a key, for a video that is not a ready
    video of a series, is answered 500 "Event not found or not part of a
    series". *)
Theorem generate_route_contract eventId requestBody startTime now w
    response w' :
  post_generate normalizeLanguageCode eventId requestBody startTime now w
    = (response, w') →
  (status response = 400%nat ∨ status response = 200%nat
   ∨ status response = 500%nat)
  ∧ (status response = 400%nat
     ↔ is_nullish requestBody = false
       ∧ ToBoolean (field requestBody "language") = false)
  ∧ (status response = 400%nat → w' = w)
  ∧ (status response = 200%nat →
     ∃ language quiz,
       normalizeLanguageCode (field requestBody "language") = Ok language
       ∧ generateCumulativeQuiz eventId language
           (is_true (field requestBody "forceRegenerate")) startTime now w
         = (Ok quiz, w')
       ∧ body response
         = GeneratedBody (cq_eventId quiz) (cq_seriesId quiz)
             (cq_language quiz) (cq_videoCount quiz)
             (length (cq_questions quiz)) (cq_processingTimeMs quiz)
             (cq_model quiz) quiz
       ∧ cache w' !! cacheKey eventId language = Some quiz)
  ∧ (∀ language k,
       ToBoolean (field requestBody "language") = true →
       normalizeLanguageCode (field requestBody "language") = Ok language →
       is_true (field requestBody "forceRegenerate") = true →
       fault (pool w) (SelectSeriesEvent eventId) = None →
       denotes eventId k →
       (∀ e, e ∈ all_events (tables (pool w)) → ev_key e = k →
             ev_state e = Ready → ev_series e = None) →
       response
       = respond 500
           (ErrorBody "Failed to generate cumulative quiz"
              "Event not found or not part of a series")
       ∧ w' = w).
Proof.
  destruct (is_nullish requestBody) eqn:Hbody.
  { pose proof (falsy_field_nullish _ "language" Hbody) as Hfalsy.
    destruct (get_prop_nullish_Throw _ "language" Hbody) as [m Hm].
    unfold post_generate, handle, mbind, io_bind, query. rewrite Hm.
    intros [= <- <-]. simpl.
    split_and!; [by eauto | by split; [|intros [? _]] | done | done |].
    intros language Hgiven. congruence. }
  destruct (ToBoolean (field requestBody "language")) eqn:Hgiven.
  2:{ unfold post_generate, handle, mbind, io_bind, query.
      rewrite (get_prop_field _ _ Hbody), Hgiven. simpl.
      intros [= <- <-]. simpl.
      split_and!; [by eauto | done | done | done | done]. }
  destruct (normalizeLanguageCode (field requestBody "language"))
    as [language|m] eqn:Hlanguage.
  2:{ unfold post_generate, handle, mbind, io_bind, query.
      rewrite (get_prop_field _ _ Hbody), Hgiven. simpl. rewrite Hlanguage.
      intros [= <- <-]. simpl.
      split_and!; [by eauto | by split; [|intros [_ ?]] | done | done
                   | done]. }
  rewrite (post_generate_run _ _ _ _ _ _ Hgiven Hlanguage).
  destruct (generateCumulativeQuiz eventId language _ startTime now w)
    as [[quiz|m] w1] eqn:Hrun; intros [= <- <-]; simpl.
  - split_and!; [by eauto | by split; [|intros [_ ?]] | done | |].
    + intros _. exists language, quiz. split_and!; [done | done | done |].
      rewrite generateCumulativeQuiz_steps in Hrun.
      unfold mbind at 1, io_bind in Hrun.
      destruct (cache_step eventId language _ w) as [[[q|]|m] w2] eqn:Hstep;
        [| |done].
      * injection Hrun as <- <-.
        by apply cache_step_served in Hstep as (_ & ? & _).
      * by apply produce_footprint in Hrun as (_ & _ & _ & Hc); apply Hc.
    + intros lang k _ [= <-] Hforce Hfault Hk Hnone. exfalso.
      rewrite Hforce, generateCumulativeQuiz_steps in Hrun.
      change (cache_step eventId language true)
        with (@mret io _ (option CumulativeQuiz) None) in Hrun.
      unfold mbind at 1, io_bind, mret, io_ret in Hrun.
      rewrite (produce_not_found _ _ _ _ _ k) in Hrun; [done | done | done |].
      apply select_series_event_nil. intros e He Hden. apply Hnone; [done|].
      by eapply denotes_functional.
  - split_and!; [by eauto | by split; [|intros [_ ?]] | done | done |].
    intros lang k _ [= <-] Hforce Hfault Hk Hnone.
    rewrite Hforce, generateCumulativeQuiz_steps in Hrun.
    change (cache_step eventId language true)
      with (@mret io _ (option CumulativeQuiz) None) in Hrun.
    unfold mbind at 1, io_bind, mret, io_ret in Hrun.
    rewrite (produce_not_found _ _ _ _ _ k) in Hrun;
      [by injection Hrun as <- <- | done | done |].
    apply select_series_event_nil. intros e He Hden. apply Hnone; [done|].
    by eapply denotes_functional.
Qed.

(** X21. The route that checks eligibility answers 400 when the language
    is missing or falsy, and 200 with the record of [checkEligibility] in
    every other case in which the language is accepted: not eligible, and
    a store that fails, are answers of status 200.  Status 500 is left for
    a language that [normalizeLanguageCode] rejects.  The route changes
    nothing. *)
Theorem eligibility_route_contract eventId given w :
  (ToBoolean given = false →
     get_eligibility normalizeLanguageCode eventId given w
     = (respond 400
          (ErrorBody "Language parameter is required"
             "Add ?language=<code> to the URL (e.g., ?language=en)"), w))
  ∧ (∀ language,
       ToBoolean given = true → normalizeLanguageCode given = Ok language →
       ∃ r, checkEligibility (pool w) eventId language = Ok r
            ∧ get_eligibility normalizeLanguageCode eventId given w
              = (respond 200 (EligibilityBody eventId language r), w))
  ∧ (∀ message,
       ToBoolean given = true →
       normalizeLanguageCode given = Throw message →
       get_eligibility normalizeLanguageCode eventId given w
       = (respond 500
            (ErrorBody "Failed to check cumulative quiz eligibility" message),
          w)).
Proof.
  unfold get_eligibility, handle, mbind, io_bind, query. split_and!.
  - by intros ->.
  - intros language -> ->. simpl.
    destruct (checkEligibility_total (pool w) eventId language) as [r Hr].
    exists r. by rewrite Hr.
  - by intros message -> ->.
Qed.

(** X22. The route that reads a quiz, asked with an accepted language,
    answers 404 exactly when the fast cache has no entry for the id and the
    language, the store accepts the statement, the id denotes a key, and the
    table holds no quiz of that key in that language; a quiz it answers with is in the
    fast cache afterwards and is always marked as a cache hit, wherever it
    came from.  Asked in the state the generating route has left behind
    when it answered 200, with the same language, it answers with the quiz
    of that answer and changes nothing. *)
Theorem quiz_route_contract eventId given language w :
  ToBoolean given = true → normalizeLanguageCode given = Ok language →
  (status (get_quiz normalizeLanguageCode eventId given w).1 = 404%nat
   ↔ cache w !! cacheKey eventId language = None
     ∧ fault (pool w) (SelectCumulativeQuiz eventId language) = None
     ∧ ∃ k, denotes eventId k
            ∧ ai_cumulative_quizzes (tables (pool w)) !! (k, language)
              = None)
  ∧ (status (get_quiz normalizeLanguageCode eventId given w).1 = 200%nat →
     ∃ quiz,
       (get_quiz normalizeLanguageCode eventId given w).1
       = {| status := 200; cache_hit := true;
            body := QuizBody (cq_eventId quiz) (cq_seriesId quiz)
                      (cq_language quiz) (cq_videoCount quiz)
                      (length (cq_questions quiz)) quiz |}
       ∧ cache (get_quiz normalizeLanguageCode eventId given w).2
           !! cacheKey eventId language = Some quiz)
  ∧ (∀ requestBody startTime now w0 response,
       field requestBody "language" = given →
       post_generate normalizeLanguageCode eventId requestBody startTime now
         w0 = (response, w) →
       status response = 200%nat →
       ∃ quiz,
         body response
         = GeneratedBody (cq_eventId quiz) (cq_seriesId quiz)
             (cq_language quiz) (cq_videoCount quiz)
             (length (cq_questions quiz)) (cq_processingTimeMs quiz)
             (cq_model quiz) quiz
         ∧ get_quiz normalizeLanguageCode eventId given w
           = ({| status := 200; cache_hit := true;
                 body := QuizBody (cq_eventId quiz) (cq_seriesId quiz)
                           (cq_language quiz) (cq_videoCount quiz)
                           (length (cq_questions quiz)) quiz |}, w)).
Proof.
  intros Hgiven Hlanguage.
  assert (Hrun : get_quiz normalizeLanguageCode eventId given w =
                 match getCachedQuiz eventId language w with
                 | (Ok None, w') =>
                     (respond 404
                        (NotFoundBody "Cumulative quiz not found"
                           "Generate a cumulative quiz first" eventId
                           language), w')
                 | (Ok (Some quiz), w') =>
                     ({| status := 200; cache_hit := true;
                         body := QuizBody (cq_eventId quiz) (cq_seriesId quiz)
                                   (cq_language quiz) (cq_videoCount quiz)
                                   (length (cq_questions quiz)) quiz |}, w')
                 | (Throw message, w') =>
                     (respond 500
                        (ErrorBody "Failed to retrieve cumulative quiz"
                           message), w')
                 end).
  { unfold get_quiz, handle, mbind, io_bind, query.
    rewrite Hgiven. simpl. rewrite Hlanguage.
    by destruct (getCachedQuiz eventId language w) as [[[quiz|]|m] w']. }
  rewrite Hrun. split_and!.
  - destruct (cache w !! cacheKey eventId language) as [q|] eqn:Hc.
    { rewrite (getCachedQuiz_hit _ _ _ _ Hc). simpl.
      split; [done | by intros [? _]]. }
    rewrite (getCachedQuiz_miss _ _ _ Hc). unfold pool_query.
    destruct (fault (pool w) _); simpl; [by split; [|intros (_ & ? & _)]|].
    unfold select_cumulative_quiz.
    destruct (bigint_param eventId) as [k|m] eqn:Hk; simpl.
    2:{ split; [done|]. intros (_ & _ & k & Hden & _).
        by rewrite (bigint_param_denoted _ _ Hden) in Hk. }
    apply bigint_param_Ok in Hk.
    destruct (ai_cumulative_quizzes (tables (pool w)) !! (k, language))
      eqn:Hrow; simpl.
    + split; [done|]. intros (_ & _ & k' & Hden & Hnone).
      rewrite (denotes_functional _ _ _ Hden Hk) in Hnone. congruence.
    + split; [|done]. intros _. split_and!; [done | done |]. by exists k.
  - destruct (getCachedQuiz eventId language w) as [[[quiz|]|m] w1] eqn:Hget;
      simpl; [|done|done].
    intros _. exists quiz. split; [done|]. by eapply getCachedQuiz_cached.
  - intros requestBody startTime now w0 response Hfield Hpost Hstatus.
    rewrite <- Hfield in Hgiven, Hlanguage.
    rewrite (post_generate_run _ _ _ _ _ _ Hgiven Hlanguage) in Hpost.
    destruct (generateCumulativeQuiz eventId language _ startTime now w0)
      as [[quiz|m] w1] eqn:Hgen; injection Hpost as <- <-; [|done].
    exists quiz. split; [done|].
    assert (Hc : cache w1 !! cacheKey eventId language = Some quiz).
    { rewrite generateCumulativeQuiz_steps in Hgen.
      unfold mbind at 1, io_bind in Hgen.
      destruct (cache_step eventId language _ w0) as [[[q|]|m] w2] eqn:Hstep;
        [| |done].
      - injection Hgen as <- <-.
        by apply cache_step_served in Hstep as (_ & ? & _).
      - by apply produce_footprint in Hgen as (_ & _ & _ & Hc); apply Hc. }
    by rewrite (getCachedQuiz_hit _ _ _ _ Hc).
Qed.

End RouteFacts.

(** ** Statistics *)

Section StatisticsFacts.
Context `{JsNumber} `{SqlBigint} `{SqlNumeric}.

Lemma remove_dups_length {A} `{EqDecision A} (l : list A) :
  (length (remove_dups l) ≤ length l)%nat.
Proof.
  apply submseteq_length, NoDup_submseteq; [apply NoDup_remove_dups|].
  intros x. by rewrite elem_of_remove_dups.
Qed.

Lemma avg_None (values : list Z) : avg values = None ↔ length values = 0%nat.
Proof. by destruct values. Qed.

Lemma total_quizzes_size db :
  total_quizzes (select_stats db) = size (ai_cumulative_quizzes db).
Proof.
  unfold select_stats. simpl. by rewrite length_fmap, length_map_to_list.
Qed.

(** X23. [getStats] fails only when the pool rejects its statement.  Its
    one row counts at most as many series as quizzes; both averages are
    [null] exactly when the table is empty, and the counts are then 0.  A
    successful [saveCumulativeQuiz] raises the number of quizzes by one
    when the table had no row for the key of the video and the language, and
    leaves it as it was when it had one. *)
Theorem getStats_figures p :
  ∃ row,
    getStats p None = Ok row
    ∧ (total_series row ≤ total_quizzes row)%nat
    ∧ (avg_videos_per_quiz row = None ↔ total_quizzes row = 0%nat)
    ∧ (avg_questions_per_quiz row = None ↔ total_quizzes row = 0%nat)
    ∧ ∀ quiz w w',
        pool w = p → saveCumulativeQuiz quiz w = (Ok (), w') →
        ∃ event_id language row',
          denotes (cq_eventId quiz) event_id
          ∧ varchar 10 (cq_language quiz) = Ok language
          ∧ getStats (pool w') None = Ok row'
          ∧ total_quizzes row'
            = match ai_cumulative_quizzes (tables p)
                      !! (event_id, language) with
              | Some _ => total_quizzes row
              | None => S (total_quizzes row)
              end.
Proof.
  exists (select_stats (tables p)). split; [done|]. split_and!.
  - unfold select_stats. simpl.
    etrans; [apply remove_dups_length|]. by rewrite length_fmap.
  - unfold select_stats. simpl. by rewrite avg_None, length_fmap.
  - unfold select_stats. simpl. by rewrite avg_None, length_fmap.
  - intros quiz w w' <-. rewrite saveCumulativeQuiz_run.
    destruct (pool_query (pool w) _ (upsert quiz)) as [db|m] eqn:Hq; [|done].
    intros [= <-]. apply pool_query_Ok in Hq as [_ Hup].
    apply upsert_Ok_inv in Hup
      as (event_id & series_id & included & language & row & Hevent & _ & _
          & Hlang & _ & _ & _ & Hrows & _).
    exists event_id, language, (select_stats db).
    split_and!; [done | done | done |].
    rewrite !total_quizzes_size, Hrows, map_size_insert.
    by destruct (ai_cumulative_quizzes (tables (pool w)) !! _).
Qed.

End StatisticsFacts.

(** * Concrete runs

    The theorems above applied to the stores of [Examples], over the
    integer-valued numbers and the keys of 64 bits. *)

Import Examples.
#[local] Existing Instance int_numbers.
#[local] Existing Instance int64_keys.

(** Two keys that differ. *)
Ltac other_key H :=
  apply (f_equal proj1_sig) in H; vm_compute in H; discriminate H.

(** C1, as stated, fails: with a hint of 1000000 on lecture 10 and no hint
    on lecture 12, the hint-less lecture is numbered first. *)
Lemma hintless_before_large_hint :
  ordered_events (tables (store large_hint [])) "7"
  = Ok [ {| se_key := key 12; se_title := "Lecture 12"; se_position := 1 |};
         {| se_key := key 10; se_title := "Lecture 10"; se_position := 2 |} ].
Proof. reflexivity. Qed.

Lemma resolver_ordering_witness :
  StronglySorted sort_key_le
    [ (1, video 11 (Some (OrderInt 1)) 6);
      (2, video 10 (Some (OrderInt 2)) 5);
      (999999, video 12 None 1) ]
  ∧ ordered_events (tables (store hints_2_1_none [])) "7"
    = Ok [ {| se_key := key 11; se_title := "Lecture 11"; se_position := 1 |};
           {| se_key := key 10; se_title := "Lecture 10"; se_position := 2 |};
           {| se_key := key 12; se_title := "Lecture 12"; se_position := 3 |} ].
Proof.
  destruct (resolver_ordering (tables (store hints_2_1_none [])) "7")
    as [Hgeneral Hexample].
  split.
  - by destruct (Hgeneral _ eq_refl) as (_ & _ & Hsorted & _).
  - apply (Hexample (video 10 (Some (OrderInt 2)) 5)
                    (video 11 (Some (OrderInt 1)) 6)
                    (video 12 None 1)); reflexivity.
Defined.

(** C6, as stated, fails: for an anchor that is not in the series the
    resolver answers with the empty list, not with an error. *)
Lemma absent_anchor_returns_empty :
  getSeriesEventsUpTo (store hints_2_1_none []) "7" "13" = Ok [].
Proof. reflexivity. Qed.

Lemma resolver_anchor_absent_witness :
  getSeriesEventsUpTo (store hints_2_1_none []) "7" "13" = Ok []
  ∧ isCacheValid (store hints_2_1_none [])
      {| cq_eventId := "13"; cq_seriesId := "7"; cq_language := "en";
         cq_model := "gpt-4"; cq_questions := [];
         cq_includedEventIds := ["11"; "13"]; cq_videoCount := 2;
         cq_processingTimeMs := 5 |} = Ok false
  ∧ (generateCumulativeQuiz "13" "en" true 0 5
       (world (store hints_2_1_none []))).1
    = Throw "Event not found or not part of a series".
Proof.
  destruct (resolver_anchor_absent (store hints_2_1_none []) "7" "13"
              (key 7) (key 13)
              [ lecture 1 11; lecture 2 10; lecture 3 12 ])
    as (Hempty & Hguard & Hgenerate).
  - reflexivity.
  - reflexivity.
  - reflexivity.
  - reflexivity.
  - intros Hin.
    repeat (apply elem_of_cons in Hin as [Hin|Hin]; [other_key Hin|]).
    by apply elem_of_nil in Hin.
  - split_and!.
    + exact Hempty.
    + by apply Hguard.
    + apply Hgenerate; [reflexivity | reflexivity | reflexivity |].
      intros e He Hkey.
      repeat (apply elem_of_cons in He as [->|He]; [other_key Hkey|]).
      by apply elem_of_nil in He.
Defined.

(** Lecture 2 has come between the stored members 1 and 3. *)
Lemma isCacheValid_spec_witness :
  isCacheValid (store lectures lecture_quizzes) stored_1_3 = Ok false.
Proof.
  apply (proj2 (isCacheValid_spec (store lectures lecture_quizzes) stored_1_3)
               (video 2 (Some (OrderInt 2)) 20)
               (video 3 (Some (OrderInt 3)) 30) 2 3).
  - apply list_elem_of_further, list_elem_of_here.
  - split; reflexivity.
  - do 2 apply list_elem_of_further. apply list_elem_of_here.
  - split; reflexivity.
  - reflexivity.
  - reflexivity.
  - reflexivity.
  - lia.
  - change ("2" ∉ ["1"; "3"]). compute_done.
Defined.

Lemma isCacheValid_ignores_quiz_content_witness :
  isCacheValid (store lectures lecture_quizzes) stored_1_3
  = isCacheValid (store lectures [ quiz_row 2 [ mcq "edited" 3 9 ] ])
      {| cq_eventId := "3"; cq_seriesId := "7"; cq_language := "en";
         cq_model := "gpt-4";
         cq_questions := combined (lecture 1 1) (mcq "edited" 3 9);
         cq_includedEventIds := ["1"; "3"]; cq_videoCount := 2;
         cq_processingTimeMs := 9 |}.
Proof.
  apply isCacheValid_ignores_quiz_content; reflexivity.
Defined.

(** Lecture 3 is eligible: third of three, one predecessor with a quiz. *)
Lemma checkEligibility_gates_witness :
  checkEligibility (store lectures lecture_quizzes) "3" "en"
  = Ok {| eligible := true;
          reason := reason_eligible 3 3 1;
          details :=
            Some {| d_seriesId := "7"; d_seriesTitle := Some "Algebra";
                    d_position := Some 3%nat; d_totalInSeries := Some 3%nat;
                    d_previousVideosWithQuizzes := Some 1%nat;
                    d_hasQuiz := true |} |}.
Proof.
  destruct (checkEligibility_gates (store lectures lecture_quizzes) "3" "en")
    as (_ & Hfound & _ & _).
  - done.
  - change (NoDup ["1"; "2"; "3"]). compute_done.
  - destruct (Hfound (video 3 (Some (OrderInt 3)) 30)) as [_ Hseries].
    + do 2 apply list_elem_of_further. apply list_elem_of_here.
    + reflexivity.
    + reflexivity.
    + destruct (Hseries (key 7) eq_refl) as (title & Htitle & _ & Hquiz).
      assert (Hhas : has_quiz (tables (store lectures lecture_quizzes))
                       (key 3) "en").
      { apply Exists_cons_tl, Exists_cons_hd. split; reflexivity. }
      destruct (Hquiz Hhas [ lecture 1 1; lecture 2 2; lecture 3 3 ] eq_refl)
        as (i & t & Hi & Ht & _ & Hcanon).
      destruct (Hcanon eq_refl) as (_ & _ & Heligible).
      assert (i = 2%nat) as ->.
      { destruct i as [|[|[|i]]]; [| |done|done];
          injection Hi as <-; other_key Ht. }
      assert (title = Some "Algebra") as ->.
      { destruct title as [text|].
        - destruct Htitle as (x & Hx & _ & <-).
          by apply list_elem_of_singleton in Hx as ->.
        - by destruct (Htitle _ (list_elem_of_here _ _)). }
      by apply (Heligible ltac:(done) 1%nat).
Defined.

(** C7, as stated, fails: on a store that rejects nothing, a request id
    that is no BIGINT, and a ready video of the series whose order text is
    no integer, each make [checkEligibility] return the record of an
    error. *)
Lemma error_record_without_store_failure :
  (∀ stmt, fault (store lectures lecture_quizzes) stmt = None)
  ∧ checkEligibility (store lectures lecture_quizzes) "three" "en"
    = Ok (error_record
            ("invalid input syntax for type bigint: "
             +:+ double_quote +:+ "three" +:+ double_quote))
  ∧ checkEligibility
      (store (lectures ++ [lecture_4_malformed]) lecture_quizzes) "3" "en"
    = Ok (error_record
            ("invalid input syntax for type integer: "
             +:+ double_quote +:+ "last" +:+ double_quote)).
Proof. split_and!; reflexivity. Qed.

(** C7: on the three lectures no request for lecture 3 is answered with
    the record of an error. *)
Lemma checkEligibility_never_throws_witness :
  ∃ r, checkEligibility (store lectures lecture_quizzes) "3" "en" = Ok r
       ∧ ∀ message, reason r ≠ reason_error message.
Proof.
  destruct (checkEligibility_never_throws (store lectures lecture_quizzes)
              "3" "en") as (r & Hr & _ & Hclean).
  exists r. split; [exact Hr|]. apply Hclean.
  - done.
  - by exists (key 3).
  - intros e s c _ _ _ _ Hc _.
    repeat (apply elem_of_cons in Hc as [->|Hc]; [by eexists|]).
    by apply elem_of_nil in Hc.
Defined.

(** C4, as stated, fails whichever way a [null] answer is read: a question
    whose [correctAnswer] is [null] is dropped although it has that field,
    and a question whose only answer field is a [null] [correct_answer] is
    kept, with the answer "null". *)
Lemma null_answer_dropped_or_kept :
  match combineQuizzes
          [ {| iq_eventId := "1";
               iq_questions :=
                 JArr [ mcq "a" 0 0; null_camel; mcq "b" 1 7 ] |} ]
          [ lecture 1 1 ] with
  | Ok out => Some (question <$> out)
  | Throw _ => None
  end = Some [ JStr "a"; JStr "b" ]
  ∧ match combineQuizzes
            [ {| iq_eventId := "1"; iq_questions := JArr [ null_snake ] |} ]
            [ lecture 1 1 ] with
    | Ok out => Some ((λ cq, (question cq, correctAnswer cq)) <$> out)
    | Throw _ => None
    end = Some [ (JStr "snake", "null") ].
Proof. split; reflexivity. Qed.

Lemma combineQuizzes_order_and_drops_witness :
  mapM combined_of
    (filter answered
       (listing
          [ {| iq_eventId := "1";
               iq_questions := JArr [ mcq "a" 0 0; no_answer; mcq "c" 2 30 ] |};
            {| iq_eventId := "2";
               iq_questions := JArr [ no_answer; mcq "b" 1 7 ] |} ]
          [ lecture 1 1; lecture 2 2 ]))
  = Ok (combined (lecture 1 1) (mcq "a" 0 0)
        ++ combined (lecture 1 1) (mcq "c" 2 30)
        ++ combined (lecture 2 2) (mcq "b" 1 7))
  ∧ combineQuizzes
      [ {| iq_eventId := "1";
           iq_questions := JArr [ mcq "a" 0 0; no_answer; mcq "c" 2 30 ] |};
        {| iq_eventId := "2";
           iq_questions := JArr [ no_answer; mcq "b" 1 7 ] |} ]
      [ lecture 1 1; lecture 2 2 ]
    = combineQuizzes
        [ {| iq_eventId := "1";
             iq_questions := JArr [ mcq "a" 0 0; mcq "c" 2 30 ] |};
          {| iq_eventId := "2";
             iq_questions := JArr [ no_answer; mcq "b" 1 7 ] |} ]
        [ lecture 1 1; lecture 2 2 ].
Proof.
  destruct (combineQuizzes_order_and_drops
              [ {| iq_eventId := "1";
                   iq_questions := JArr [ mcq "a" 0 0; no_answer;
                                          mcq "c" 2 30 ] |};
                {| iq_eventId := "2";
                   iq_questions := JArr [ no_answer; mcq "b" 1 7 ] |} ]
              [ lecture 1 1; lecture 2 2 ]) as (Hout & _ & Hdrop & _ & _).
  split.
  - apply Hout. reflexivity.
  - apply (Hdrop [] "1" [ mcq "a" 0 0 ] no_answer [ mcq "c" 2 30 ]
                 [ {| iq_eventId := "2";
                      iq_questions := JArr [ no_answer; mcq "b" 1 7 ] |} ]);
      reflexivity.
Defined.

(** A question at the very start of lecture 2 loses its timestamp. *)
Lemma combineQuizzes_timestamp_witness :
  Forall2 (λ cq item,
             let ts := field item.2 "timestamp" in
             (ToBoolean ts = false → timestamp (videoContext cq) = None)
             ∧ (ToBoolean ts = true →
                ∃ n, ToNumber ts = Ok n
                     ∧ timestamp (videoContext cq) = Some n)
             ∧ (ts = JNum (num_of_Z 0) → timestamp (videoContext cq) = None))
    (combined (lecture 2 2) (mcq "2a" 0 0)
     ++ combined (lecture 2 2) (mcq "2b" 1 120))
    (filter answered
       (listing [ {| iq_eventId := "2";
                     iq_questions := JArr [ mcq "2a" 0 0; mcq "2b" 1 120 ] |} ]
                [ lecture 2 2 ])).
Proof.
  apply combineQuizzes_timestamp. reflexivity.
Defined.

(** The three lectures, asked from lecture 3: five questions of the lectures
    2 and 3, three members, lecture 1 among them without a question. *)
Lemma generate_member_set_witness :
  (∃ seriesEvents,
     getSeriesEventsUpTo (store lectures lecture_quizzes)
       (cq_seriesId produced_quiz) "3" = Ok seriesEvents
     ∧ cq_includedEventIds produced_quiz = se_id <$> seriesEvents
     ∧ cq_videoCount produced_quiz = length (cq_includedEventIds produced_quiz)
     ∧ (∃ e, e ∈ lectures ∧ denotes "3" (ev_key e)
             ∧ ev_series e = Some (cq_seriesId produced_quiz)
             ∧ ev_state e = Ready)
     ∧ (NoDup (ev_id <$> lectures) →
        ∃ ordered i t,
          ordered_events (tables (store lectures lecture_quizzes))
            (cq_seriesId produced_quiz) = Ok ordered
          ∧ ordered !! i = Some t ∧ denotes "3" (se_key t)
          ∧ seriesEvents = take (S i) ordered))
  ∧ cq_includedEventIds produced_quiz = ["1"; "2"; "3"]
  ∧ cq_videoCount produced_quiz = 3%nat
  ∧ length (cq_questions produced_quiz) = 5%nat.
Proof.
  split; [|split_and!; reflexivity].
  apply (generate_member_set "3" "en" true 0 5
           (world (store lectures lecture_quizzes))
           produced_quiz produced.2); reflexivity.
Defined.

Lemma generate_tolerates_missing_quizzes_witness :
  ∃ quiz w',
    generateCumulativeQuiz "3" "en" true 0 5
      (world (store lectures lecture_quizzes)) = (Ok quiz, w')
    ∧ cq_includedEventIds quiz = ["1"; "2"; "3"]
    ∧ cq_videoCount quiz = 3%nat
    ∧ ∀ cq, cq ∈ cq_questions quiz → vc_eventId (videoContext cq) ≠ "1".
Proof.
  destruct (generate_tolerates_missing_quizzes "3" "en" true 0 5
              (world (store lectures lecture_quizzes))
              anchor_3 []
              [ lecture 1 1; lecture 2 2; lecture 3 3 ])
    as (quiz & w' & Hrun & Hincluded & Hcount & Hmissing & _).
  - reflexivity.
  - simpl. lia.
  - simpl. lia.
  - lia.
  - simpl. lia.
  - reflexivity.
  - reflexivity.
  - reflexivity.
  - intros m data Hm Hdata.
    repeat (apply elem_of_cons in Hm as [->|Hm]);
      [| | |by apply elem_of_nil in Hm].
    + discriminate Hdata.
    + injection Hdata as <-. split; [done|].
      repeat (constructor; try done).
    + injection Hdata as <-. split; [done|].
      repeat (constructor; try done).
  - exists quiz, w'. split_and!; [done | done | done |].
    apply (Hmissing (lecture 1 1)); [apply list_elem_of_here | reflexivity].
Defined.

(** X1: the quiz saved into the empty store is found again. *)
Lemma saved_quiz_is_found_witness :
  getCachedQuiz "3" "en" saved.2 = (Ok (Some stored_1_3), saved.2).
Proof.
  destruct (saved_quiz_is_found stored_1_3
              (world (store lectures lecture_quizzes))) as [_ Hfound].
  by destruct (Hfound saved.2) as [Hhit _].
Defined.

(** X2: saving the quiz of lecture 3 does not touch lecture 2. *)
Lemma save_leaves_other_quizzes_witness :
  (getCachedQuiz "2" "en" saved.2).1
  = (getCachedQuiz "2" "en" (world (store lectures lecture_quizzes))).1.
Proof.
  apply (save_leaves_other_quizzes stored_1_3); try reflexivity.
  - simpl. lia.
  - intros Heq. apply (f_equal fst) in Heq.
    assert (Hsame : Int8 (key 2) = Int8 (key 3)) by exact Heq.
    injection Hsame as Hsame. discriminate Hsame.
Defined.

(** X3: the request for lecture 3 leaves its quiz in the fast cache. *)
Lemma generate_footprint_witness :
  differ_at_most_at "3" (store lectures lecture_quizzes) (pool produced.2)
  ∧ cache produced.2 !! cacheKey "3" "en" = Some produced_quiz.
Proof.
  destruct (generate_footprint "3" "en" true 0 5
              (world (store lectures lecture_quizzes))
              (Ok produced_quiz) produced.2 eq_refl)
    as (Hframe & _ & _ & Hcached).
  split; [exact Hframe | by apply Hcached].
Defined.

(** X4: asked again, one minute later, the same quiz comes back. *)
Lemma generate_again_serves_same_witness :
  generateCumulativeQuiz "3" "en" false 60000 60001 produced.2
  = (Ok produced_quiz, produced.2).
Proof.
  apply (generate_again_serves_same "3" "en" true 0 5
           (world (store lectures lecture_quizzes))).
  reflexivity.
Defined.

(** X5: forced regeneration from the empty store and from the store that
    already holds the quiz. *)
Lemma forced_regeneration_ignores_stored_witness :
  (generateCumulativeQuiz "3" "en" true 0 5
     (world (store lectures lecture_quizzes))).1
  = (generateCumulativeQuiz "3" "en" true 0 5 produced.2).1.
Proof.
  apply forced_regeneration_ignores_stored; reflexivity.
Defined.

(** X6: a fourth lecture whose order text is "last" blocks the series. *)
Lemma malformed_hint_blocks_series_witness :
  (∃ message,
     getSeriesEventsUpTo (store (lectures ++ [lecture_4_malformed]) []) "7" "3"
     = Throw message)
  ∧ isCacheValid (store (lectures ++ [lecture_4_malformed]) []) stored_1_3
    = Ok false.
Proof.
  destruct (malformed_hint_blocks_series
              (store (lectures ++ [lecture_4_malformed]) []) "7"
              lecture_4_malformed
              ("invalid input syntax for type integer: "
               +:+ double_quote +:+ "last" +:+ double_quote))
    as (Hresolver & Hguard & _).
  - do 3 apply list_elem_of_further. apply list_elem_of_here.
  - split; reflexivity.
  - reflexivity.
  - split; [apply Hresolver | by apply Hguard].
Defined.

(** X7: a fourth lecture with the order hint 4 leaves the members of the
    quiz of lecture 3 as they were. *)
Lemma later_video_keeps_members_witness :
  getSeriesEventsUpTo (store (lectures ++ [lecture_4]) lecture_quizzes) "7" "3"
  = getSeriesEventsUpTo (store lectures lecture_quizzes) "7" "3".
Proof.
  apply (later_video_keeps_members (store lectures lecture_quizzes)
           (store (lectures ++ [lecture_4]) lecture_quizzes) "7"
           (video 3 (Some (OrderInt 3)) 30) 3 lecture_4 4 lectures []).
  - by rewrite app_nil_r.
  - reflexivity.
  - reflexivity.
  - change (NoDup ["1"; "2"; "3"; "4"]). compute_done.
  - do 2 apply list_elem_of_further. apply list_elem_of_here.
  - split; reflexivity.
  - reflexivity.
  - right. split; [reflexivity|]. left. simpl. lia.
Defined.

(** X10: the five questions of the quiz of lecture 3. *)
Lemma generated_questions_witness :
  mapM combined_of
    (filter answered
       (m ← [ lecture 1 1; lecture 2 2; lecture 3 3 ];
        (λ q, (m, q))
          <$> questions_of
                (fetched (tables (store lectures lecture_quizzes)) "en" m)))
  = Ok (cq_questions produced_quiz)
  ∧ cq_questions produced_quiz
    = combined (lecture 2 2) (mcq "2a" 0 0)
      ++ combined (lecture 2 2) (mcq "2b" 1 120)
      ++ combined (lecture 3 3) (mcq "3a" 2 15)
      ++ combined (lecture 3 3) (mcq "3b" 0 40)
      ++ combined (lecture 3 3) (mcq "3c" 1 300)
  ∧ cq_model produced_quiz = "gpt-4"
  ∧ cq_processingTimeMs produced_quiz = 5.
Proof.
  destruct (generated_questions "3" "en" true 0 5
              (world (store lectures lecture_quizzes))
              produced_quiz produced.2 eq_refl eq_refl)
    as (members & Hmembers & _ & Hquestions & Hmodel & Htiming).
  assert (Hsame : Ok members = Ok [ lecture 1 1; lecture 2 2; lecture 3 3 ])
    by (rewrite <- Hmembers; reflexivity).
  injection Hsame as ->.
  split_and!; [exact Hquestions | reflexivity | exact Hmodel | exact Htiming].
Defined.

(** X11: the questions of the quiz of lecture 3 carry the video numbers 2
    and 3. *)
Lemma question_video_numbers_witness :
  Forall (λ cq,
            ∃ i, cq_includedEventIds produced_quiz !! i
                 = Some (vc_eventId (videoContext cq))
                 ∧ videoNumber (videoContext cq) = num_of_Z (Z.of_nat (S i)))
         (cq_questions produced_quiz).
Proof.
  apply (question_video_numbers "3" "en" true 0 5
           (world (store lectures lecture_quizzes)) produced_quiz produced.2);
    [reflexivity | reflexivity |].
  change (NoDup ["1"; "2"; "3"]). compute_done.
Defined.

(** X12: the quiz of lecture 2 is the beginning of the quiz of lecture 3. *)
Lemma earlier_quiz_is_prefix_witness :
  cq_includedEventIds produced_quiz_2 `prefix_of`
    cq_includedEventIds produced_quiz
  ∧ cq_questions produced_quiz_2 `prefix_of` cq_questions produced_quiz.
Proof.
  apply (earlier_quiz_is_prefix "en"
           "2" 0 5 (world (store lectures lecture_quizzes)) produced_quiz_2
           produced_2.2
           "3" 0 5 produced_2.2 produced_quiz
           (generateCumulativeQuiz "3" "en" true 0 5 produced_2.2).2);
    try reflexivity.
  - change (NoDup ["1"; "2"; "3"]). compute_done.
  - change ("2" ∈ ["1"; "2"; "3"]). compute_done.
Defined.

(** X13: lecture 3 is third of three, one of its two predecessors has a
    quiz. *)
Lemma eligible_diagnostics_bounds_witness :
  ∃ d position total previous,
    Some {| d_seriesId := "7"; d_seriesTitle := Some "Algebra";
            d_position := Some 3%nat; d_totalInSeries := Some 3%nat;
            d_previousVideosWithQuizzes := Some 1%nat; d_hasQuiz := true |}
    = Some d
    ∧ d_position d = Some position
    ∧ d_totalInSeries d = Some total
    ∧ d_previousVideosWithQuizzes d = Some previous
    ∧ d_hasQuiz d = true
    ∧ reason_eligible 3 3 1 = reason_eligible position total previous
    ∧ (2 ≤ position ≤ total)%nat
    ∧ (1 ≤ previous < position)%nat.
Proof.
  apply (eligible_diagnostics_bounds (store lectures lecture_quizzes)
           "3" "en"
           {| eligible := true; reason := reason_eligible 3 3 1;
              details := Some {| d_seriesId := "7";
                                 d_seriesTitle := Some "Algebra";
                                 d_position := Some 3%nat;
                                 d_totalInSeries := Some 3%nat;
                                 d_previousVideosWithQuizzes := Some 1%nat;
                                 d_hasQuiz := true |} |});
    reflexivity.
Defined.

(** X14: lecture 3, asked for as "03", passes the gates of the store and
    is not found among the positions. *)
Lemma position_undetermined_iff_witness :
  reason {| eligible := false; reason := reason_no_position;
            details :=
              Some {| d_seriesId := "7"; d_seriesTitle := Some "Algebra";
                      d_position := None; d_totalInSeries := None;
                      d_previousVideosWithQuizzes := None;
                      d_hasQuiz := true |} |}
  = reason_no_position
  ↔ ∃ e s vids,
      e ∈ lectures ∧ denotes "03" (ev_key e)
      ∧ ev_state e = Ready ∧ ev_series_key e = Some s
      ∧ has_quiz (tables (store lectures lecture_quizzes)) (ev_key e) "en"
      ∧ ordered_events (tables (store lectures lecture_quizzes)) (int8out s)
        = Ok vids
      ∧ "03" ≠ ev_id e.
Proof.
  apply (position_undetermined_iff (store lectures lecture_quizzes) "03" "en").
  - done.
  - change (NoDup ["1"; "2"; "3"]). compute_done.
  - reflexivity.
Defined.

(** X15: lecture 3 is reported at position 3, and its quiz counts three
    videos. *)
Lemma eligible_position_is_video_count_witness :
  cq_videoCount produced_quiz = 3%nat
  ∧ ∃ d,
      Some {| d_seriesId := "7"; d_seriesTitle := Some "Algebra";
              d_position := Some 3%nat; d_totalInSeries := Some 3%nat;
              d_previousVideosWithQuizzes := Some 1%nat;
              d_hasQuiz := true |} = Some d
      ∧ d_seriesId d = cq_seriesId produced_quiz
      ∧ d_position d = Some (cq_videoCount produced_quiz)
      ∧ d_previousVideosWithQuizzes d
        = Some (length
                  (filter (λ id, is_Some (stored_quiz
                                            (tables (store lectures
                                                       lecture_quizzes))
                                            id "en"))
                          (take (cq_videoCount produced_quiz - 1)
                                (cq_includedEventIds produced_quiz)))).
Proof.
  split; [reflexivity|].
  apply (eligible_position_is_video_count (store lectures lecture_quizzes)
           "3" "en"
           {| eligible := true; reason := reason_eligible 3 3 1;
              details := Some {| d_seriesId := "7";
                                 d_seriesTitle := Some "Algebra";
                                 d_position := Some 3%nat;
                                 d_totalInSeries := Some 3%nat;
                                 d_previousVideosWithQuizzes := Some 1%nat;
                                 d_hasQuiz := true |} |}
           (world (store lectures lecture_quizzes)) 0 5
           produced_quiz produced.2); try reflexivity.
  change (NoDup ["1"; "2"; "3"]). compute_done.
Defined.

(** X17: lecture 1 has been deleted; the quiz stored over the lectures 1
    and 3 is invalid. *)
Lemma withdrawn_member_invalidates_witness :
  isCacheValid
    (store [ video 2 (Some (OrderInt 2)) 20;
             video 3 (Some (OrderInt 3)) 30 ] [])
    stored_1_3
  = Ok false.
Proof.
  apply (withdrawn_member_invalidates _ stored_1_3 "1").
  - apply list_elem_of_here.
  - intros e He _.
    repeat (apply elem_of_cons in He as [->|He]); [done | done |].
    by apply elem_of_nil in He.
Defined.

(** X18: a language of twelve characters. *)
Lemma unfit_row_is_rejected_witness :
  ∃ message,
    generateCumulativeQuiz "3" "zh-hans-cn-x" true 0 5
      (world (store lectures lecture_quizzes))
    = (Throw message, world (store lectures lecture_quizzes)).
Proof.
  apply (unfit_row_is_rejected "3" "zh-hans-cn-x" 0 5
           (world (store lectures lecture_quizzes))
           ("value too long for type character varying("
            +:+ pretty 10%nat +:+ ")")).
  left. reflexivity.
Defined.

(** X19: the request for lecture 3 does not fail with the guard's message. *)
Lemma no_events_guard_never_fires_witness :
  produced.1 ≠ Throw error_no_events.
Proof.
  apply (no_events_guard_never_fires "3" "en" true 0 5
           (world (store lectures lecture_quizzes))).
  intros stmt. discriminate.
Defined.

(** X20: the request for lecture 3 is answered 200, and the quiz is in the
    fast cache. *)
Lemma generate_route_contract_witness :
  ∃ language quiz,
    accept_text (JStr "en") = Ok language
    ∧ generateCumulativeQuiz "3" language true 0 5
        (world (store lectures lecture_quizzes)) = (Ok quiz, posted.2)
    ∧ body posted.1
      = GeneratedBody (cq_eventId quiz) (cq_seriesId quiz) (cq_language quiz)
          (cq_videoCount quiz) (length (cq_questions quiz))
          (cq_processingTimeMs quiz) (cq_model quiz) quiz
    ∧ cache posted.2 !! cacheKey "3" language = Some quiz.
Proof.
  destruct (generate_route_contract accept_text "3"
              (JObj [ ("language", JStr "en");
                      ("forceRegenerate", JBool true) ]) 0 5
              (world (store lectures lecture_quizzes)) posted.1 posted.2)
    as (_ & _ & _ & Hok & _).
  - reflexivity.
  - by apply Hok.
Defined.

(** X22: read after the request above, the quiz of lecture 3 comes back. *)
Lemma quiz_route_contract_witness :
  ∃ quiz,
    body posted.1
    = GeneratedBody (cq_eventId quiz) (cq_seriesId quiz) (cq_language quiz)
        (cq_videoCount quiz) (length (cq_questions quiz))
        (cq_processingTimeMs quiz) (cq_model quiz) quiz
    ∧ get_quiz accept_text "3" (JStr "en") posted.2
      = ({| status := 200; cache_hit := true;
            body := QuizBody (cq_eventId quiz) (cq_seriesId quiz)
                      (cq_language quiz) (cq_videoCount quiz)
                      (length (cq_questions quiz)) quiz |}, posted.2).
Proof.
  destruct (quiz_route_contract accept_text "3" (JStr "en") "en" posted.2
              eq_refl eq_refl) as (_ & _ & Hround).
  apply (Hround (JObj [ ("language", JStr "en");
                        ("forceRegenerate", JBool true) ]) 0 5
                (world (store lectures lecture_quizzes)) posted.1);
    reflexivity.
Defined.

(** Further runs: the store compares keys, JavaScript compares texts, and
    [String] rejects an object with a [toString] of its own. *)
Lemma another_spelling_finds_the_video :
  (cq_includedEventIds <$> produced_03.1) = Ok ["1"; "2"; "3"]
  ∧ (cq_eventId <$> produced_03.1) = Ok "03"
  ∧ (reason <$> checkEligibility (store lectures lecture_quizzes) "03" "en")
    = Ok reason_no_position.
Proof. split_and!; reflexivity. Qed.

Lemma odd_answer_is_rejected :
  combineQuizzes
    [ {| iq_eventId := "1"; iq_questions := JArr [ odd_answer ] |} ]
    [ lecture 1 1 ]
  = Throw not_primitive.
Proof. reflexivity. Qed.
